(** * ClaudeEditor: the local persistence and synchronization core

    A shallow embedding of the three stateful components of the editor:

    - [SnapshotManager]  (lib/storage/snapshots.ts)
    - [ClaudeAPI]        (lib/claude/api.ts)
    - [ServiceWorker]    (public/service-worker.js)

    of the code that calls them:

    - [EditorStore]      (lib/stores/editorStore.ts)
    - [CodeEditor]       (the editor component and its save and restore callbacks)
    - [SnapshotPanel]    (components/editor/SnapshotPanel.tsx)
    - [ChatPanel]        (the chat component and its [sendMessage])
    - [OfflineDetection] (hooks/useOfflineDetection.ts, components/OfflineIndicator.tsx)

    and of two helpers, [MemoryCacheManager] and [PatternCompressor],

    together with the fragment of the JavaScript run time ([JS]) and of
    IndexedDB ([IDB]) that these sources rely on.  Every method is a pure
    function that threads the state it mutates: the object store for the
    snapshot manager, the [ClaudeAPI] instance for the response cache, the
    offline object store for the service worker.  What the sources draw from
    the outside world (the clock, [nanoid], the outcome of a [fetch]) is an
    explicit argument.  A call runs to completion before the next one
    starts; the one place where two calls are let to overlap says so. *)

From Stdlib Require Import ZArith List String Ascii Bool Lia Permutation Sorted.
From Stdlib Require Import QArith Qround DecimalString.
Import ListNotations.

Local Open Scope string_scope.
Local Open Scope list_scope.
Local Open Scope Z_scope.

Set Implicit Arguments.
Set Warnings "-register-all".

(* ================================================================= *)
(** * The JavaScript fragment *)
(* ================================================================= *)

Module JS.

(** Exceptions.  [ErrorObj m] is [new Error(m)]; [DOMException n] is the
    error of a failed IndexedDB request, by name. *)
Inductive exn : Type :=
| TypeError (message : string)
| SyntaxError (message : string)
| ErrorObj (message : string)
| DOMException (name : string).

(** The completion of a call: a value, or a thrown exception (for an async
    function: the promise fulfils, or rejects). *)
Inductive completion (A : Type) : Type :=
| Normal (value : A)
| Throw (e : exn).

Arguments Normal {A} value.
Arguments Throw {A} e.

Definition is_normal {A : Type} (c : completion A) : bool :=
  match c with Normal _ => true | Throw _ => false end.

(** Truthiness of an optional boolean property ([undefined] is falsy). *)
Definition truthy (b : option bool) : bool :=
  match b with Some true => true | _ => false end.

(** ** Strings

    A string is its sequence of code units; the embedding covers code units
    below 256, which is all the patterns and keys of the sources use. *)

Definition dquote : ascii := ascii_of_nat 34.
Definition backslash : ascii := ascii_of_nat 92.
Definition newline : ascii := ascii_of_nat 10.
Definition carriage_return : ascii := ascii_of_nat 13.
Definition backtick : ascii := ascii_of_nat 96.

Definition str1 (c : ascii) : string := String c EmptyString.

(** [String.prototype.startsWith]. *)
Definition startsWith (s needle : string) : bool := String.prefix needle s.

(** [String.prototype.includes]: [needle] occurs somewhere in [s]. *)
Fixpoint includes (s needle : string) : bool :=
  String.prefix needle s ||
  match s with
  | EmptyString => false
  | String _ rest => includes rest needle
  end.

(** Lower-casing of one code unit: A-Z, and the Latin-1 capitals
    (0xC0-0xDE except the multiplication sign 0xD7). *)
Definition lower_char (c : ascii) : ascii :=
  let n := nat_of_ascii c in
  if ((65 <=? n) && (n <=? 90))%nat then ascii_of_nat (n + 32)
  else if ((192 <=? n) && (n <=? 222) && negb (n =? 215))%nat
       then ascii_of_nat (n + 32)
  else c.

(** [String.prototype.toLowerCase]. *)
Fixpoint toLowerCase (s : string) : string :=
  match s with
  | EmptyString => EmptyString
  | String c rest => String (lower_char c) (toLowerCase rest)
  end.

(** ** Map

    A [Map] keeps its entries in insertion order with unique keys; [set] on
    a key that is present replaces the value in place. *)

Section MapOps.
Context {V : Type}.

Definition Map : Type := list (string * V).

Fixpoint map_get (k : string) (m : Map) : option V :=
  match m with
  | [] => None
  | (k', v) :: rest => if (k' =? k)%string then Some v else map_get k rest
  end.

Definition map_has (k : string) (m : Map) : bool :=
  match map_get k m with Some _ => true | None => false end.

Fixpoint map_set (k : string) (v : V) (m : Map) : Map :=
  match m with
  | [] => [(k, v)]
  | (k', v') :: rest =>
      if (k' =? k)%string then (k, v) :: rest else (k', v') :: map_set k v rest
  end.

Fixpoint map_delete (k : string) (m : Map) : Map :=
  match m with
  | [] => []
  | (k', v') :: rest =>
      if (k' =? k)%string then rest else (k', v') :: map_delete k rest
  end.

Definition map_size (m : Map) : Z := Z.of_nat (List.length m).

(** [m.keys().next().value]: the oldest-inserted key, [undefined] when the
    map is empty. *)
Definition map_first_key (m : Map) : option string :=
  match m with
  | [] => None
  | (k, _) :: _ => Some k
  end.

(** [Array.from(m.entries())]. *)
Definition map_entries (m : Map) : list (string * V) := m.

(** [new Map(entries)]: the entries are [set] from left to right. *)
Definition map_from_entries (entries : list (string * V)) : Map :=
  fold_left (fun m kv => map_set (fst kv) (snd kv) m) entries [].

End MapOps.

Arguments Map V : clear implicits.

(** ** Array.prototype.sort

    The sort is stable; [cmp a b <= 0] keeps [a] before [b]. *)

Section Sort.
Context {A : Type} (cmp : A -> A -> Z).

Fixpoint sort_insert (x : A) (l : list A) : list A :=
  match l with
  | [] => [x]
  | y :: rest => if cmp x y <=? 0 then x :: l else y :: sort_insert x rest
  end.

Fixpoint sort (l : list A) : list A :=
  match l with
  | [] => []
  | x :: rest => sort_insert x (sort rest)
  end.

End Sort.

(** [arr.slice(n)]. *)
Definition slice_from {A : Type} (n : Z) (l : list A) : list A :=
  skipn (Z.to_nat n) l.

Definition array_length {A : Type} (l : list A) : Z := Z.of_nat (List.length l).

(** ** Numbers

    A finite Number is the rational it stands for.  [double x] is the
    Number nearest to [x]: 53 significant bits, a tie going to the even
    significand.  The exponent is left unbounded: the quotients and
    products taken below are of counters, far from both ends of the
    range. *)

(** [floor (log2 (n / d))]. *)
Definition log2_floor (n d : positive) : Z :=
  let l := Z.log2 (Zpos n) - Z.log2 (Zpos d) in
  if Zpos n * 2 ^ Z.max 0 (- l) <? Zpos d * 2 ^ Z.max 0 l then l - 1 else l.

(** The integer nearest to [a / b], a tie going to the even one. *)
Definition nearest_even (a b : Z) : Z :=
  let q := a / b in
  match 2 * (a mod b) ?= b with
  | Lt => q
  | Gt => q + 1
  | Eq => if Z.even q then q else q + 1
  end.

(** The Number nearest to [n / d]: the significand [m] is the quotient
    scaled into [2^52 .. 2^53] and rounded, the result [m * 2^e]. *)
Definition nearest (n d : positive) : Q :=
  let e := log2_floor n d - 52 in
  let m := nearest_even (Zpos n * 2 ^ Z.max 0 (- e)) (Zpos d * 2 ^ Z.max 0 e) in
  (m * 2 ^ Z.max 0 e) # Z.to_pos (2 ^ Z.max 0 (- e)).

Definition double (x : Q) : Q :=
  match Qnum x with
  | Z0 => 0%Q
  | Zpos n => nearest n (Qden x)
  | Zneg n => Qopp (nearest n (Qden x))
  end.

(** [x / y], for a divisor that is not zero, and [x * y] on Numbers. *)
Definition divide (x y : Q) : Q := double (x / y).
Definition times (x y : Q) : Q := double (x * y).

End JS.

(* ================================================================= *)
(** * An IndexedDB object store *)
(* ================================================================= *)

Module IDB.

Section ObjectStore.
Context {R : Type} (keyPath : R -> string).

(** The records of the store in ascending order of their primary key, the
    order in which [getAll] and a cursor yield them. *)
Definition objectStore : Type := list R.

Fixpoint get (k : string) (s : objectStore) : option R :=
  match s with
  | [] => None
  | r :: rest => if (keyPath r =? k)%string then Some r else get k rest
  end.

(** Insertion at the place of the key; a record with the same key is
    replaced. *)
Fixpoint insert (r : R) (s : objectStore) : objectStore :=
  match s with
  | [] => [r]
  | r' :: rest =>
      match String.compare (keyPath r) (keyPath r') with
      | Lt => r :: s
      | Eq => r :: rest
      | Gt => r' :: insert r rest
      end
  end.

(** [store.add]: fails (ConstraintError) when the key is taken. *)
Definition add (r : R) (s : objectStore) : option objectStore :=
  match get (keyPath r) s with
  | Some _ => None
  | None => Some (insert r s)
  end.

(** [store.put]: upsert. *)
Definition put (r : R) (s : objectStore) : objectStore := insert r s.

(** [store.delete]: no effect when the key is absent. *)
Fixpoint delete (k : string) (s : objectStore) : objectStore :=
  match s with
  | [] => []
  | r :: rest => if (keyPath r =? k)%string then rest else r :: delete k rest
  end.

Definition getAll (s : objectStore) : list R := s.

(** [index.getAll(v)]: the records whose indexed property equals [v], in
    primary-key order. *)
Definition index_getAll (matches : R -> bool) (s : objectStore) : list R :=
  filter matches s.

Definition clear (s : objectStore) : objectStore := [].

End ObjectStore.

Arguments objectStore R : clear implicits.

End IDB.

(* ================================================================= *)
(** * lib/storage/snapshots.ts *)
(* ================================================================= *)

Module SnapshotManager.

Inductive Status : Type := working | broken | testing.

Definition Status_eqb (a b : Status) : bool :=
  match a, b with
  | working, working | broken, broken | testing, testing => true
  | _, _ => false
  end.

(** [interface Snapshot], over the type of its [id]: [Snapshot] carries a
    string, [Omit<Snapshot, 'id'>] carries none.  [timestamp] is a valid
    [Date], as milliseconds since the epoch.  [files] is a [Map] in a
    snapshot and the array of its entries in a stored or exported record. *)
Record SnapshotOf (I : Type) : Type := mkSnapshot {
  id : I;
  timestamp : Z;
  label : string;
  status : Status;
  code : string;
  files : list (string * string);
  compressedSize : Z;
  originalSize : Z;
  isMilestone : option bool;
  autoSave : option bool;
  description : option string;
  error : option string;
  dependencies : option (list (string * string))
}.

Abbreviation Snapshot := (SnapshotOf string).
Abbreviation Draft := (SnapshotOf unit).

(** [{ ...s, id: i }]. *)
Definition with_id {I J : Type} (i : J) (s : SnapshotOf I) : SnapshotOf J :=
  mkSnapshot i (timestamp s) (label s) (status s) (code s) (files s)
    (compressedSize s) (originalSize s) (isMilestone s) (autoSave s)
    (description s) (error s) (dependencies s).

(** [{ ...s, files: f }]. *)
Definition with_files {I : Type} (f : list (string * string))
    (s : SnapshotOf I) : SnapshotOf I :=
  mkSnapshot (id s) (timestamp s) (label s) (status s) (code s) f
    (compressedSize s) (originalSize s) (isMilestone s) (autoSave s)
    (description s) (error s) (dependencies s).

Definition maxSnapshots : Z := 50.
Definition maxAutoSaves : Z := 10.

(** The object store [snapshots] of [ClaudeEditorDB], keyPath [id]. *)
Definition Store : Type := IDB.objectStore Snapshot.

Definition newest_first (a b : Snapshot) : Z := timestamp b - timestamp a.

(** Reading a stored record back: [files: new Map(s.files)]. *)
Definition revive (s : Snapshot) : Snapshot :=
  with_files (JS.map_from_entries (files s)) s.

Definition getSnapshot (db : Store) (snapshotId : string) : option Snapshot :=
  match IDB.get (@id string) snapshotId db with
  | Some result => Some (revive result)
  | None => None
  end.

Definition getAllSnapshots (db : Store) : list Snapshot :=
  JS.sort newest_first (map revive (IDB.getAll db)).

Definition getLastWorkingSnapshot (db : Store) : option Snapshot :=
  let workingSnapshots :=
    IDB.index_getAll (fun s => Status_eqb (status s) working) db in
  if JS.array_length workingSnapshots >? 0 then
    match JS.sort newest_first workingSnapshots with
    | latest :: _ => Some (revive latest)
    | [] => None
    end
  else None.

Definition getMilestones (db : Store) : list Snapshot :=
  JS.sort newest_first
    (map revive
       (filter (fun s => match isMilestone s with Some true => true | _ => false end)
          (IDB.getAll db))).

Definition deleteSnapshot (db : Store) (snapshotId : string) : Store :=
  IDB.delete (@id string) snapshotId db.

Definition cleanupAutoSaves (db : Store) : Store :=
  let allSnapshots := getAllSnapshots db in
  let autoSaves := filter (fun s => JS.truthy (autoSave s)) allSnapshots in
  if JS.array_length autoSaves >? maxAutoSaves then
    let toDelete := JS.slice_from maxAutoSaves autoSaves in
    fold_left (fun d snapshot => deleteSnapshot d (id snapshot)) toDelete db
  else db.

Definition cleanupOldSnapshots (db : Store) : Store :=
  let allSnapshots := getAllSnapshots db in
  let nonMilestones :=
    filter (fun s => negb (JS.truthy (isMilestone s))) allSnapshots in
  if JS.array_length nonMilestones >? maxSnapshots then
    let toDelete := JS.slice_from maxSnapshots nonMilestones in
    fold_left (fun d snapshot => deleteSnapshot d (id snapshot)) toDelete db
  else db.

(** [saveSnapshot]; [nano] is the value [nanoid(10)] returns.  The two
    clean-ups run, each in its own transaction, before the record is
    added; a failed [add] rejects and leaves the clean-ups in place. *)
Definition saveSnapshot (db : Store) (snapshot : Draft) (nano : string)
    : Store * JS.completion Snapshot :=
  let newSnapshot : Snapshot := with_id ("snap_" ++ nano)%string snapshot in
  let db1 :=
    if JS.truthy (autoSave newSnapshot) then cleanupAutoSaves db else db in
  let db2 := cleanupOldSnapshots db1 in
  let storableSnapshot :=
    with_files (JS.map_entries (files newSnapshot)) newSnapshot in
  match IDB.add (@id string) storableSnapshot db2 with
  | Some db3 => (db3, JS.Normal newSnapshot)
  | None => (db2, JS.Throw (JS.DOMException "ConstraintError"))
  end.

(** [restoreSnapshot]; [now] is [new Date()]. *)
Definition restoreSnapshot (db : Store) (snapshotId : string) (now : Z)
    (nano : string) : Store * JS.completion Snapshot :=
  match getSnapshot db snapshotId with
  | None => (db, JS.Throw (JS.ErrorObj "Snapshot not found"))
  | Some snapshot =>
      let backup : Draft :=
        mkSnapshot tt now
          ("Before restore to: " ++ label snapshot)%string
          testing
          (code snapshot)
          (files snapshot)
          (compressedSize snapshot)
          (originalSize snapshot)
          None None
          (Some "Automatic backup before restore")
          None None in
      match saveSnapshot db backup nano with
      | (db', JS.Normal _) => (db', JS.Normal snapshot)
      | (db', JS.Throw e) => (db', JS.Throw e)
      end
  end.

(** The export bundle.  [exportDate] is the clock reading whose ISO text
    the bundle carries. *)
Record ExportData : Type := mkExportData {
  version : string;
  exportDate : Z;
  snapshots : list Snapshot
}.

Definition exportSnapshots (db : Store) (now : Z) : ExportData :=
  mkExportData "1.0" now
    (map (fun s => with_files (JS.map_entries (files s)) s)
       (getAllSnapshots db)).

(** An element of the array [snapshots] that the loop of [importSnapshots]
    cannot take: [null], on which [snapshot.files] throws, or an object
    whose [files] is an object that is no array, which [new Map] does not
    iterate. *)
Inductive Unusable : Type :=
| NullEntry
| FilesNotIterable.

Definition unusable_message (u : Unusable) : string :=
  match u with
  | NullEntry => "Cannot read properties of null (reading 'files')"
  | FilesNotIterable =>
      "object is not iterable (cannot read property Symbol(Symbol.iterator))"
  end.

(** What [JSON.parse] makes of an import file, as far as [importSnapshots]
    looks at it.  The property [snapshots] is falsy, or no array, or an
    array of records of [interface Snapshot], as [exportSnapshots] writes
    them, or such records followed by an element that is [unusable], past
    which the loop does not get.  A file whose text is [null] parses to
    [null]. *)
Inductive SnapshotsField : Type :=
| Falsy
| NotAnArray
| AnArray (entries : list Snapshot)
| AnArrayUpTo (entries : list Snapshot) (unusable : Unusable).

Inductive ImportFile : Type :=
| Malformed
| Null
| Parsed (snapshots : SnapshotsField).

(** [JSON.parse(JSON.stringify(exportData, null, 2))].  Strings, numbers,
    booleans and arrays are read back as written; a [Date] is written as
    its ISO text and [new Date] reads it back to the same millisecond; a
    property that is [undefined] is left out and read back as [undefined]. *)
Definition parse_stringify (e : ExportData) : ImportFile :=
  Parsed (AnArray (snapshots e)).

(** The loop of [importSnapshots]: [nanoid k] is the [k]-th value drawn
    from [nanoid] during the import, [imported] the running count. *)
Fixpoint import_loop (db : Store) (entries : list Snapshot)
    (nanoid : nat -> string) (k : nat) (imported : Z)
    : Store * JS.completion Z :=
  match entries with
  | [] => (db, JS.Normal imported)
  | snapshot :: rest =>
      let snapshot := with_files (JS.map_from_entries (files snapshot)) snapshot in
      match saveSnapshot db (with_id tt snapshot) (nanoid k) with
      | (db', JS.Normal _) => import_loop db' rest nanoid (S k) (imported + 1)
      | (db', JS.Throw e) => (db', JS.Throw e)
      end
  end.

Definition importSnapshots (db : Store) (jsonData : ImportFile)
    (nanoid : nat -> string) : Store * JS.completion Z :=
  match jsonData with
  | Malformed => (db, JS.Throw (JS.SyntaxError "Unexpected token"))
  | Null =>
      (db, JS.Throw (JS.TypeError "Cannot read properties of null (reading 'snapshots')"))
  | Parsed Falsy | Parsed NotAnArray =>
      (db, JS.Throw (JS.ErrorObj "Invalid import data format"))
  | Parsed (AnArray entries) => import_loop db entries nanoid 0 0
  | Parsed (AnArrayUpTo entries unusable) =>
      match import_loop db entries nanoid 0 0 with
      | (db', JS.Normal _) => (db', JS.Throw (JS.TypeError (unusable_message unusable)))
      | (db', JS.Throw e) => (db', JS.Throw e)
      end
  end.

(** What [getStorageStats] resolves with; a date is its time value. *)
Record StorageStats : Type := mkStorageStats {
  totalSnapshots : Z;
  milestones : Z;
  autoSaves : Z;
  totalSize : Z;
  oldestSnapshot : option Z;
  newestSnapshot : option Z
}.

(** [timestamps.length > 0 ? new Date(pick(...times)) : null], where
    [pick] is [Math.min] or [Math.max]. *)
Definition extreme (pick : Z -> Z -> Z) (times : list Z) : option Z :=
  match times with
  | [] => None
  | t :: rest => Some (fold_left pick rest t)
  end.

Definition getStorageStats (db : Store) : StorageStats :=
  let snapshots := getAllSnapshots db in
  let milestones :=
    JS.array_length (filter (fun s => JS.truthy (isMilestone s)) snapshots) in
  let autoSaves :=
    JS.array_length (filter (fun s => JS.truthy (autoSave s)) snapshots) in
  let totalSize := fold_left (fun sum s => sum + originalSize s) snapshots 0 in
  let timestamps := map (@timestamp string) snapshots in
  mkStorageStats (JS.array_length snapshots) milestones autoSaves totalSize
    (extreme Z.min timestamps) (extreme Z.max timestamps).

End SnapshotManager.

(* ================================================================= *)
(** * JSON values *)
(* ================================================================= *)

Module JSON.

(** A value [JSON.parse] can yield.  Numbers are integers; an object lists
    its properties in enumeration order, each name once. *)
Inductive json : Type :=
| JNull
| JBool (b : bool)
| JNumber (n : Z)
| JString (s : string)
| JArray (items : list json)
| JObject (props : list (string * json)).

Definition join (sep : string) (parts : list string) : string :=
  String.concat sep parts.

Definition decimal (n : Z) : string := NilEmpty.string_of_int (Z.to_int n).

Definition hex_digit (n : nat) : ascii :=
  if (n <? 10)%nat then ascii_of_nat (48 + n) else ascii_of_nat (87 + n).

(** One code unit inside a JSON string literal. *)
Definition quote_char (c : ascii) : string :=
  let n := nat_of_ascii c in
  if (n =? 34)%nat then String JS.backslash (JS.str1 JS.dquote)
  else if (n =? 92)%nat then String JS.backslash (JS.str1 JS.backslash)
  else if (n =? 8)%nat then String JS.backslash "b"
  else if (n =? 12)%nat then String JS.backslash "f"
  else if (n =? 10)%nat then String JS.backslash "n"
  else if (n =? 13)%nat then String JS.backslash "r"
  else if (n =? 9)%nat then String JS.backslash "t"
  else if (n <? 32)%nat then
    String JS.backslash
      ("u00" ++ String (hex_digit (n / 16)) (JS.str1 (hex_digit (n mod 16))))%string
  else JS.str1 c.

Fixpoint quote_body (s : string) : string :=
  match s with
  | EmptyString => EmptyString
  | String c rest => (quote_char c ++ quote_body rest)%string
  end.

(** [QuoteJSONString]. *)
Definition quote (s : string) : string :=
  String JS.dquote (quote_body s ++ JS.str1 JS.dquote)%string.

(** [JSON.stringify(v)], without indentation. *)
Fixpoint stringify (v : json) : string :=
  match v with
  | JNull => "null"
  | JBool true => "true"
  | JBool false => "false"
  | JNumber n => decimal n
  | JString s => quote s
  | JArray items => ("[" ++ join "," (map stringify items) ++ "]")%string
  | JObject props =>
      ("{" ++
       join ","
         (map (fun kv : string * json =>
                 let (k, x) := kv in (quote k ++ ":" ++ stringify x)%string)
            props) ++
       "}")%string
  end.

(** [ToBoolean]. *)
Definition truthy (v : option json) : bool :=
  match v with
  | None | Some JNull => false
  | Some (JBool b) => b
  | Some (JNumber n) => negb (n =? 0)
  | Some (JString s) => negb (s =? "")%string
  | Some (JArray _) | Some (JObject _) => true
  end.

Fixpoint lookup (name : string) (props : list (string * json)) : option json :=
  match props with
  | [] => None
  | (k, x) :: rest => if (k =? name)%string then Some x else lookup name rest
  end.

(** [v.name] for a name that is no built-in property: [None] is
    [undefined]; reading a property of [null] throws. *)
Definition prop (v : json) (name : string) : JS.completion (option json) :=
  match v with
  | JNull =>
      JS.Throw (JS.TypeError ("Cannot read properties of null (reading '" ++ name ++ "')"))
  | JObject props => JS.Normal (lookup name props)
  | _ => JS.Normal None
  end.

(** [v?.name]. *)
Definition opt_prop (v : option json) (name : string) : option json :=
  match v with
  | Some (JObject props) => lookup name props
  | _ => None
  end.

(** [ToString], as a template literal applies it. *)
Fixpoint toString (v : json) : string :=
  match v with
  | JNull => "null"
  | JBool true => "true"
  | JBool false => "false"
  | JNumber n => decimal n
  | JString s => s
  | JArray items =>
      join ","
        (map (fun x => match x with JNull => EmptyString | _ => toString x end) items)
  | JObject _ => "[object Object]"
  end.

End JSON.

(* ================================================================= *)
(** * lib/claude/api.ts *)
(* ================================================================= *)

Module ClaudeAPI.

Import JSON.

Inductive Role : Type := user | assistant | system.

Definition role_name (r : Role) : string :=
  match r with user => "user" | assistant => "assistant" | system => "system" end.

Record ClaudeMessage : Type := mkMessage {
  role : Role;
  content : string
}.

(** [interface ClaudeResponse]; an absent optional property is [None].
    [tokens] holds whatever the reply carried under [usage]. *)
Record ClaudeResponse : Type := mkResponse {
  r_content : string;
  tokens : option json;
  cached : option bool;
  code : option string
}.

Record CacheEntry : Type := mkEntry {
  key : string;
  response : ClaudeResponse;
  timestamp : Z;
  hits : Z
}.

Record CacheStats : Type := mkStats {
  hitRate : Z;
  s_totalRequests : Z;
  s_cacheHits : Z;
  cacheMisses : Z;
  memoryCacheSize : Z;
  estimatedSavings : Q
}.

(** [CACHE_CONFIG]. *)
Definition maxMemoryCacheSize : Z := 100.
Definition topCacheEntries : Z := 20.
Definition savingsPerHit : Q := JS.double (2 # 1000).

(** [Record<string, unknown>]: the properties in enumeration order, each
    a JSON value.  [JSON.stringify] serialises every such context; a
    context that holds a value it throws on (a [BigInt], a cycle) is not
    among them. *)
Definition Context : Type := list (string * json).

(** The instance: [persistentCache] is [None] while the cache database is
    not open, and otherwise holds the object store [responses] (keyPath
    [key]). *)
Record State : Type := mkState {
  memoryCache : JS.Map CacheEntry;
  persistentCache : option (IDB.objectStore CacheEntry);
  totalRequests : Z;
  cacheHits : Z
}.

(** ** Cache initialisation *)

(** The order of the index [hits] walked backwards: most hits first, and
    among equal hits the greater key first. *)
Definition by_hits_prev (a b : CacheEntry) : Z :=
  if hits a =? hits b then
    match String.compare (key a) (key b) with Lt => 1 | Eq => 0 | Gt => -1 end
  else hits b - hits a.

Definition loadCacheToMemory (st : State) : State :=
  match persistentCache st with
  | None => st
  | Some store =>
      let top := firstn (Z.to_nat topCacheEntries) (JS.sort by_hits_prev store) in
      mkState
        (fold_left (fun m entry => JS.map_set (key entry) entry m) top (memoryCache st))
        (persistentCache st) (totalRequests st) (cacheHits st)
  end.

(** [new ClaudeAPI()], once [initPersistentCache] has settled: [db] is the
    object store the browser holds, or [None] when it cannot be opened. *)
Definition create (db : option (IDB.objectStore CacheEntry)) : State :=
  loadCacheToMemory (mkState [] db 0 0).

(** ** Cache keys *)

(** [ToInt32]. *)
Definition to_int32 (z : Z) : Z := (z + 2 ^ 31) mod 2 ^ 32 - 2 ^ 31.

(** [a << n] and [a & b] on numbers. *)
Definition shl (a n : Z) : Z := to_int32 (Z.shiftl (to_int32 a) n).
Definition band (a b : Z) : Z := to_int32 (Z.land (to_int32 a) (to_int32 b)).

Definition digit36 (d : Z) : ascii :=
  if d <? 10 then ascii_of_nat (48 + Z.to_nat d) else ascii_of_nat (87 + Z.to_nat d).

Fixpoint digits36 (fuel : nat) (n : Z) (acc : string) : string :=
  match fuel with
  | O => acc
  | S fuel' =>
      let acc' := String (digit36 (n mod 36)) acc in
      if n / 36 =? 0 then acc' else digits36 fuel' (n / 36) acc'
  end.

(** [n.toString(36)] for an integer [n]. *)
Definition toString36 (n : Z) : string :=
  let magnitude := Z.abs n in
  let text := digits36 (S (Z.to_nat (Z.log2 magnitude))) magnitude EmptyString in
  if n <? 0 then String "-" text else text.

Definition charCodes (s : string) : list Z :=
  map (fun c => Z.of_nat (nat_of_ascii c)) (list_ascii_of_string s).

Definition hash_step (hash char : Z) : Z :=
  let hash := (shl hash 5 - hash) + char in
  band hash hash.

Definition message_json (m : ClaudeMessage) : json :=
  JObject [("role", JString (role_name (role m))); ("content", JString (content m))].

(** [{ messages, context }]: a property whose value is [undefined] is not
    written. *)
Definition key_material (messages : list ClaudeMessage) (context : option Context)
    : json :=
  JObject
    (("messages", JArray (map message_json messages)) ::
     match context with
     | Some c => [("context", JObject c)]
     | None => []
     end).

Definition generateCacheKey (messages : list ClaudeMessage)
    (context : option Context) : string :=
  let content := stringify (key_material messages context) in
  let hash := fold_left hash_step (charCodes content) 0 in
  ("claude_" ++ toString36 hash)%string.

(** ** Cache look-up *)

Definition getPersistentCacheEntry (st : State) (k : string) : option CacheEntry :=
  match persistentCache st with
  | None => None
  | Some store => IDB.get key k store
  end.

Definition updatePersistentCacheHits (store : IDB.objectStore CacheEntry)
    (k : string) (h : Z) : IDB.objectStore CacheEntry :=
  match IDB.get key k store with
  | Some entry => IDB.put key (mkEntry (key entry) (response entry) (timestamp entry) h) store
  | None => store
  end.

(** The intent patterns of [findSimilarCacheEntry].  [matches_then a b s]
    is [/a.*b/i.test(s)]: [a], then on the same line [b], in any case;
    [matches_word a s] is [/a/i.test(s)]. *)
Definition is_line_terminator (c : ascii) : bool :=
  let n := nat_of_ascii c in ((n =? 10) || (n =? 13))%nat.

(** Case-insensitive prefix: the pattern is in lower case. *)
Fixpoint prefix_ci (pattern s : string) : bool :=
  match pattern, s with
  | EmptyString, _ => true
  | String _ _, EmptyString => false
  | String p pattern', String c s' =>
      let n := nat_of_ascii c in
      let c' := if ((65 <=? n) && (n <=? 90))%nat then ascii_of_nat (n + 32) else c in
      Ascii.eqb p c' && prefix_ci pattern' s'
  end.

Fixpoint drop (n : nat) (s : string) : string :=
  match n, s with
  | O, _ => s
  | S n', String _ s' => drop n' s'
  | S _, EmptyString => EmptyString
  end.

Fixpoint matches_word (word s : string) : bool :=
  prefix_ci word s ||
  match s with
  | EmptyString => false
  | String _ rest => matches_word word rest
  end.

(** [b] occurs in [s] before the first line terminator. *)
Fixpoint on_line (b s : string) : bool :=
  prefix_ci b s ||
  match s with
  | EmptyString => false
  | String c rest => negb (is_line_terminator c) && on_line b rest
  end.

Fixpoint matches_then (a b s : string) : bool :=
  (prefix_ci a s && on_line b (drop (String.length a) s)) ||
  match s with
  | EmptyString => false
  | String _ rest => matches_then a b rest
  end.

Definition patterns : list ((string -> bool) * string) :=
  [ (matches_then "fix" "error", "error-fix");
    (matches_then "explain" "code", "code-explanation");
    (matches_then "add" "feature", "feature-addition");
    (matches_word "refactor", "refactoring");
    (matches_word "optimize", "optimization");
    (matches_word "test", "testing") ].

(** The category of the first pattern that matches. *)
Fixpoint classify_in (ps : list ((string -> bool) * string)) (query : string)
    : option string :=
  match ps with
  | [] => None
  | (test, cat) :: rest => if test query then Some cat else classify_in rest query
  end.

Definition classify (query : string) : option string := classify_in patterns query.

Fixpoint first_including (category : string) (entries : list (string * CacheEntry))
    : option CacheEntry :=
  match entries with
  | [] => None
  | (k, entry) :: rest =>
      if JS.includes k category then Some entry else first_including category rest
  end.

Definition findSimilarCacheEntry (st : State) (query : string) : option CacheEntry :=
  match classify query with
  | None => None
  | Some category => first_including category (JS.map_entries (memoryCache st))
  end.

(** [{ ...r, cached: true }]. *)
Definition as_cached (r : ClaudeResponse) : ClaudeResponse :=
  mkResponse (r_content r) (tokens r) (Some true) (code r).

(** [entry.hits++]. *)
Definition hit (entry : CacheEntry) : CacheEntry :=
  mkEntry (key entry) (response entry) (timestamp entry) (hits entry + 1).

(** The three tiers of [checkCache], each from the state in which it
    runs.  The memory tier counts the hit on the entry it holds. *)
Definition memory_tier (st : State) (cacheKey : string) (entry : CacheEntry)
    : State * option ClaudeResponse :=
  let entry := hit entry in
  (mkState (JS.map_set cacheKey entry (memoryCache st)) (persistentCache st)
     (totalRequests st) (cacheHits st + 1),
   Some (as_cached (response entry))).

(** The persistent tier counts the hit, promotes the entry into the memory
    tier and writes the new count back. *)
Definition persistent_tier (st : State) (cacheKey : string) (entry : CacheEntry)
    : State * option ClaudeResponse :=
  let entry := hit entry in
  (mkState (JS.map_set cacheKey entry (memoryCache st))
     (option_map (fun store => updatePersistentCacheHits store cacheKey (hits entry))
        (persistentCache st))
     (totalRequests st) (cacheHits st + 1),
   Some (as_cached (response entry))).

Definition semantic_tier (st : State) (query : string)
    : State * option ClaudeResponse :=
  match findSimilarCacheEntry st query with
  | Some similarEntry =>
      (mkState (memoryCache st) (persistentCache st) (totalRequests st)
         (cacheHits st + 1),
       Some (as_cached (response similarEntry)))
  | None => (st, None)
  end.

(** [this.totalRequests++]. *)
Definition count_request (st : State) : State :=
  mkState (memoryCache st) (persistentCache st) (totalRequests st + 1) (cacheHits st).

Definition checkCache (st : State) (query : string) (context : option Context)
    : State * option ClaudeResponse :=
  let messages := [mkMessage user query] in
  let cacheKey := generateCacheKey messages context in
  let st := count_request st in
  match JS.map_get cacheKey (memoryCache st) with
  | Some entry => memory_tier st cacheKey entry
  | None =>
      match getPersistentCacheEntry st cacheKey with
      | Some entry => persistent_tier st cacheKey entry
      | None => semantic_tier st query
      end
  end.

(** [cacheResponse]; [now] is [new Date()]. *)
Definition cacheResponse (st : State) (k : string) (r : ClaudeResponse) (now : Z)
    : State :=
  let entry := mkEntry k r now 0 in
  let memory := JS.map_set k entry (memoryCache st) in
  let memory :=
    if JS.map_size memory >? maxMemoryCacheSize then
      match JS.map_first_key memory with
      | Some firstKey => JS.map_delete firstKey memory
      | None => memory
      end
    else memory in
  mkState memory
    (option_map (fun store => IDB.put key entry store) (persistentCache st))
    (totalRequests st) (cacheHits st).

(** ** API communication *)

Definition lines (ls : list string) : string := join (JS.str1 JS.newline) ls.

Definition blank_line : string := String JS.newline (JS.str1 JS.newline).

Definition buildSystemMessage (context : option Context) : string :=
  match context with
  | None => EmptyString
  | Some c =>
      let rules := lookup "rules" c in
      let code := lookup "code" c in
      let projectType := lookup "projectType" c in
      let parts :=
        (match rules with
         | Some v => if truthy rules then [("Important rules: " ++ toString v)%string] else []
         | None => []
         end) ++
        (match code with
         | Some (JString text) =>
             if truthy code then
               [("Current code context (compressed): " ++
                 String.substring 0 1000 text ++ "...")%string]
             else []
         | _ => []
         end) ++
        (match projectType with
         | Some v => if truthy projectType then [("Project type: " ++ toString v)%string] else []
         | None => []
         end) in
      join blank_line parts
  end.

Definition fence : string := "```".

(** The text before the first fence of [s], when there is one. *)
Fixpoint until_fence (s : string) : option string :=
  if String.prefix fence s then Some EmptyString
  else match s with
       | EmptyString => None
       | String c rest => option_map (String c) (until_fence rest)
       end.

Fixpoint first_some {A B : Type} (f : A -> option B) (l : list A) : option B :=
  match l with
  | [] => None
  | x :: rest => match f x with Some y => Some y | None => first_some f rest end
  end.

(** A match of the code-block pattern that starts at the head of [s]: the
    fence, then one of the language names or none, a line feed, and the
    shortest text up to the next fence. *)
Definition code_block_at (s : string) : option string :=
  if String.prefix fence s then
    let rest := drop 3 s in
    first_some
      (fun lang =>
         let opening := (lang ++ JS.str1 JS.newline)%string in
         if String.prefix opening rest
         then until_fence (drop (String.length opening) rest)
         else None)
      ["typescript"; "javascript"; "tsx"; "jsx"; EmptyString]
  else None.

(** The capture group of the first match of
    [/```(?:typescript|javascript|tsx|jsx)?\n([\s\S]*?)```/] in [s]. *)
Fixpoint code_block (s : string) : option string :=
  match code_block_at s with
  | Some c => Some c
  | None =>
      match s with
      | EmptyString => None
      | String _ rest => code_block rest
      end
  end.

Definition getFallbackResponse (query : string) : ClaudeResponse :=
  let lowerQuery := JS.toLowerCase query in
  if JS.includes lowerQuery "module not found" || JS.includes lowerQuery "cannot find module"
  then
    mkResponse
      (lines
         [ ("To fix " ++ JS.str1 JS.dquote ++ "Module not found" ++ JS.str1 JS.dquote
            ++ " error:")%string;
           EmptyString;
           "1. Check if the package is installed:";
           "```bash";
           "npm list [package-name]";
           "```";
           EmptyString;
           "2. If not installed, run:";
           "```bash";
           "npm install [package-name]";
           "```";
           EmptyString;
           "3. Clear cache and rebuild:";
           "```bash";
           "rm -rf .next node_modules";
           "npm install";
           "npm run dev";
           "```" ])
      None (Some true) None
  else
    mkResponse
      "I apologize, but I encountered an issue processing your request. Please try again or rephrase your question."
      None (Some false) None.

(** What [fetch] and [response.json()] come to: the request fails, or a
    response arrives whose body is JSON ([Some]) or not ([None]). *)
Inductive FetchResult : Type :=
| NetworkError
| Response (ok : bool) (status : Z) (body : option json).

(** The network, as a function of the request body posted to [/api/claude]. *)
Definition Network : Type := string -> FetchResult.

Definition request_body (allMessages : list ClaudeMessage) : string :=
  ("{" ++ quote "messages" ++ ":" ++ stringify (JArray (map message_json allMessages))
   ++ "," ++ quote "max_tokens" ++ ":4000"
   ++ "," ++ quote "temperature" ++ ":0.7}")%string.

(** [allMessages]: the system message, when there is one, goes first. *)
Definition with_system_message (context : option Context)
    (messages : list ClaudeMessage) : list ClaudeMessage :=
  let systemMessage := buildSystemMessage context in
  if negb (systemMessage =? "")%string
  then mkMessage system systemMessage :: messages
  else messages.

(** The [try] block of [sendMessage] after a cache miss: [Throw] is caught
    by the caller below. *)
Definition request (st : State) (cacheKey : string) (messages : list ClaudeMessage)
    (context : option Context) (fetch : Network) (now : Z)
    : State * JS.completion ClaudeResponse :=
  let allMessages := with_system_message context messages in
  match fetch (request_body allMessages) with
  | NetworkError => (st, JS.Throw (JS.TypeError "Failed to fetch"))
  | Response ok status body =>
      if negb ok then
        (st, JS.Throw (JS.ErrorObj ("API request failed: " ++ decimal status)))
      else
        match body with
        | None => (st, JS.Throw (JS.SyntaxError "Unexpected token"))
        | Some data =>
            match prop data "error" with
            | JS.Throw e => (st, JS.Throw e)
            | JS.Normal err =>
                if truthy err then
                  (st, JS.Throw (JS.ErrorObj (match err with Some v => toString v | None => EmptyString end)))
                else
                  let dataContent := opt_prop (Some data) "content" in
                  let usage := opt_prop (Some data) "usage" in
                  let completion_tokens := opt_prop usage "completion_tokens" in
                  let tokens :=
                    if truthy completion_tokens then completion_tokens
                    else opt_prop usage "total_tokens" in
                  match dataContent with
                  | None | Some JNull =>
                      let result := mkResponse EmptyString tokens (Some false) None in
                      (cacheResponse st cacheKey result now, JS.Normal result)
                  | Some (JString text) =>
                      let result := mkResponse text tokens (Some false) (code_block text) in
                      (cacheResponse st cacheKey result now, JS.Normal result)
                  | Some _ =>
                      (st, JS.Throw (JS.TypeError "data.content?.match is not a function"))
                  end
            end
        end
  end.

Definition last_message (messages : list ClaudeMessage) : option ClaudeMessage :=
  List.last (map Some messages) None.

Definition sendMessage (st : State) (messages : list ClaudeMessage)
    (context : option Context) (fetch : Network) (now : Z)
    : State * JS.completion ClaudeResponse :=
  let cacheKey := generateCacheKey messages context in
  match last_message messages with
  | None =>
      (st, JS.Throw (JS.TypeError "Cannot read properties of undefined (reading 'content')"))
  | Some lastMessage =>
      let (st, cached) := checkCache st (content lastMessage) context in
      match cached with
      | Some r => (st, JS.Normal r)
      | None =>
          match request st cacheKey messages context fetch now with
          | (st', JS.Normal result) => (st', JS.Normal result)
          | (st', JS.Throw _) =>
              (st', JS.Normal (getFallbackResponse (content lastMessage)))
          end
      end
  end.

(** ** Statistics *)

(** [Math.round]: the integer nearest to the Number, a half rounding
    up. *)
Definition Math_round (x : Q) : Z := Qfloor (x + (1 # 2)).

(** The quotient and the two products are taken on Numbers, each rounded
    in its turn. *)
Definition getCacheStats (st : State) : CacheStats :=
  let hitRate :=
    if totalRequests st >? 0
    then Math_round
           (JS.times (JS.divide (inject_Z (cacheHits st)) (inject_Z (totalRequests st)))
              100)
    else 0 in
  mkStats hitRate (totalRequests st) (cacheHits st)
    (totalRequests st - cacheHits st)
    (JS.map_size (memoryCache st))
    (JS.times (inject_Z (cacheHits st)) savingsPerHit).

Definition clearCache (st : State) : State :=
  mkState [] (option_map (fun store => IDB.clear store) (persistentCache st)) 0 0.

End ClaudeAPI.

(* ================================================================= *)
(** * public/service-worker.js *)
(* ================================================================= *)

Module ServiceWorker.

Definition MAX_QUEUE_SIZE : Z := 10.

(** The request descriptor [handleApiRequest] captures. *)
Record RequestData : Type := mkRequestData {
  url : string;
  method : string;
  headers : list (string * string);
  body : JSON.json;
  timestamp : string
}.

Record QueueItem : Type := mkItem {
  id : string;
  data : RequestData
}.

(** The object store [offline_queue] of [ClaudeEditorOffline], keyPath [id]. *)
Definition Store : Type := IDB.objectStore QueueItem.

(** The values the two queue functions compute with.  [openDB] resolves
    with [request.result], the native [IDBDatabase]; a call on its object
    store hands back an [IDBRequest], whose [result] is filled in when its
    success event fires.  The request has no [then], no [length] and no
    iterator. *)
Inductive value : Type :=
| Undefined
| NaN
| Number (n : Z)
| Array (items : list QueueItem)
| IDBRequest (result : list QueueItem)
| PromiseOf (settled : value).

(** [await v]: a promise is waited for, any other value is the result. *)
Definition await (v : value) : value :=
  match v with
  | PromiseOf settled => settled
  | _ => v
  end.

(** [store.getAll()]. *)
Definition getAll (store : Store) : value := IDBRequest (IDB.getAll store).

(** [v.length]. *)
Definition length_of (v : value) : value :=
  match v with
  | Array items => Number (JS.array_length items)
  | _ => Undefined
  end.

(** [a >= b]: [undefined] converts to [NaN], which compares false. *)
Definition ge (a b : value) : bool :=
  match a, b with
  | Number x, Number y => x >=? y
  | _, _ => false
  end.

(** [a === b]. *)
Definition strict_eq (a b : value) : bool :=
  match a, b with
  | Number x, Number y => x =? y
  | Undefined, Undefined => true
  | _, _ => false
  end.

(** [a + 1] and [Math.min(a, b)]. *)
Definition plus_one (a : value) : value :=
  match a with Number x => Number (x + 1) | _ => NaN end.

Definition Math_min (a b : value) : value :=
  match a, b with
  | Number x, Number y => Number (Z.min x y)
  | _, _ => NaN
  end.

(** Messages posted to the clients. *)
Inductive ClientMessage : Type :=
| OFFLINE_QUEUE_UPDATED (queueSize : value)
| OFFLINE_QUEUE_PROCESSED (request : RequestData).

(** [addToOfflineQueue], from the value [queue] is bound to; [now] is
    [Date.now()].  Reading [queue[0].id] off a value that is no array
    throws into the [catch], which only logs.  A failed [add] aborts the
    transaction and with it the [delete]. *)
Definition addToOfflineQueue_from (queue : value) (store : Store)
    (requestData : RequestData) (now : Z) : Store * list ClientMessage :=
  let deleted : option Store :=
    if ge (length_of queue) (Number MAX_QUEUE_SIZE) then
      match queue with
      | Array (oldest :: _) => Some (IDB.delete id (id oldest) store)
      | _ => None
      end
    else Some store in
  match deleted with
  | None => (store, [])
  | Some store1 =>
      let store2 :=
        match IDB.add id (mkItem (JSON.decimal now) requestData) store1 with
        | Some added => added
        | None => store
        end in
      (store2,
       [OFFLINE_QUEUE_UPDATED (Math_min (plus_one (length_of queue)) (Number MAX_QUEUE_SIZE))])
  end.

Definition addToOfflineQueue (store : Store) (requestData : RequestData) (now : Z)
    : Store * list ClientMessage :=
  let queue := await (getAll store) in
  addToOfflineQueue_from queue store requestData now.

(** The outcome of replaying one item: [fetch] rejects, or a response
    arrives. *)
Inductive Replay : Type :=
| Rejected
| Responded (ok : bool).

(** What one run of [processOfflineQueue] did: the items it tried to
    replay, in order, and the messages it posted. *)
Record Run : Type := mkRun {
  store_after : Store;
  attempted : list QueueItem;
  posted : list ClientMessage
}.

(** The [for ... of] loop over an array of items. *)
Fixpoint replay_loop (items : list QueueItem) (fetch : QueueItem -> Replay)
    (store : Store) : Run :=
  match items with
  | [] => mkRun store [] []
  | item :: rest =>
      match fetch item with
      | Responded true =>
          let r := replay_loop rest fetch (IDB.delete id (id item) store) in
          mkRun (store_after r) (item :: attempted r)
            (OFFLINE_QUEUE_PROCESSED (data item) :: posted r)
      | Responded false | Rejected =>
          let r := replay_loop rest fetch store in
          mkRun (store_after r) (item :: attempted r) (posted r)
      end
  end.

(** [processOfflineQueue], from the value [queue] is bound to.  Iterating
    a value that is no array throws a TypeError before the first pass; the
    outer [catch] logs it. *)
Definition processOfflineQueue_from (queue : value) (store : Store)
    (fetch : QueueItem -> Replay) : Run :=
  if strict_eq (length_of queue) (Number 0) then mkRun store [] []
  else
    match queue with
    | Array items => replay_loop items fetch store
    | _ => mkRun store [] []
    end.

Definition processOfflineQueue (store : Store) (fetch : QueueItem -> Replay) : Run :=
  let queue := await (getAll store) in
  processOfflineQueue_from queue store fetch.

(** ** The fetch handler *)

(** The request an API call arrives with; [json_body] is what
    [request.clone().json()] resolves with, [None] when the body is no
    JSON text. *)
Record ApiRequest : Type := mkApiRequest {
  request_url : string;
  request_method : string;
  request_headers : list (string * string);
  json_body : option JSON.json
}.

(** A response: its status and the text of its body. *)
Record HttpResponse : Type := mkHttpResponse {
  status : Z;
  text : string
}.

(** [response.ok]. *)
Definition ok (response : HttpResponse) : bool :=
  (200 <=? status response) && (status response <=? 299).

(** What [fetch(request.clone())] comes to. *)
Inductive Fetched : Type :=
| Failed
| Fulfilled (response : HttpResponse).

(** The reply [handleApiRequest] makes up when the network call fails;
    [repliedAt] is the ISO text of the clock. *)
Definition offline_reply (repliedAt : string) : HttpResponse :=
  mkHttpResponse 200
    (JSON.stringify
       (JSON.JObject
          [ ("content",
             JSON.JString
               "I'm currently offline, but your message has been saved. I'll respond as soon as you're back online!");
            ("mode", JSON.JString "offline");
            ("queued", JSON.JBool true);
            ("timestamp", JSON.JString repliedAt) ])).

(** What a call of [handleApiRequest] did: the store it leaves, what the
    promise settles with, the messages posted to the clients and the queued
    items it tried to send again. *)
Record Handled : Type := mkHandled {
  queue_after : Store;
  settled : JS.completion HttpResponse;
  told : list ClientMessage;
  resent : list QueueItem
}.

(** [handleApiRequest]; [queuedAt] and [repliedAt] are the two readings of
    [new Date().toISOString()], [now] is [Date.now()].  The call of
    [processOfflineQueue] after a response that is ok is not awaited; its
    effects are those of the run. *)
Definition handleApiRequest (store : Store) (request : ApiRequest) (fetched : Fetched)
    (replay : QueueItem -> Replay) (queuedAt repliedAt : string) (now : Z) : Handled :=
  match fetched with
  | Fulfilled response =>
      if ok response then
        let run := processOfflineQueue store replay in
        mkHandled (store_after run) (JS.Normal response) (posted run) (attempted run)
      else mkHandled store (JS.Normal response) [] []
  | Failed =>
      match json_body request with
      | None => mkHandled store (JS.Throw (JS.SyntaxError "Unexpected token")) [] []
      | Some body =>
          let requestData :=
            mkRequestData (request_url request) (request_method request)
              (request_headers request) body queuedAt in
          let (store', messages) := addToOfflineQueue store requestData now in
          mkHandled store' (JS.Normal (offline_reply repliedAt)) messages []
      end
  end.

(** ** The events the worker listens to, as far as they reach the queue *)

Inductive Event : Type :=
| FetchEvent (request : ApiRequest) (fetched : Fetched) (replay : QueueItem -> Replay)
    (queuedAt repliedAt : string) (now : Z)
| SyncEvent (tag : string) (replay : QueueItem -> Replay)
| MessageEvent (type : string).

(** The listeners.  A request whose URL does not hold [/api/claude] is
    answered from the caches or the network; [SKIP_WAITING] and
    [CHECK_QUEUE] write nothing to the store. *)
Definition dispatch (store : Store) (event : Event) : Store * list QueueItem :=
  match event with
  | FetchEvent request fetched replay queuedAt repliedAt now =>
      if JS.includes (request_url request) "/api/claude" then
        let h := handleApiRequest store request fetched replay queuedAt repliedAt now in
        (queue_after h, resent h)
      else (store, [])
  | SyncEvent tag replay =>
      if (tag =? "sync-offline-queue")%string then
        let run := processOfflineQueue store replay in
        (store_after run, attempted run)
      else (store, [])
  | MessageEvent _ => (store, [])
  end.

End ServiceWorker.

(* ================================================================= *)
(** * app/hooks/useOfflineDetection.ts, app/components/OfflineIndicator.tsx *)
(* ================================================================= *)

Module OfflineDetection.

Import ServiceWorker.

(** [interface OfflineStatus]; [queueSize] holds whatever the worker
    posted. *)
Record OfflineStatus : Type := mkStatus {
  isOnline : bool;
  isServiceWorkerReady : bool;
  queueSize : value;
  queue : list QueueItem
}.

(** [ToString], as a template literal applies it. *)
Definition show (v : value) : string :=
  match v with
  | Number n => JSON.decimal n
  | NaN => "NaN"
  | Undefined => "undefined"
  | Array items => JSON.join "," (map (fun _ => "[object Object]") items)
  | IDBRequest _ => "[object IDBRequest]"
  | PromiseOf _ => "[object Promise]"
  end.

(** [Math.max(0, v - 1)]: an empty array converts to 0, and what is no
    number to [NaN]. *)
Definition one_less (v : value) : value :=
  match v with
  | Number n => Number (Z.max 0 (n - 1))
  | Array [] => Number 0
  | _ => NaN
  end.

(** [handleMessage] on the two messages of the queue functions: the new
    status and the text of the toast. *)
Definition handleMessage (status : OfflineStatus) (message : ClientMessage)
    : OfflineStatus * string :=
  match message with
  | OFFLINE_QUEUE_UPDATED size =>
      (mkStatus (isOnline status) (isServiceWorkerReady status) size (queue status),
       ("Message queued (" ++ show size ++ "/" ++ JSON.decimal 10 ++ ")")%string)
  | OFFLINE_QUEUE_PROCESSED _ =>
      (mkStatus (isOnline status) (isServiceWorkerReady status)
         (one_less (queueSize status)) (queue status),
       "Queued message sent!")
  end.

(** [v > 0] and [v === 0]. *)
Definition positive (v : value) : bool :=
  match v with
  | Number n => n >? 0
  | _ => false
  end.

Definition is_zero (v : value) : bool :=
  match v with Number n => n =? 0 | _ => false end.

(** [OfflineIndicator]: whether it renders at all, and whether it renders
    the number of queued messages. *)
Definition indicator_shown (status : OfflineStatus) : bool :=
  negb (isOnline status && is_zero (queueSize status)).

Definition count_shown (status : OfflineStatus) : bool :=
  indicator_shown status && positive (queueSize status).

End OfflineDetection.

(* ================================================================= *)
(** * app/lib/stores/editorStore.ts *)
(* ================================================================= *)

Module EditorStore.

Definition MAX_SNAPSHOTS : Z := 50.

Section Store.

(** The store reads three properties of a snapshot. *)
Context {S : Type} (id : S -> string) (code : S -> string)
  (snapshot_files : S -> JS.Map string).

(** The data of [interface EditorState] that the file and snapshot
    actions read or write. *)
Record State : Type := mkStore {
  currentFile : string;
  files : JS.Map string;
  snapshots : list S;
  currentSnapshotId : option string;
  totalTokensUsed : Z;
  monthlyTokensUsed : Z
}.

Definition updateFile (state : State) (file content : string) : State :=
  let newFiles := JS.map_set file content (files state) in
  mkStore (currentFile state) newFiles (snapshots state) (currentSnapshotId state)
    (totalTokensUsed state) (monthlyTokensUsed state).

Definition deleteFile (state : State) (file : string) : State :=
  let newFiles := JS.map_delete file (files state) in
  mkStore (currentFile state) newFiles (snapshots state) (currentSnapshotId state)
    (totalTokensUsed state) (monthlyTokensUsed state).

(** [renameFile]: [!content] holds for a file that is missing and for one
    whose content is the empty string. *)
Definition renameFile (state : State) (oldPath newPath : string) : State :=
  match JS.map_get oldPath (files state) with
  | None => state
  | Some content =>
      if (content =? "")%string then state
      else
        let newFiles := JS.map_set newPath content (JS.map_delete oldPath (files state)) in
        mkStore
          (if (currentFile state =? oldPath)%string then newPath else currentFile state)
          newFiles (snapshots state) (currentSnapshotId state)
          (totalTokensUsed state) (monthlyTokensUsed state)
  end.

(** [[snapshot, ...state.snapshots].slice(0, MAX_SNAPSHOTS)]. *)
Definition addSnapshot (state : State) (snapshot : S) : State :=
  mkStore (currentFile state) (files state)
    (firstn (Z.to_nat MAX_SNAPSHOTS) (snapshot :: snapshots state))
    (currentSnapshotId state) (totalTokensUsed state) (monthlyTokensUsed state).

Definition removeSnapshot (state : State) (snapshotId : string) : State :=
  mkStore (currentFile state) (files state)
    (filter (fun s => negb (id s =? snapshotId)%string) (snapshots state))
    (match currentSnapshotId state with
     | Some current => if (current =? snapshotId)%string then None else Some current
     | None => None
     end)
    (totalTokensUsed state) (monthlyTokensUsed state).

Definition setCurrentSnapshot (state : State) (snapshotId : string) : State :=
  mkStore (currentFile state) (files state) (snapshots state) (Some snapshotId)
    (totalTokensUsed state) (monthlyTokensUsed state).

(** [loadSnapshot]: the first snapshot with the identifier; the new
    [files] is a copy of its [Map]. *)
Definition loadSnapshot (state : State) (snapshotId : string) : State * option string :=
  match find (fun s => (id s =? snapshotId)%string) (snapshots state) with
  | Some snapshot =>
      (mkStore (currentFile state) (snapshot_files snapshot) (snapshots state)
         (Some snapshotId) (totalTokensUsed state) (monthlyTokensUsed state),
       Some (code snapshot))
  | None => (state, None)
  end.

Definition addToTokenUsage (state : State) (tokens : Z) : State :=
  mkStore (currentFile state) (files state) (snapshots state) (currentSnapshotId state)
    (totalTokensUsed state + tokens) (monthlyTokensUsed state + tokens).

Definition resetMonthlyTokens (state : State) : State :=
  mkStore (currentFile state) (files state) (snapshots state) (currentSnapshotId state)
    (totalTokensUsed state) 0.

End Store.

Arguments State S : clear implicits.

End EditorStore.

(* ================================================================= *)
(** * components/editor/CodeEditor.tsx, components/editor/SnapshotPanel.tsx *)
(* ================================================================= *)

Module CodeEditor.

Import SnapshotManager.

Inductive SavedStatus : Type := saved | unsaved | saving.

(** What a callback of the component closes over and what it sets:
    [currentFile] comes from the editor store. *)
Record Editor : Type := mkEditor {
  editor_code : string;
  compressedCode : string;
  savedStatus : SavedStatus;
  panicMode : bool
}.

Definition Zustand : Type := EditorStore.State Snapshot.

Definition string_length (s : string) : Z := Z.of_nat (String.length s).

(** The draft [handleQuickSave] and [handleMilestoneSave] hand to
    [saveSnapshot]; [now] is [new Date()]. *)
Definition draft (editor : Editor) (currentFile label : string)
    (milestone : option bool) (now : Z) : Draft :=
  mkSnapshot tt now label working (editor_code editor)
    (JS.map_from_entries [(currentFile, editor_code editor)])
    (string_length (compressedCode editor)) (string_length (editor_code editor))
    milestone None None None None.

Definition setSavedStatus (editor : Editor) (status : SavedStatus) : Editor :=
  mkEditor (editor_code editor) (compressedCode editor) status (panicMode editor).

Definition setCode (editor : Editor) (text : string) : Editor :=
  mkEditor text (compressedCode editor) (savedStatus editor) (panicMode editor).

Definition handleQuickSave (editor : Editor) (zustand : Zustand) (db : Store)
    (now : Z) (nano : string) : Editor * Zustand * Store :=
  let editor := setSavedStatus editor saving in
  match saveSnapshot db
          (draft editor (EditorStore.currentFile zustand) "Auto-save" None now) nano with
  | (db', JS.Normal snapshot) =>
      (setSavedStatus editor saved, EditorStore.addSnapshot zustand snapshot, db')
  | (db', JS.Throw _) => (setSavedStatus editor unsaved, zustand, db')
  end.

(** [handleMilestoneSave]; [label] is what [prompt] returned, [None] when
    the dialog was dismissed. *)
Definition handleMilestoneSave (editor : Editor) (zustand : Zustand) (db : Store)
    (label : option string) (now : Z) (nano : string) : Editor * Zustand * Store :=
  match label with
  | None => (editor, zustand, db)
  | Some text =>
      if (text =? "")%string then (editor, zustand, db)
      else
        match saveSnapshot db
                (draft editor (EditorStore.currentFile zustand) text (Some true) now) nano with
        | (db', JS.Normal snapshot) => (editor, EditorStore.addSnapshot zustand snapshot, db')
        | (db', JS.Throw _) => (editor, zustand, db')
        end
  end.

(** [handlePanicRestore], up to the timer that ends the panic mode. *)
Definition handlePanicRestore (editor : Editor) (db : Store) : Editor :=
  let editor :=
    mkEditor (editor_code editor) (compressedCode editor) (savedStatus editor) true in
  match getLastWorkingSnapshot db with
  | Some lastWorking => setCode editor (code lastWorking)
  | None => editor
  end.

End CodeEditor.

Module SnapshotPanel.

Import SnapshotManager.

(** [handleRestore]: the store is told which snapshot is current when the
    restore resolves. *)
Definition handleRestore (zustand : CodeEditor.Zustand) (db : Store)
    (snapshotId : string) (now : Z) (nano : string) : CodeEditor.Zustand * Store :=
  match restoreSnapshot db snapshotId now nano with
  | (db', JS.Normal _) => (EditorStore.setCurrentSnapshot zustand snapshotId, db')
  | (db', JS.Throw _) => (zustand, db')
  end.

(** [handleDelete], once the dialog is confirmed. *)
Definition handleDelete (db : Store) (snapshotId : string) : Store :=
  deleteSnapshot db snapshotId.

End SnapshotPanel.

(* ================================================================= *)
(** * components/chat/ChatPanel.tsx *)
(* ================================================================= *)

Module ChatPanel.

Record Message : Type := mkChatMessage {
  m_id : string;
  m_role : ClaudeAPI.Role;
  m_content : string;
  m_timestamp : Z;
  m_tokens : option JSON.json;
  m_cached : option bool
}.

(** One render of the panel: the state and the props that the
    [sendMessage] of that render closes over.  [cacheHits] is the counter
    of the editor store. *)
Record Panel : Type := mkPanel {
  messages : list Message;
  input : string;
  isLoading : bool;
  autoMode : bool;
  safeMode : bool;
  cacheHits : Z;
  compressedCode : string
}.

(** The calls [sendMessage] makes on the editor store and on its props. *)
Inductive Effect : Type :=
| UpdateCacheHits (hits : Z)
| AddToTokenUsage (tokens : JSON.json)
| OnCodeUpdate (code : string).

(** The four readings of the clock: for the identifier and the timestamp
    of the user's message, and for those of the answer. *)
Record Clock : Type := mkClock {
  sent_id : Z;
  sent_at : Z;
  answered_id : Z;
  answered_at : Z
}.

(** White space among the code units below 256. *)
Definition white_space (c : ascii) : bool :=
  let n := nat_of_ascii c in
  ((9 <=? n) && (n <=? 13) || (n =? 32) || (n =? 160))%nat.

(** [!input.trim()]. *)
Fixpoint blank (s : string) : bool :=
  match s with
  | EmptyString => true
  | String c rest => white_space c && blank rest
  end.

Definition rules : string :=
  JSON.join ", "
    [ "Use Next.js 14, NOT 15";
      "Use React 18, NOT 19";
      "Use Tailwind CSS v3, NOT v4";
      "No experimental features";
      "Prefer stable packages only" ].

Definition context_of (panel : Panel) : ClaudeAPI.Context :=
  if autoMode panel
  then [("code", JSON.JString (compressedCode panel)); ("rules", JSON.JString rules)]
  else [].

(** [subject.replace(re, replacement)] for a global expression: [match_at]
    tells how many characters the expression matches at the head of a
    text, if it matches there. *)
Fixpoint replace_global (match_at : string -> option nat) (replacement subject : string)
    (skip : nat) : string :=
  match subject with
  | EmptyString => EmptyString
  | String c rest =>
      match skip with
      | S k => replace_global match_at replacement rest k
      | O =>
          match match_at subject with
          | Some (S n) => (replacement ++ replace_global match_at replacement rest n)%string
          | _ => String c (replace_global match_at replacement rest 0)
          end
      end
  end.

(** A literal, in any case; [text] is in lower case. *)
Definition literally (text : string) (s : string) : option nat :=
  if ClaudeAPI.prefix_ci text s then Some (String.length text) else None.

(** The number of characters up to and with the first closing brace. *)
Fixpoint to_closing_brace (s : string) : option nat :=
  match s with
  | EmptyString => None
  | String c rest =>
      if Ascii.eqb c "}" then Some 1%nat else option_map S (to_closing_brace rest)
  end.

(** [/experimental:\{[^}]*\}/gi]. *)
Definition experimental_block (s : string) : option nat :=
  if ClaudeAPI.prefix_ci "experimental:{" s then
    option_map (Nat.add 14) (to_closing_brace (ClaudeAPI.drop 14 s))
  else None.

Definition applySafeModeFilter (content : string) : string :=
  fold_left
    (fun filtered (r : (string -> option nat) * string) =>
       replace_global (fst r) (snd r) filtered 0)
    [ (literally "next.js 15", "Next.js 14");
      (literally "react 19", "React 18");
      (literally "--turbopack", EmptyString);
      (experimental_block, EmptyString);
      (literally "tailwindcss@4", "tailwindcss@3") ]
    content.

(** [messages.map(m => ({ role: m.role, content: m.content }))]. *)
Definition conversation (ms : list Message) : list ClaudeAPI.ClaudeMessage :=
  map (fun m => ClaudeAPI.mkMessage (m_role m) (m_content m)) ms.

(** What a call of [sendMessage] leaves: the next render, the instance of
    the API and the calls made. *)
Record Sent : Type := mkSent {
  panel_after : Panel;
  api_after : ClaudeAPI.State;
  effects : list Effect
}.

(** The panel once the messages [more] are appended, the input is cleared
    and the loading flag is down. *)
Definition settled (panel : Panel) (more : list Message) : Panel :=
  mkPanel (messages panel ++ more) EmptyString false (autoMode panel) (safeMode panel)
    (cacheHits panel) (compressedCode panel).

(** [sendMessage].  [messages] is the array of the render in which the
    function was made: the state update that appends the user's message
    does not reach it.  [mark] is the cross mark that opens the error
    text, a character above the code units modelled. *)
Definition sendMessage (panel : Panel) (api : ClaudeAPI.State)
    (fetch : ClaudeAPI.Network) (clock : Clock) (now : Z) (mark : string) : Sent :=
  if blank (input panel) || isLoading panel then mkSent panel api []
  else
    let userMessage :=
      mkChatMessage (JSON.decimal (sent_id clock)) ClaudeAPI.user (input panel)
        (sent_at clock) None None in
    let context := context_of panel in
    let answer (content : string) (tokens : option JSON.json) (cached : option bool) :=
      mkChatMessage (JSON.decimal (answered_id clock)) ClaudeAPI.assistant content
        (answered_at clock) tokens cached in
    match ClaudeAPI.checkCache api (input panel) (Some context) with
    | (api1, Some cachedResponse) =>
        mkSent
          (settled panel
             [userMessage; answer (ClaudeAPI.r_content cachedResponse) None (Some true)])
          api1
          (UpdateCacheHits (cacheHits panel + 1) ::
           match ClaudeAPI.code cachedResponse with
           | Some text => if (text =? "")%string then [] else [OnCodeUpdate text]
           | None => []
           end)
    | (api1, None) =>
        match ClaudeAPI.sendMessage api1 (conversation (messages panel)) (Some context)
                fetch now with
        | (api2, JS.Normal response) =>
            let finalResponse :=
              if safeMode panel
              then applySafeModeFilter (ClaudeAPI.r_content response)
              else ClaudeAPI.r_content response in
            mkSent
              (settled panel
                 [userMessage; answer finalResponse (ClaudeAPI.tokens response) None])
              api2
              ((match ClaudeAPI.tokens response with
                | Some tokens => if JSON.truthy (Some tokens) then [AddToTokenUsage tokens] else []
                | None => []
                end) ++
               (match ClaudeAPI.code_block finalResponse with
                | Some text => [OnCodeUpdate text]
                | None => []
                end))
        | (api2, JS.Throw _) =>
            mkSent
              (settled panel
                 [userMessage;
                  answer (mark ++ " Sorry, I encountered an error. Please try again.")%string
                    None None])
              api2 []
        end
    end.

End ChatPanel.

(* ================================================================= *)
(** * app/lib/performance/optimizations.ts *)
(* ================================================================= *)

Module MemoryCacheManager.

Section Manager.
Context {D : Type}.

Record Item : Type := mkItem {
  data : D;
  timestamp : Z
}.

Record Manager : Type := mkManager {
  cache : JS.Map Item;
  maxSize : Z;
  ttl : Z
}.

(** [new MemoryCacheManager(maxSize, ttl)]; the defaults are 50 entries
    and five minutes. *)
Definition create (maxSize ttl : Z) : Manager := mkManager [] maxSize ttl.

Definition default : Manager := create 50 (5 * 60 * 1000).

(** [set]; [now] is [Date.now()].  Deleting the first key of an empty
    [Map] deletes nothing. *)
Definition set (m : Manager) (key : string) (d : D) (now : Z) : Manager :=
  let cache1 :=
    if JS.map_size (cache m) >=? maxSize m then
      match JS.map_first_key (cache m) with
      | Some firstKey => JS.map_delete firstKey (cache m)
      | None => cache m
      end
    else cache m in
  mkManager (JS.map_set key (mkItem d now) cache1) (maxSize m) (ttl m).

(** [get]: [None] is [null]. *)
Definition get (m : Manager) (key : string) (now : Z) : Manager * option D :=
  match JS.map_get key (cache m) with
  | None => (m, None)
  | Some item =>
      if now - timestamp item >? ttl m then
        (mkManager (JS.map_delete key (cache m)) (maxSize m) (ttl m), None)
      else (m, Some (data item))
  end.

Definition clear (m : Manager) : Manager := mkManager [] (maxSize m) (ttl m).

Definition size (m : Manager) : Z := JS.map_size (cache m).

End Manager.

Arguments Item D : clear implicits.
Arguments Manager D : clear implicits.

End MemoryCacheManager.

(* ================================================================= *)
(** * app/lib/claude/compression.ts: PatternCompressor *)
(* ================================================================= *)

Module PatternCompressor.

(** The pattern table, in the order of the [Map]. *)
Definition patterns : list (string * string) :=
  [ ("import React from 'react'", "iR");
    ("import { useState } from 'react'", "iUS");
    ("import { useEffect } from 'react'", "iUE");
    ("export default function", "edf");
    ("export default", "ed");
    ("className=", "cn=");
    ("onClick=", "oc=");
    ("onChange=", "och=");
    ("useState(", "us(");
    ("useEffect(", "ue(");
    ("function", "fn");
    ("return", "ret");
    ("const", "c");
    ("let", "l");
    ("var", "v") ].

(** [new RegExp(source, 'g')] for a source of pattern characters and
    parentheses, which is all the table holds on either side: the text the
    expression matches.  A group that is not closed, and a closing
    parenthesis without a group, are SyntaxErrors. *)
Fixpoint RegExp_in (source : string) (depth : nat) : JS.completion string :=
  match source with
  | EmptyString =>
      match depth with
      | O => JS.Normal EmptyString
      | S _ => JS.Throw (JS.SyntaxError "Unterminated group")
      end
  | String c rest =>
      if Ascii.eqb c "(" then RegExp_in rest (S depth)
      else if Ascii.eqb c ")" then
        match depth with
        | O => JS.Throw (JS.SyntaxError "Unmatched ')'")
        | S d => RegExp_in rest d
        end
      else
        match RegExp_in rest depth with
        | JS.Normal matched => JS.Normal (String c matched)
        | JS.Throw e => JS.Throw e
        end
  end.

Definition RegExp (source : string) : JS.completion string := RegExp_in source 0.

(** [subject.replace(re, replacement)] for a global expression that
    matches the text [matched], and a replacement without [$]: every
    occurrence, from the left, none overlapping another.  [skip] counts
    the characters of a match that are still to be passed over. *)
Fixpoint replace_from (matched replacement subject : string) (skip : nat) : string :=
  match subject with
  | EmptyString =>
      match matched with
      | EmptyString => replacement
      | String _ _ => EmptyString
      end
  | String c rest =>
      match skip with
      | S k => replace_from matched replacement rest k
      | O =>
          match matched with
          | EmptyString =>
              (replacement ++ String c (replace_from matched replacement rest 0))%string
          | String _ tail =>
              if String.prefix matched subject then
                (replacement ++ replace_from matched replacement rest (String.length tail))%string
              else String c (replace_from matched replacement rest 0)
          end
      end
  end.

Definition replace (matched replacement subject : string) : string :=
  replace_from matched replacement subject 0.

(** The [forEach] over a table: each expression is built when its turn
    comes. *)
Fixpoint replace_each (table : list (string * string)) (text : string)
    : JS.completion string :=
  match table with
  | [] => JS.Normal text
  | (source, replacement) :: rest =>
      match RegExp source with
      | JS.Normal matched => replace_each rest (replace matched replacement text)
      | JS.Throw e => JS.Throw e
      end
  end.

Definition compress (code : string) : JS.completion string :=
  replace_each patterns code.

Definition reversePatterns : list (string * string) :=
  JS.map_from_entries (map (fun kv : string * string => (snd kv, fst kv)) patterns).

Definition decompress (code : string) : JS.completion string :=
  replace_each reversePatterns code.

End PatternCompressor.

Unset Implicit Arguments.

(* ================================================================= *)
(** * Facts about the JavaScript fragment *)
(* ================================================================= *)

Module JSFacts.

Section SortFacts.
Context {A : Type} (cmp : A -> A -> Z).

Lemma sort_insert_In (x y : A) (l : list A) :
  In y (JS.sort_insert cmp x l) <-> y = x \/ In y l.
Proof.
  induction l as [|z l IH]; simpl.
  - intuition.
  - destruct (cmp x z <=? 0); simpl; [intuition | rewrite IH; intuition].
Qed.

Lemma sort_In (y : A) (l : list A) : In y (JS.sort cmp l) <-> In y l.
Proof.
  induction l as [|x l IH]; simpl; [tauto|].
  rewrite sort_insert_In, IH. intuition.
Qed.

Lemma sort_insert_Permutation (x : A) (l : list A) :
  Permutation (JS.sort_insert cmp x l) (x :: l).
Proof.
  induction l as [|z l IH]; simpl; [reflexivity|].
  destruct (cmp x z <=? 0); [reflexivity|].
  rewrite IH. apply perm_swap.
Qed.

Lemma sort_Permutation (l : list A) : Permutation (JS.sort cmp l) l.
Proof.
  induction l as [|x l IH]; simpl; [constructor|].
  rewrite sort_insert_Permutation. now constructor.
Qed.

Lemma sort_length (l : list A) : List.length (JS.sort cmp l) = List.length l.
Proof. apply Permutation_length, sort_Permutation. Qed.

End SortFacts.

(** Sorting by a numeric property, greatest first, as the comparator
    [(a, b) => key(b) - key(a)] does. *)
Section Descending.
Context {A : Type} (key : A -> Z).

Let desc (a b : A) : Z := key b - key a.

Definition descending : list A -> Prop :=
  StronglySorted (fun a b => key b <= key a).

Lemma sort_insert_descending (x : A) (l : list A) :
  descending l -> descending (JS.sort_insert desc x l).
Proof.
  unfold descending, desc.
  induction l as [|z l IH]; simpl; intros Hs.
  - repeat constructor.
  - inversion Hs as [|? ? Hl Hz]; subst.
    destruct (key z - key x <=? 0) eqn:E.
    + apply Z.leb_le in E. constructor; [assumption|].
      constructor; [lia|].
      rewrite Forall_forall in *. intros y Hy. specialize (Hz y Hy). lia.
    + apply Z.leb_gt in E. constructor; [now apply IH|].
      rewrite Forall_forall in *. intros y Hy.
      apply sort_insert_In in Hy. destruct Hy as [->|Hy]; [lia|now apply Hz].
Qed.

Lemma sort_descending (l : list A) : descending (JS.sort desc l).
Proof.
  induction l as [|x l IH]; simpl; [constructor|].
  now apply sort_insert_descending.
Qed.

(** The first element of the sorted array carries the greatest key. *)
Lemma sort_head_greatest (l : list A) (h : A) (t : list A) :
  JS.sort desc l = h :: t ->
  In h l /\ forall x, In x l -> key x <= key h.
Proof.
  intros E. split.
  - apply (sort_In desc). rewrite E. now left.
  - intros x Hx. apply (sort_In desc) in Hx. rewrite E in Hx.
    pose proof (sort_descending l) as Hs. rewrite E in Hs.
    inversion Hs as [|? ? _ Hall]; subst.
    destruct Hx as [->|Hx]; [lia|].
    rewrite Forall_forall in Hall. now apply Hall.
Qed.

End Descending.

(** ** Maps *)

Section MapFacts.
Context {V : Type}.

Lemma map_set_length (k : string) (v : V) (m : JS.Map V) :
  (List.length (JS.map_set k v m) <= S (List.length m))%nat.
Proof.
  induction m as [|[k' v'] m IH]; simpl; [lia|].
  destruct (k' =? k)%string; simpl; lia.
Qed.

(** Setting a key that is not present appends the entry. *)
Lemma map_set_fresh (k : string) (v : V) (m : JS.Map V) :
  ~ In k (map fst m) -> JS.map_set k v m = m ++ [(k, v)].
Proof.
  induction m as [|[k' v'] m IH]; simpl; intros H; [reflexivity|].
  destruct (k' =? k)%string eqn:E.
  - apply String.eqb_eq in E. tauto.
  - rewrite IH; [reflexivity | tauto].
Qed.

Lemma map_delete_first (m : JS.Map V) (k : string) :
  JS.map_first_key m = Some k -> JS.map_delete k m = tl m.
Proof.
  destruct m as [|[k' v'] m]; simpl; [discriminate|].
  intros [= ->]. now rewrite String.eqb_refl.
Qed.

Lemma map_set_In (k : string) (v : V) (m : JS.Map V) (k' : string) (v' : V) :
  In (k', v') (JS.map_set k v m) -> (k', v') = (k, v) \/ In (k', v') m.
Proof.
  induction m as [|[k0 v0] m IH]; simpl.
  - intros [H|[]]. now left.
  - destruct (k0 =? k)%string; simpl.
    + intros [H|H]; [now left | right; now right].
    + intros [H|H]; [right; now left|]. destruct (IH H); [now left | right; now right].
Qed.

Lemma map_delete_In (k : string) (m : JS.Map V) (k' : string) (v' : V) :
  In (k', v') (JS.map_delete k m) -> In (k', v') m.
Proof.
  induction m as [|[k0 v0] m IH]; simpl; [tauto|].
  destruct (k0 =? k)%string; simpl; [tauto|].
  intros [H|H]; [now left | right; now apply IH].
Qed.

Lemma map_get_In (k : string) (m : JS.Map V) (v : V) :
  JS.map_get k m = Some v -> In (k, v) m.
Proof.
  induction m as [|[k0 v0] m IH]; simpl; [discriminate|].
  destruct (k0 =? k)%string eqn:E.
  - apply String.eqb_eq in E. intros [= ->]. left. now rewrite E.
  - intros H. right. now apply IH.
Qed.

(** [new Map(Array.from(m.entries()))] has the entries of [m]. *)
Lemma map_from_entries_unique (entries : list (string * V)) :
  NoDup (map fst entries) -> JS.map_from_entries entries = entries.
Proof.
  unfold JS.map_from_entries.
  assert (forall (l m : list (string * V)),
            NoDup (map fst m ++ map fst l) ->
            fold_left (fun m kv => JS.map_set (fst kv) (snd kv) m) l m = m ++ l) as H.
  { induction l as [|[k v] l IH]; intros m Hnd; simpl.
    - now rewrite app_nil_r.
    - rewrite map_set_fresh.
      + rewrite IH; [now rewrite <- app_assoc|].
        rewrite map_app. simpl. rewrite <- app_assoc. exact Hnd.
      + intros Hin. apply NoDup_remove_2 in Hnd. apply Hnd. apply in_or_app. now left. }
  intros Hnd. apply (H entries []). exact Hnd.
Qed.

End MapFacts.

(** ** Strings *)

Lemma prefix_length (a s : string) :
  String.prefix a s = true -> (String.length a <= String.length s)%nat.
Proof.
  revert a. induction s as [|c s IH]; intros [|c' a]; simpl; try lia; try discriminate.
  destruct (ascii_dec c' c); [|discriminate]. intros H. apply IH in H. lia.
Qed.

Lemma includes_length (s a : string) :
  JS.includes s a = true -> (String.length a <= String.length s)%nat.
Proof.
  induction s as [|c s IH]; cbn [JS.includes].
  - destruct a; simpl; [lia | discriminate].
  - intros H. apply orb_true_iff in H. destruct H as [H|H].
    + now apply prefix_length.
    + apply IH in H. simpl. lia.
Qed.

(** A boolean test for distinct strings. *)
Fixpoint distinct (l : list string) : bool :=
  match l with
  | [] => true
  | x :: rest => negb (existsb (String.eqb x) rest) && distinct rest
  end.

Lemma distinct_NoDup (l : list string) : distinct l = true -> NoDup l.
Proof.
  induction l as [|x l IH]; simpl; intros H; [constructor|].
  apply andb_true_iff in H. destruct H as [Hx Hl].
  constructor; [|now apply IH].
  intros Hin. apply negb_true_iff in Hx.
  assert (existsb (String.eqb x) l = true) as Hex
    by (apply existsb_exists; exists x; split; [exact Hin | apply String.eqb_refl]).
  congruence.
Qed.

(** ** Numbers *)

(** Rounding to the nearest Number does not step over an integer below
    [2^53], and keeps the sign. *)

Lemma nearest_even_le (a b K : Z) : 0 < b -> a <= K * b -> JS.nearest_even a b <= K.
Proof.
  intros Hb Ha. unfold JS.nearest_even.
  pose proof (Z.div_mod a b ltac:(lia)) as Hdm.
  pose proof (Z.mod_pos_bound a b Hb) as Hr.
  assert (a / b <= K) as Hq by nia.
  destruct (Z.eq_dec (a / b) K) as [E|E].
  - assert (a mod b = 0) as Hz by nia.
    rewrite Hz. change (2 * 0) with 0.
    destruct (Z.compare_spec 0 b); lia.
  - destruct (2 * (a mod b) ?= b); [destruct (Z.even (a / b))| |]; lia.
Qed.

Lemma nearest_even_nonneg (a b : Z) : 0 <= a -> 0 < b -> 0 <= JS.nearest_even a b.
Proof.
  intros Ha Hb. unfold JS.nearest_even.
  pose proof (Z.div_pos a b Ha Hb) as Hq.
  destruct (2 * (a mod b) ?= b); [destruct (Z.even (a / b))| |]; lia.
Qed.

Lemma log2_floor_le (n d : positive) (C : Z) :
  0 < C < 2 ^ 53 -> Zpos n <= C * Zpos d -> JS.log2_floor n d <= 52.
Proof.
  intros HC Hle. unfold JS.log2_floor.
  set (l := Z.log2 (Zpos n) - Z.log2 (Zpos d)).
  pose proof (Z.log2_spec (Zpos n) ltac:(lia)) as [Hn _].
  pose proof (Z.log2_spec (Zpos d) ltac:(lia)) as [_ Hd].
  pose proof (Z.log2_nonneg (Zpos d)) as Hd0.
  assert (Zpos n < 2 ^ 53 * Zpos d) as Hlt by nia.
  destruct (Z_le_gt_dec l 52) as [Hl|Hl]; [destruct (_ <? _); lia|].
  destruct (Z.eq_dec l 53) as [E53|E53].
  - rewrite E53. change (Z.max 0 (- 53)) with 0. change (Z.max 0 53) with 53.
    change (2 ^ 0) with 1. rewrite Z.mul_1_r.
    apply Z.ltb_lt in Hlt. rewrite Z.mul_comm in Hlt. rewrite Hlt. lia.
  - exfalso.
    assert (2 ^ Z.log2 (Zpos n) = 2 ^ (l - 54) * (2 ^ 53 * 2 ^ Z.succ (Z.log2 (Zpos d)))) as E.
    { rewrite <- !Z.pow_add_r by lia. f_equal. unfold l. lia. }
    assert (1 <= 2 ^ (l - 54)) as Hp by (apply (Z.pow_le_mono_r 2 0); lia).
    assert (2 ^ 53 * Zpos d < 2 ^ 53 * 2 ^ Z.succ (Z.log2 (Zpos d))) as Hbig by lia.
    nia.
Qed.

Lemma nearest_nonneg (n d : positive) : (0 <= JS.nearest n d)%Q.
Proof.
  unfold JS.nearest, Qle. cbn [Qnum Qden]. rewrite Z.mul_0_l, Z.mul_1_r.
  apply Z.mul_nonneg_nonneg.
  - apply nearest_even_nonneg.
    + apply Z.mul_nonneg_nonneg; [lia | apply Z.pow_nonneg; lia].
    + apply Z.mul_pos_pos; [lia | apply Z.pow_pos_nonneg; lia].
  - apply Z.pow_nonneg; lia.
Qed.

Lemma nearest_le (n d : positive) (C : Z) :
  0 < C < 2 ^ 53 -> Zpos n <= C * Zpos d -> (JS.nearest n d <= inject_Z C)%Q.
Proof.
  intros HC Hle. pose proof (log2_floor_le n d C HC Hle) as He.
  unfold JS.nearest, Qle. cbn [Qnum Qden inject_Z].
  set (e := JS.log2_floor n d - 52) in *.
  replace (Z.max 0 e) with 0 by lia. replace (Z.max 0 (- e)) with (- e) by lia.
  assert (0 < 2 ^ (- e)) as Hp by (apply Z.pow_pos_nonneg; lia).
  rewrite Z2Pos.id by exact Hp.
  change (2 ^ 0) with 1. rewrite !Z.mul_1_r.
  apply nearest_even_le; [lia | nia].
Qed.

Lemma double_nonneg (x : Q) : (0 <= x)%Q -> (0 <= JS.double x)%Q.
Proof.
  intros Hx. unfold JS.double. destruct x as [[|n|n] d]; cbn [Qnum Qden].
  - apply Qle_refl.
  - apply nearest_nonneg.
  - unfold Qle in Hx. simpl in Hx. lia.
Qed.

Lemma double_le (x : Q) (C : Z) :
  0 < C < 2 ^ 53 -> (x <= inject_Z C)%Q -> (JS.double x <= inject_Z C)%Q.
Proof.
  intros HC Hx. unfold JS.double. destruct x as [[|n|n] d]; cbn [Qnum Qden].
  - unfold Qle. simpl. lia.
  - apply nearest_le; [exact HC|]. unfold Qle in Hx. simpl in Hx. lia.
  - apply Qle_trans with 0%Q.
    + pose proof (nearest_nonneg n d) as H. unfold Qle in *. simpl in *. lia.
    + unfold Qle. simpl. lia.
Qed.

End JSFacts.

(* ================================================================= *)
(** * Facts about the object store *)
(* ================================================================= *)

Module IDBFacts.

Section StoreFacts.
Context {R : Type} (keyPath : R -> string).

(** Distinct primary keys. *)
Definition unique_keys (s : IDB.objectStore R) : Prop := NoDup (map keyPath s).

Lemma get_None_key (k : string) (s : IDB.objectStore R) (x : R) :
  IDB.get keyPath k s = None -> In x s -> keyPath x <> k.
Proof.
  induction s as [|r s IH]; simpl; [tauto|].
  destruct (keyPath r =? k)%string eqn:E; [discriminate|].
  intros Hnone [->|Hin]; [now apply String.eqb_neq | now apply IH].
Qed.

Lemma get_Some_In (k : string) (s : IDB.objectStore R) (x : R) :
  IDB.get keyPath k s = Some x -> In x s /\ keyPath x = k.
Proof.
  induction s as [|r s IH]; simpl; [discriminate|].
  destruct (keyPath r =? k)%string eqn:E.
  - intros [= <-]. split; [now left | now apply String.eqb_eq].
  - intros H. destruct (IH H). split; [now right | assumption].
Qed.

Lemma insert_keeps (r x : R) (s : IDB.objectStore R) :
  In x s -> keyPath x <> keyPath r -> In x (IDB.insert keyPath r s).
Proof.
  induction s as [|r' s IH]; simpl; [tauto|].
  intros Hin Hne.
  destruct (String.compare (keyPath r) (keyPath r')) eqn:E.
  - apply String.compare_eq_iff in E.
    destruct Hin as [->|Hin]; [congruence | now right].
  - now right.
  - destruct Hin as [->|Hin]; [now left | right; now apply IH].
Qed.

Lemma insert_In (r : R) (s : IDB.objectStore R) : In r (IDB.insert keyPath r s).
Proof.
  induction s as [|r' s IH]; simpl; [now left|].
  destruct (String.compare (keyPath r) (keyPath r')); [now left | now left | now right].
Qed.

Lemma get_insert (r : R) (s : IDB.objectStore R) :
  IDB.get keyPath (keyPath r) (IDB.insert keyPath r s) = Some r.
Proof.
  induction s as [|r' s IH]; simpl.
  - now rewrite String.eqb_refl.
  - destruct (String.compare (keyPath r) (keyPath r')) eqn:E; simpl.
    + now rewrite String.eqb_refl.
    + now rewrite String.eqb_refl.
    + destruct (keyPath r' =? keyPath r)%string eqn:E'; [|exact IH].
      apply String.eqb_eq in E'. rewrite E' in E.
      pose proof (String.compare_antisym (keyPath r) (keyPath r)) as Hanti.
      rewrite E in Hanti. discriminate Hanti.
Qed.

(** Inserting under a key that is not taken adds the record and moves
    nothing else. *)
Lemma insert_fresh_Permutation (r : R) (s : IDB.objectStore R) :
  IDB.get keyPath (keyPath r) s = None ->
  Permutation (IDB.insert keyPath r s) (r :: s).
Proof.
  induction s as [|r' s IH]; simpl; [reflexivity|].
  destruct (keyPath r' =? keyPath r)%string eqn:E; [discriminate|]. intros Hnone.
  destruct (String.compare (keyPath r) (keyPath r')) eqn:C.
  - apply String.compare_eq_iff in C. rewrite C, String.eqb_refl in E. discriminate.
  - reflexivity.
  - rewrite (IH Hnone). apply perm_swap.
Qed.

Lemma add_Permutation (r : R) (s s' : IDB.objectStore R) :
  IDB.add keyPath r s = Some s' -> Permutation s' (r :: s).
Proof.
  unfold IDB.add. destruct (IDB.get keyPath (keyPath r) s) eqn:E; [discriminate|].
  intros [= <-]. now apply insert_fresh_Permutation.
Qed.

Lemma add_keeps (r x : R) (s s' : IDB.objectStore R) :
  IDB.add keyPath r s = Some s' -> In x s -> In x s'.
Proof.
  intros Hadd Hin. apply (Permutation_in x (Permutation_sym (add_Permutation _ _ _ Hadd))).
  now right.
Qed.


Lemma insert_In_inv (r x : R) (s : IDB.objectStore R) :
  In x (IDB.insert keyPath r s) -> x = r \/ In x s.
Proof.
  induction s as [|r' s IH]; simpl.
  - intros [H|[]]. now left.
  - destruct (String.compare (keyPath r) (keyPath r')); simpl.
    + intros [H|H]; [now left | right; now right].
    + intros [H|[H|H]]; [now left | right; now left | right; now right].
    + intros [H|H]; [right; now left|]. destruct (IH H); [now left | right; now right].
Qed.

Lemma delete_subset (k : string) (s : IDB.objectStore R) (y : R) :
  In y (IDB.delete keyPath k s) -> In y s.
Proof.
  induction s as [|r s IH]; simpl; [tauto|].
  destruct (keyPath r =? k)%string; simpl; [tauto|].
  intros [->|H]; [now left | right; now apply IH].
Qed.

Lemma delete_other (k : string) (s : IDB.objectStore R) (y : R) :
  In y s -> keyPath y <> k -> In y (IDB.delete keyPath k s).
Proof.
  induction s as [|r s IH]; simpl; [tauto|].
  intros [->|H] Hne.
  - destruct (keyPath y =? k)%string eqn:E;
      [apply String.eqb_eq in E; contradiction | now left].
  - destruct (keyPath r =? k)%string; [assumption | right; now apply IH].
Qed.

Lemma delete_unique (k : string) (s : IDB.objectStore R) :
  unique_keys s -> unique_keys (IDB.delete keyPath k s).
Proof.
  unfold unique_keys. induction s as [|r s IH]; simpl; intros H; [constructor|].
  inversion H as [|? ? Hnotin Hnd]; subst.
  destruct (keyPath r =? k)%string; [assumption|]. simpl. constructor; [|now apply IH].
  intros Hin. apply Hnotin. apply in_map_iff in Hin. destruct Hin as [y [Hy Hin]].
  apply in_map_iff. exists y. split; [assumption|]. now apply (delete_subset k).
Qed.



End StoreFacts.

End IDBFacts.

(* ================================================================= *)
(** * Properties of the snapshot manager *)
(* ================================================================= *)

Module SnapshotProperties.

Import SnapshotManager.

(** ** Measures and scenarios *)

(** The two filters of the clean-ups: [!s.isMilestone] and [s.autoSave]. *)
Definition is_plain (s : Snapshot) : bool := negb (JS.truthy (isMilestone s)).
Definition is_autoSave (s : Snapshot) : bool := JS.truthy (autoSave s).

Definition nonMilestoneCount (db : Store) : Z :=
  JS.array_length (filter is_plain db).

Definition autoSaveCount (db : Store) : Z :=
  JS.array_length (filter is_autoSave db).

(** The [for] loop of a clean-up. *)
Definition delete_each (toDelete : list Snapshot) (db : Store) : Store :=
  fold_left (fun d snapshot => deleteSnapshot d (id snapshot)) toDelete db.

(** The shape the two clean-ups share: of the snapshots that satisfy [p],
    newest first, those beyond the first [cap] are deleted. *)
Definition cleanup (p : Snapshot -> bool) (cap : Z) (db : Store) : Store :=
  let selected := filter p (getAllSnapshots db) in
  if JS.array_length selected >? cap
  then delete_each (JS.slice_from cap selected) db
  else db.

Definition unique_ids (db : Store) : Prop := IDBFacts.unique_keys (@id string) db.


(** One call of [saveSnapshot]: the draft and the value [nanoid] returns. *)
Definition SaveCall : Type := (Draft * string)%type.

(** A sequence of [saveSnapshot] calls, each awaited before the next; the
    flag tells whether every call resolved. *)
Definition save_each (db : Store) (calls : list SaveCall) : Store * bool :=
  fold_left
    (fun acc call =>
       let '(d, resolved) := acc in
       let '(d', r) := saveSnapshot d (fst call) (snd call) in
       (d', resolved && JS.is_normal r))
    calls (db, true).

(** The snapshot the editor's quick save writes at time [t], with the
    given flags. *)
Definition quick_save (milestone auto : option bool) (t : Z) : Draft :=
  mkSnapshot tt t "Auto-save" working "const a = 1;"
    [("index.tsx", "const a = 1;")] 12 12 milestone auto None None None.

(** Calls at times [from], [from + 1], ..., one per tick, the [i]-th with
    the identifier [i] in decimal. *)
Definition ticks (f : Z -> Draft) (from : nat) (n : nat) : list SaveCall :=
  map (fun i => (f (Z.of_nat i), JSON.decimal (Z.of_nat i))) (seq from n).

(** The editor's live state, which the snapshot manager has no handle on. *)
Record Editor : Type := mkEditor {
  live_code : string;
  live_files : JS.Map string
}.

Definition v1 : Draft :=
  mkSnapshot tt 1000 "v1" working "const a = 1;"
    [("index.tsx", "const a = 1;")] 12 12 None None None None None.

Definition editing : Editor :=
  mkEditor "const a = 2;" [("index.tsx", "const a = 2;")].

(** Two stored snapshots: [v1] and a later milestone. *)
Definition two_snapshots : Store :=
  [ with_id "snap_a" v1; with_id "snap_b" (quick_save (Some true) None 2000) ].

Definition decimal_ids (k : nat) : string := JSON.decimal (Z.of_nat k).

(** A milestone at time 0 followed by 51 plain saves at times 1..51. *)
Definition milestone_then_51 : list SaveCall :=
  (quick_save (Some true) None 0, "m") :: ticks (quick_save None None) 1 51.

(** The files of a record are the entries of a [Map]: no key twice. *)
Definition files_of_a_Map {I : Type} (s : SnapshotOf I) : Prop :=
  NoDup (map fst (files s)).

(** What a snapshot has apart from its identifier. *)
Definition contents (s : Snapshot) : Draft := with_id tt s.

Lemma Status_eqb_eq (a b : Status) : Status_eqb a b = true <-> a = b.
Proof. destruct a, b; simpl; split; congruence. Qed.

Lemma revive_status (s : Snapshot) : status (revive s) = status s.
Proof. reflexivity. Qed.

Lemma revive_timestamp (s : Snapshot) : timestamp (revive s) = timestamp s.
Proof. reflexivity. Qed.

(** C3.  [getLastWorkingSnapshot] answers with a stored snapshot whose
    status is [working] and whose timestamp no other [working] snapshot of
    the store exceeds, whatever more recent snapshots of another status the
    store holds; it answers [null] exactly when the store holds no
    [working] snapshot. *)
Theorem getLastWorkingSnapshot_latest_working (db : Store) :
  match getLastWorkingSnapshot db with
  | Some latest =>
      exists stored,
        In stored db /\ latest = revive stored /\
        status latest = working /\
        forall s, In s db -> status s = working -> timestamp s <= timestamp latest
  | None => forall s, In s db -> status s <> working
  end.
Proof.
  unfold getLastWorkingSnapshot, IDB.index_getAll, JS.array_length.
  remember (filter (fun s => Status_eqb (status s) working) db) as ws eqn:Hws.
  assert (forall s, In s ws <-> In s db /\ status s = working) as Hin_ws.
  { intros s. subst ws. rewrite filter_In, Status_eqb_eq. reflexivity. }
  clear Hws.
  destruct ws as [|w ws'].
  - simpl. intros s Hs Hw. apply (Hin_ws s). now split.
  - replace (Z.of_nat (List.length (w :: ws')) >? 0) with true
      by (symmetry; apply Z.gtb_lt; simpl List.length; lia).
    destruct (JS.sort newest_first (w :: ws')) as [|latest rest] eqn:Hsort.
    + pose proof (JSFacts.sort_length newest_first (w :: ws')) as Hl.
      rewrite Hsort in Hl. discriminate Hl.
    + destruct (JSFacts.sort_head_greatest (@timestamp string) (w :: ws') _ _ Hsort) as [Hin Hmax].
      apply Hin_ws in Hin. destruct Hin as [Hdb Hst].
      exists latest. repeat split; try assumption.
      intros s Hs Hw. rewrite revive_timestamp. apply Hmax.
      apply Hin_ws. now split.
Qed.

(** ** Retention *)

Lemma Permutation_filter_length {A : Type} (p : A -> bool) (l l' : list A) :
  Permutation l l' -> List.length (filter p l) = List.length (filter p l').
Proof.
  induction 1 as [|x l l' _ IH|x y l|l l' l'' _ IH1 _ IH2]; simpl.
  - reflexivity.
  - destruct (p x); simpl; congruence.
  - destruct (p x), (p y); reflexivity.
  - congruence.
Qed.

Section DistinctImages.
Context {A B : Type} (f : A -> B).



End DistinctImages.

Lemma In_skipn {A : Type} (n : nat) (l : list A) (x : A) : In x (skipn n l) -> In x l.
Proof.
  revert l. induction n as [|n IH]; intros l H; [exact H|].
  destruct l as [|y l]; [exact H|]. right. now apply IH.
Qed.

Lemma delete_each_unique (l : list Snapshot) (db : Store) :
  unique_ids db -> unique_ids (delete_each l db).
Proof.
  revert db. induction l as [|x l IH]; intros db H; simpl; [exact H|].
  apply IH. now apply IDBFacts.delete_unique.
Qed.



Lemma cleanupAutoSaves_cleanup (db : Store) :
  cleanupAutoSaves db = cleanup is_autoSave maxAutoSaves db.
Proof. reflexivity. Qed.

Lemma cleanupOldSnapshots_cleanup (db : Store) :
  cleanupOldSnapshots db = cleanup is_plain maxSnapshots db.
Proof. reflexivity. Qed.

Section Cleanup.
Context (p : Snapshot -> bool) (cap : Z).
Hypothesis p_revive : forall s, p (revive s) = p s.

Lemma selected_length (db : Store) :
  List.length (filter p (getAllSnapshots db)) = List.length (filter p db).
Proof.
  unfold getAllSnapshots, IDB.getAll.
  rewrite (Permutation_filter_length p _ _ (JSFacts.sort_Permutation newest_first _)).
  induction db as [|s db IH]; simpl; [reflexivity|].
  rewrite p_revive. destruct (p s); simpl; congruence.
Qed.

Lemma selected_stored (db : Store) (x : Snapshot) :
  In x (filter p (getAllSnapshots db)) ->
  exists x0, In x0 db /\ id x0 = id x /\ p x0 = true.
Proof.
  intros H. apply filter_In in H. destruct H as [Hin Hp].
  unfold getAllSnapshots, IDB.getAll in Hin.
  apply (proj1 (JSFacts.sort_In newest_first _ _)) in Hin.
  apply in_map_iff in Hin. destruct Hin as [x0 [<- Hin0]].
  exists x0. repeat split; [assumption|]. now rewrite <- p_revive.
Qed.


Lemma cleanup_unique (db : Store) : unique_ids db -> unique_ids (cleanup p cap db).
Proof.
  intros H. unfold cleanup.
  destruct (_ >? cap); [now apply delete_each_unique | exact H].
Qed.



End Cleanup.




(** C1.  The clean-ups run before the new record is added, so the store
    ends one above each cap: after 51 plain saves it holds 51 snapshots
    that are no milestones (cap 50), and after 11 auto-saves it holds 11
    auto-saves (cap 10). *)
Theorem saveSnapshot_leaves_one_above_cap :
  (let (db, resolved) := save_each [] (ticks (quick_save None None) 1 51) in
   resolved = true /\ nonMilestoneCount db = 51 /\ maxSnapshots = 50) /\
  (let (db, resolved) := save_each [] (ticks (quick_save None (Some true)) 1 11) in
   resolved = true /\ autoSaveCount db = 11 /\ maxAutoSaves = 10).
Proof. vm_compute. repeat split. Qed.



(** C2.  With [v1] stored and the editor holding other text,
    [restoreSnapshot] resolves with [v1] and adds one record, labelled
    after [v1] with status [testing]; its code and files are those of [v1],
    not the editor's. *)
Theorem restoreSnapshot_backs_up_the_target :
  let (db, _) := saveSnapshot [] v1 "a" in
  let (db', r) := restoreSnapshot db "snap_a" 2000 "b" in
  exists target backup,
    r = JS.Normal target /\
    db = [target] /\ db' = [target; backup] /\
    status backup = testing /\
    label backup = "Before restore to: v1" /\
    code backup = code target /\
    files backup = files target /\
    code backup <> live_code editing /\
    files backup <> live_files editing.
Proof.
  vm_compute. eexists. eexists.
  repeat match goal with |- _ /\ _ => split end;
    try reflexivity; discriminate.
Qed.

(** ** Export and import *)

Lemma with_files_same {I : Type} (s : SnapshotOf I) : with_files (files s) s = s.
Proof. now destruct s. Qed.

Lemma revive_same (s : Snapshot) : files_of_a_Map s -> revive s = s.
Proof.
  intros H. unfold revive. rewrite (JSFacts.map_from_entries_unique _ H). apply with_files_same.
Qed.

Lemma cleanup_idle (p : Snapshot -> bool) (cap : Z) (db : Store) :
  (forall s, p (revive s) = p s) ->
  Z.of_nat (List.length (filter p db)) <= cap ->
  cleanup p cap db = db.
Proof.
  intros Hp Hle. unfold cleanup, JS.array_length.
  rewrite (selected_length p Hp db).
  destruct (_ >? cap) eqn:E; [apply Z.gtb_lt in E; lia | reflexivity].
Qed.

Lemma snap_inj (a b : string) : ("snap_" ++ a = "snap_" ++ b)%string -> a = b.
Proof. simpl. now intros [= ->]. Qed.

Lemma get_absent (key : string) (db : Store) :
  (forall s, In s db -> id s <> key) -> IDB.get (@id string) key db = None.
Proof.
  induction db as [|r db IH]; intros H; simpl; [reflexivity|].
  destruct (id r =? key)%string eqn:E.
  - apply String.eqb_eq in E. exfalso. apply (H r); [now left | exact E].
  - apply IH. intros s Hs. apply H. now right.
Qed.

(** A save into a store that is within both caps and does not hold the
    new identifier adds the record and touches nothing else. *)
Lemma saveSnapshot_idle (db : Store) (snapshot : Draft) (nano : string) :
  nonMilestoneCount db <= maxSnapshots ->
  autoSaveCount db <= maxAutoSaves ->
  IDB.get (@id string) ("snap_" ++ nano)%string db = None ->
  saveSnapshot db snapshot nano
  = (IDB.insert (@id string) (with_id ("snap_" ++ nano)%string snapshot) db,
     JS.Normal (with_id ("snap_" ++ nano)%string snapshot)).
Proof.
  unfold nonMilestoneCount, autoSaveCount, JS.array_length. intros Hp Ha Hfresh.
  unfold saveSnapshot.
  rewrite cleanupAutoSaves_cleanup, cleanupOldSnapshots_cleanup.
  rewrite (cleanup_idle is_autoSave maxAutoSaves db (fun _ => eq_refl) Ha).
  assert ((if JS.truthy (autoSave (with_id ("snap_" ++ nano)%string snapshot))
           then db else db) = db) as -> by now destruct (JS.truthy _).
  rewrite (cleanup_idle is_plain maxSnapshots db (fun _ => eq_refl) Hp).
  unfold JS.map_entries. rewrite with_files_same.
  unfold IDB.add.
  change (id (with_id ("snap_" ++ nano)%string snapshot)) with ("snap_" ++ nano)%string.
  rewrite Hfresh. reflexivity.
Qed.

Lemma import_loop_within_caps (nanoid : nat -> string) (rest : list Snapshot) :
  forall (cur : Store) (k : nat) (imported : Z),
    (forall s, In s cur -> exists j, (j < k)%nat /\ id s = ("snap_" ++ nanoid j)%string) ->
    (forall i j, (i < k + List.length rest)%nat -> (j < k + List.length rest)%nat ->
                 nanoid i = nanoid j -> i = j) ->
    Z.of_nat (List.length (filter is_plain cur) + List.length (filter is_plain rest))
      <= maxSnapshots ->
    Z.of_nat (List.length (filter is_autoSave cur) + List.length (filter is_autoSave rest))
      <= maxAutoSaves ->
    exists db',
      import_loop cur rest nanoid k imported
        = (db', JS.Normal (imported + Z.of_nat (List.length rest))) /\
      Permutation (map contents db') (map contents (map revive rest) ++ map contents cur).
Proof.
  induction rest as [|e rest IH]; intros cur k imported Hids Hinj Hp Ha.
  - exists cur. simpl. split; [now rewrite Z.add_0_r | reflexivity].
  - cbn [import_loop]. fold (revive e).
    set (new := with_id ("snap_" ++ nanoid k)%string (with_id tt (revive e))).
    assert (IDB.get (@id string) ("snap_" ++ nanoid k)%string cur = None) as Hfresh.
    { apply get_absent. intros s Hs E. destruct (Hids s Hs) as [j [Hj Hid]].
      rewrite Hid in E. apply snap_inj in E.
      apply Hinj in E; simpl; lia. }
    rewrite saveSnapshot_idle; try exact Hfresh.
    2:{ unfold nonMilestoneCount, JS.array_length. simpl in Hp. lia. }
    2:{ unfold autoSaveCount, JS.array_length. simpl in Ha. lia. }
    fold new.
    pose proof (IDBFacts.insert_fresh_Permutation (@id string) new cur Hfresh) as Hperm.
    assert (is_plain new = is_plain e) as Hpn by reflexivity.
    assert (is_autoSave new = is_autoSave e) as Han by reflexivity.
    destruct (IH (IDB.insert (@id string) new cur) (S k) (imported + 1)) as [db' [Hrun Hres]].
    + intros s Hs. apply (Permutation_in _ Hperm) in Hs. destruct Hs as [<-|Hs].
      * exists k. split; [lia | reflexivity].
      * destruct (Hids s Hs) as [j [Hj Hid]]. exists j. split; [lia | exact Hid].
    + intros i j Hi Hj. apply Hinj; simpl; lia.
    + rewrite (Permutation_filter_length is_plain _ _ Hperm). simpl filter.
      rewrite Hpn. simpl in Hp. destruct (is_plain e); simpl in *; lia.
    + rewrite (Permutation_filter_length is_autoSave _ _ Hperm). simpl filter.
      rewrite Han. simpl in Ha. destruct (is_autoSave e); simpl in *; lia.
    + exists db'. split.
      * rewrite Hrun. f_equal. f_equal. simpl List.length. lia.
      * rewrite Hres. rewrite (Permutation_map contents Hperm). simpl.
        apply Permutation_sym, Permutation_middle.
Qed.

(** X7.  A store within both caps whose file lists are entries of [Map]s
    comes back from its own export: the import resolves with the number of
    snapshots, and the new store holds the same snapshots up to their
    identifiers. *)
Theorem import_of_export_within_caps (db : Store) (now : Z) (nanoid : nat -> string) :
  nonMilestoneCount db <= maxSnapshots ->
  autoSaveCount db <= maxAutoSaves ->
  (forall s, In s db -> files_of_a_Map s) ->
  (forall i j, (i < List.length db)%nat -> (j < List.length db)%nat ->
               nanoid i = nanoid j -> i = j) ->
  exists db',
    importSnapshots [] (parse_stringify (exportSnapshots db now)) nanoid
      = (db', JS.Normal (JS.array_length db)) /\
    Permutation (map contents db') (map contents db).
Proof.
  unfold nonMilestoneCount, autoSaveCount, JS.array_length.
  intros Hp Ha Hfiles Hinj.
  unfold importSnapshots, parse_stringify, exportSnapshots. cbn [snapshots].
  assert (map revive db = db) as Hrev.
  { rewrite <- (map_id db) at 2. apply map_ext_in. intros s Hs. now apply revive_same, Hfiles. }
  assert (map (fun s : Snapshot => with_files (JS.map_entries (files s)) s)
            (getAllSnapshots db) = JS.sort newest_first db) as Hexp.
  { unfold getAllSnapshots, IDB.getAll. rewrite Hrev.
    rewrite <- (map_id (JS.sort newest_first db)) at 2.
    apply map_ext. intros s. apply with_files_same. }
  rewrite Hexp.
  pose proof (JSFacts.sort_Permutation newest_first db) as Hsort.
  destruct (import_loop_within_caps nanoid (JS.sort newest_first db) [] 0 0)
    as [db' [Hrun Hres]].
  - intros s [].
  - intros i j. simpl. rewrite (Permutation_length Hsort). apply Hinj.
  - simpl. rewrite (Permutation_filter_length is_plain _ _ Hsort). exact Hp.
  - simpl. rewrite (Permutation_filter_length is_autoSave _ _ Hsort). exact Ha.
  - exists db'. split.
    + rewrite Hrun. rewrite (Permutation_length Hsort). reflexivity.
    + rewrite Hres. simpl. rewrite app_nil_r.
      assert (map revive (JS.sort newest_first db) = JS.sort newest_first db) as Hrev'.
      { rewrite <- (map_id (JS.sort newest_first db)) at 2. apply map_ext_in.
        intros s Hs. apply revive_same, Hfiles.
        now apply (JSFacts.sort_In newest_first). }
      rewrite Hrev'. now apply Permutation_map.
Qed.

Lemma import_of_export_two_snapshots :
  exists db',
    importSnapshots [] (parse_stringify (exportSnapshots two_snapshots 3000)) decimal_ids
      = (db', JS.Normal (JS.array_length two_snapshots)) /\
    Permutation (map contents db') (map contents two_snapshots).
Proof.
  apply (import_of_export_within_caps two_snapshots 3000 decimal_ids).
  - discriminate.
  - discriminate.
  - intros s [<-|[<-|[]]]; unfold files_of_a_Map; simpl;
      (constructor; [intros [] | constructor]).
  - intros i j Hi Hj. simpl in Hi, Hj.
    destruct i as [|[|i]]; destruct j as [|[|j]]; try lia;
      vm_compute; intros H; try reflexivity; discriminate H.
Defined.

(** C8.  A store reached by a milestone and then 51 plain saves holds 52
    snapshots.  Importing its export into an empty store reports 52
    imported, yet the store then holds 51: adding the milestone, last in
    the bundle, first evicts the oldest plain snapshot. *)
Theorem import_of_export_drops_a_snapshot :
  let (db, resolved) := save_each [] milestone_then_51 in
  let (db', r) :=
    importSnapshots [] (parse_stringify (exportSnapshots db 1000))
      (fun k => JSON.decimal (Z.of_nat k)) in
  resolved = true /\
  JS.array_length db = 52 /\
  r = JS.Normal 52 /\
  JS.array_length db' = 51 /\
  (exists s, In s db /\ timestamp s = 1) /\
  (forall s, In s db' -> timestamp s <> 1).
Proof.
  vm_compute. repeat split; try reflexivity.
  - eexists. split; [left; reflexivity | reflexivity].
  - intros s Hs.
    repeat (destruct Hs as [<-|Hs]; [discriminate|]). contradiction.
Qed.

End SnapshotProperties.

(* ================================================================= *)
(** * Properties of the response cache *)
(* ================================================================= *)

Module CacheProperties.

Import ClaudeAPI.

(** ** Scenarios *)

(** A network that answers every request with the same reply. *)
Definition online : Network :=
  fun _ => Response true 200 (Some (JSON.JObject [("content", JSON.JString "Sure.")])).

Definition offline : Network := fun _ => NetworkError.

(** The message list of a conversation that consists of one question. *)
Definition ask (query : string) : list ClaudeMessage := [mkMessage user query].

Definition question (i : nat) : string :=
  ("question " ++ JSON.decimal (Z.of_nat i))%string.

(** A fresh instance over an empty cache database, after the questions
    [0 .. n-1] were sent one by one and answered by the network. *)
Definition asked (n : nat) : State :=
  fold_left
    (fun st i => fst (sendMessage st (ask (question i)) None online (Z.of_nat i)))
    (seq 0 n) (create (Some [])).

(** The content of the last message; the empty string stands for a list
    that has none. *)
Definition last_content (messages : list ClaudeMessage) : string :=
  match last_message messages with
  | Some m => content m
  | None => EmptyString
  end.

(** The request got no usable reply: [fetch] rejected, the response was not
    ok, its body was not JSON, or the reply was [null] or carried a truthy
    [error]. *)
Definition no_reply (res : FetchResult) : bool :=
  match res with
  | NetworkError => true
  | Response ok _ body =>
      negb ok ||
      match body with
      | None => true
      | Some data =>
          match JSON.prop data "error" with
          | JS.Throw _ => true
          | JS.Normal err => JSON.truthy err
          end
      end
  end.

(** The public methods, and a sequence of calls, each awaited before the
    next. *)
Inductive Call : Type :=
| CheckCache (query : string) (context : option Context)
| SendMessage (messages : list ClaudeMessage) (context : option Context)
    (fetch : Network) (now : Z)
| GetCacheStats
| ClearCache.

Definition step (st : State) (c : Call) : State :=
  match c with
  | CheckCache query context => fst (checkCache st query context)
  | SendMessage messages context fetch now =>
      fst (sendMessage st messages context fetch now)
  | GetCacheStats => st
  | ClearCache => clearCache st
  end.

Definition run (st : State) (calls : list Call) : State := fold_left step calls st.

(** [cacheResponse] for each key in turn. *)
Definition insert_all (st : State) (keys : list string) (r : ClaudeResponse) (now : Z)
    : State :=
  fold_left (fun st k => cacheResponse st k r now) keys st.

Definition int32 (z : Z) : Prop := - 2 ^ 31 <= z < 2 ^ 31.

Definition generated (k : string) : Prop :=
  exists messages context, k = generateCacheKey messages context.

(** Every key of either tier came out of [generateCacheKey]. *)
Definition keys_generated (st : State) : Prop :=
  (forall k e, In (k, e) (memoryCache st) -> generated k) /\
  (forall store e, persistentCache st = Some store -> In e store -> generated (key e)).

(** ** Calls that overlap

    An [async] method runs up to an [await] and gives up control there;
    other calls on the instance may run before it goes on.  [checkCache]
    waits at [await this.getPersistentCacheEntry(cacheKey)], at
    [await this.updatePersistentCacheHits(...)] and at
    [await this.findSimilarCacheEntry(query)]; [sendMessage] waits for its
    [checkCache] call, and then for [fetch] and [response.json()], between
    which it does not touch the instance.  [getCacheStats] and
    [clearCache] hold no [await].

    A read of the cache database is issued before anything that runs in
    between, so what it delivers is fixed when the call suspends, and so
    is what [findSimilarCacheEntry], which holds no [await], returns. *)

(** Who called [checkCache]: the page, or a [sendMessage] call, which goes
    on with its key, its messages and what the network and the clock will
    give it. *)
Inductive Caller : Type :=
| ThePage
| BySendMessage (cacheKey : string) (messages : list ClaudeMessage)
    (context : option Context) (fetch : Network) (now : Z).

(** A call in flight, by the [await] at which it waits: for the read of
    the persistent tier, with what the read delivers; for
    [findSimilarCacheEntry], with what it returns; for
    [updatePersistentCacheHits], the hit being counted; for the reply of
    the network. *)
Inductive Pending : Type :=
| AwaitPersistentEntry (caller : Caller) (query cacheKey : string)
    (entry : option CacheEntry)
| AwaitSimilarEntry (caller : Caller) (similarEntry : option CacheEntry)
| AwaitUpdate
| AwaitFetch (cacheKey : string) (messages : list ClaudeMessage)
    (context : option Context) (fetch : Network) (now : Z).

(** What the caller goes on to once [checkCache] has answered: [sendMessage]
    returns a cached response and posts its request when there is none. *)
Definition answered (caller : Caller) (cached : option ClaudeResponse) : list Pending :=
  match caller, cached with
  | BySendMessage cacheKey messages context fetch now, None =>
      [AwaitFetch cacheKey messages context fetch now]
  | _, _ => []
  end.

(** [checkCache] from the call to its first [await], or to its return on a
    hit in the memory tier. *)
Definition checkCache_start (st : State) (caller : Caller) (query : string)
    (context : option Context) : State * list Pending :=
  let messages := [mkMessage user query] in
  let cacheKey := generateCacheKey messages context in
  let st := count_request st in
  match JS.map_get cacheKey (memoryCache st) with
  | Some entry =>
      let (st', r) := memory_tier st cacheKey entry in (st', answered caller r)
  | None =>
      match persistentCache st with
      | Some _ =>
          (st, [AwaitPersistentEntry caller query cacheKey
                  (getPersistentCacheEntry st cacheKey)])
      | None => (st, [AwaitSimilarEntry caller (findSimilarCacheEntry st query)])
      end
  end.

(** The end of [checkCache], once [findSimilarCacheEntry] has returned. *)
Definition semantic_answer (st : State) (similarEntry : option CacheEntry)
    : State * option ClaudeResponse :=
  match similarEntry with
  | Some entry =>
      (mkState (memoryCache st) (persistentCache st) (totalRequests st)
         (cacheHits st + 1),
       Some (as_cached (response entry)))
  | None => (st, None)
  end.

(** A call goes on from its [await] to the next one, or to its end. *)
Definition resume (st : State) (p : Pending) : State * list Pending :=
  match p with
  | AwaitPersistentEntry caller query cacheKey (Some entry) =>
      (fst (persistent_tier st cacheKey entry), [AwaitUpdate])
  | AwaitPersistentEntry caller query cacheKey None =>
      (st, [AwaitSimilarEntry caller (findSimilarCacheEntry st query)])
  | AwaitSimilarEntry caller similarEntry =>
      let (st', r) := semantic_answer st similarEntry in (st', answered caller r)
  | AwaitUpdate => (st, [])
  | AwaitFetch cacheKey messages context fetch now =>
      (fst (request st cacheKey messages context fetch now), [])
  end.

(** The [k]-th call in flight goes on; it keeps its place among the
    others. *)
Fixpoint resume_nth (st : State) (pending : list Pending) (k : nat)
    : State * list Pending :=
  match pending, k with
  | [], _ => (st, [])
  | p :: rest, O => let (st', next) := resume st p in (st', next ++ rest)
  | p :: rest, S k' =>
      let (st', rest') := resume_nth st rest k' in (st', p :: rest')
  end.

(** What happens on the instance: a public method is called, or a call in
    flight goes on. *)
Inductive Event : Type :=
| Start (c : Call)
| Resume (k : nat).

(** The instance and the calls in flight. *)
Definition Overlap : Type := (State * list Pending)%type.

Definition fire (m : Overlap) (e : Event) : Overlap :=
  let (st, pending) := m in
  match e with
  | Start (CheckCache query context) =>
      let (st', more) := checkCache_start st ThePage query context in
      (st', pending ++ more)
  | Start (SendMessage messages context fetch now) =>
      match last_message messages with
      | None => m
      | Some lastMessage =>
          let caller :=
            BySendMessage (generateCacheKey messages context) messages context fetch now in
          let (st', more) := checkCache_start st caller (content lastMessage) context in
          (st', pending ++ more)
      end
  | Start GetCacheStats => m
  | Start ClearCache => (clearCache st, pending)
  | Resume k => resume_nth st pending k
  end.

Definition overlap (m : Overlap) (events : list Event) : Overlap :=
  fold_left fire events m.

(** The call has counted its request and has yet to look at the persistent
    or the semantic tier. *)
Definition looking (p : Pending) : bool :=
  match p with
  | AwaitPersistentEntry _ _ _ _ | AwaitSimilarEntry _ _ => true
  | AwaitUpdate | AwaitFetch _ _ _ _ _ => false
  end.

Definition lookups (pending : list Pending) : Z :=
  Z.of_nat (List.length (filter looking pending)).

(** No [clearCache] is called while a [checkCache] call is looking. *)
Fixpoint no_clear_during_lookup (m : Overlap) (events : list Event) : bool :=
  match events with
  | [] => true
  | e :: rest =>
      match e with
      | Start ClearCache => lookups (snd m) =? 0
      | _ => true
      end && no_clear_during_lookup (fire m e) rest
  end.

(** ** Counters *)

Lemma checkCache_counters (st : State) (query : string) (context : option Context) :
  let st' := fst (checkCache st query context) in
  totalRequests st' = totalRequests st + 1 /\
  (cacheHits st' = cacheHits st \/ cacheHits st' = cacheHits st + 1).
Proof.
  unfold checkCache, memory_tier, persistent_tier, semantic_tier.
  repeat match goal with
         | |- context [match ?x with _ => _ end] => destruct x; simpl
         end; auto.
Qed.

Lemma cacheResponse_counters (st : State) (k : string) (r : ClaudeResponse) (now : Z) :
  totalRequests (cacheResponse st k r now) = totalRequests st /\
  cacheHits (cacheResponse st k r now) = cacheHits st.
Proof. split; reflexivity. Qed.

Lemma request_counters (st : State) (k : string) (messages : list ClaudeMessage)
    (context : option Context) (fetch : Network) (now : Z) :
  let st' := fst (request st k messages context fetch now) in
  totalRequests st' = totalRequests st /\ cacheHits st' = cacheHits st.
Proof.
  unfold request.
  repeat match goal with
         | |- context [match ?x with _ => _ end] => destruct x; simpl
         | |- context [if ?b then _ else _] => destruct b; simpl
         end; auto.
Qed.

(** [sendMessage] touches the counters through its one [checkCache] call
    only, and not at all when it throws before that call. *)
Lemma sendMessage_counters (st : State) (messages : list ClaudeMessage)
    (context : option Context) (fetch : Network) (now : Z) :
  let st' := fst (sendMessage st messages context fetch now) in
  (totalRequests st' = totalRequests st /\ cacheHits st' = cacheHits st) \/
  (exists query,
      totalRequests st' = totalRequests (fst (checkCache st query context)) /\
      cacheHits st' = cacheHits (fst (checkCache st query context))).
Proof.
  unfold sendMessage.
  destruct (last_message messages) as [lastMessage|]; simpl; [|auto].
  right. exists (content lastMessage).
  destruct (checkCache st (content lastMessage) context) as [st1 cached] eqn:E.
  simpl. destruct cached; simpl; [auto|].
  pose proof (request_counters st1 (generateCacheKey messages context)
                messages context fetch now) as H.
  destruct (request st1 _ messages context fetch now) as [st2 [result|e]];
    simpl in *; exact H.
Qed.

Definition sane (st : State) : Prop := 0 <= cacheHits st <= totalRequests st.

Lemma create_sane (db : option (IDB.objectStore CacheEntry)) : sane (create db).
Proof.
  unfold sane, create, loadCacheToMemory. simpl.
  destruct db; simpl; lia.
Qed.

Lemma step_sane (st : State) (c : Call) : sane st -> sane (step st c).
Proof.
  unfold sane. intros H. destruct c as [query context|messages context fetch now| |]; simpl.
  - pose proof (checkCache_counters st query context) as [Ht Hh]. simpl in *. lia.
  - pose proof (sendMessage_counters st messages context fetch now) as [[Ht Hh]|[q [Ht Hh]]];
      simpl in *; [lia|].
    pose proof (checkCache_counters st q context) as [Ht' Hh']. simpl in *. lia.
  - exact H.
  - lia.
Qed.

Lemma run_sane (calls : list Call) (st : State) : sane st -> sane (run st calls).
Proof.
  revert st. induction calls as [|c calls IH]; intros st H; simpl; [exact H|].
  apply IH, step_sane, H.
Qed.

Lemma Math_round_percentage (h t : Z) :
  0 <= h <= t -> 0 < t ->
  0 <= Math_round (JS.times (JS.divide (inject_Z h) (inject_Z t)) 100) <= 100.
Proof.
  intros Hh Ht. unfold Math_round, JS.times, JS.divide.
  assert (0 < inject_Z t)%Q as Htq by (unfold Qlt; simpl; lia).
  assert (0 <= inject_Z h)%Q as Hhq by (unfold Qle; simpl; lia).
  assert (inject_Z h <= inject_Z t)%Q as Hle by (unfold Qle; simpl; lia).
  assert (0 <= inject_Z h / inject_Z t)%Q as Hlo.
  { apply Qle_shift_div_l; [exact Htq|]. rewrite Qmult_0_l. exact Hhq. }
  assert (inject_Z h / inject_Z t <= inject_Z 1)%Q as Hhi.
  { apply Qle_shift_div_r; [exact Htq|]. change (inject_Z 1) with 1%Q.
    rewrite Qmult_1_l. exact Hle. }
  set (ratio := JS.double (inject_Z h / inject_Z t)).
  assert (0 <= ratio)%Q as Hr0 by (apply JSFacts.double_nonneg, Hlo).
  assert (ratio <= inject_Z 1)%Q as Hr1 by (apply JSFacts.double_le; [lia | exact Hhi]).
  set (percent := JS.double (ratio * 100)).
  assert (0 <= percent)%Q as Hp0.
  { apply JSFacts.double_nonneg. apply Qmult_le_0_compat; [exact Hr0 | discriminate]. }
  assert (percent <= inject_Z 100)%Q as Hp1.
  { apply JSFacts.double_le; [lia|]. change (inject_Z 100) with (1 * 100)%Q.
    apply Qmult_le_compat_r; [exact Hr1 | discriminate]. }
  split.
  - change 0 with (Qfloor (0 + (1 # 2))). apply Qfloor_resp_le.
    apply Qplus_le_l. exact Hp0.
  - change 100 with (Qfloor (inject_Z 100 + (1 # 2))). apply Qfloor_resp_le.
    apply Qplus_le_l. exact Hp1.
Qed.

Lemma hitRate_percentage (st : State) :
  sane st -> 0 <= hitRate (getCacheStats st) <= 100.
Proof.
  unfold sane. intros H. simpl.
  destruct (totalRequests st >? 0) eqn:E; [|lia].
  apply Z.gtb_lt in E. apply Math_round_percentage; lia.
Qed.

(** *** Calls that overlap *)

Lemma semantic_tier_answer (st : State) (query : string) :
  semantic_tier st query = semantic_answer st (findSimilarCacheEntry st query).
Proof. unfold semantic_tier, semantic_answer. now destruct (findSimilarCacheEntry st query). Qed.

(** With nothing in between, the parts make up the call: a call that is
    started and then left to go on, as long as it is in flight, leaves the
    instance as the method does, and nothing in flight. *)
Lemma start_then_resume (st : State) (c : Call) :
  overlap (st, []) [Start c; Resume 0; Resume 0; Resume 0] = (step st c, []).
Proof.
  destruct c as [query context|messages context fetch now| |]; cbn [overlap fold_left fire];
    try reflexivity.
  - unfold checkCache_start, step, checkCache, getPersistentCacheEntry.
    destruct (JS.map_get _ (memoryCache (count_request st))) as [entry|]; [reflexivity|].
    rewrite semantic_tier_answer.
    destruct (persistentCache (count_request st)) as [store|] eqn:Hp.
    + destruct (IDB.get key _ store) as [entry|];
        cbn [fire app resume_nth resume fst]; [reflexivity|].
      destruct (semantic_answer (count_request st) _) as [st1 r].
      cbn [fire app resume_nth resume fst]. now destruct r.
    + cbn [fire app resume_nth resume fst].
      destruct (semantic_answer (count_request st) _) as [st1 r].
      cbn [fire app resume_nth resume fst]. now destruct r.
  - unfold step, sendMessage.
    destruct (last_message messages) as [lastMessage|]; [|reflexivity].
    unfold checkCache_start, checkCache, getPersistentCacheEntry.
    set (cacheKey := generateCacheKey messages context).
    assert (forall st1,
               fst (let (st', result) := request st1 cacheKey messages context fetch now in
                    match result with
                    | JS.Normal result => (st', JS.Normal result)
                    | JS.Throw _ => (st', JS.Normal (getFallbackResponse (content lastMessage)))
                    end)
               = fst (request st1 cacheKey messages context fetch now)) as Hreq.
    { intros st1. now destruct (request st1 cacheKey messages context fetch now) as [st2 [r|e]]. }
    destruct (JS.map_get _ (memoryCache (count_request st))) as [entry|]; [reflexivity|].
    rewrite semantic_tier_answer.
    destruct (persistentCache (count_request st)) as [store|] eqn:Hp.
    + destruct (IDB.get key _ store) as [entry|];
        cbn [fire app resume_nth resume fst]; [reflexivity|].
      destruct (semantic_answer (count_request st) _) as [st1 [r|]];
        cbn [fire answered app resume_nth resume fst]; [reflexivity|].
      now rewrite <- Hreq.
    + cbn [fire app resume_nth resume fst].
      destruct (semantic_answer (count_request st) _) as [st1 [r|]];
        cbn [fire answered app resume_nth resume fst]; [reflexivity|].
      now rewrite <- Hreq.
Qed.

(** The counters and the calls that are looking: every call that has
    counted its request and may yet count a hit is one request ahead. *)
Definition in_step (m : Overlap) : Prop :=
  0 <= cacheHits (fst m) /\ cacheHits (fst m) + lookups (snd m) <= totalRequests (fst m).

(** The start of a look-up counts one request, and either counts its hit
    at once or leaves one more call looking. *)
Definition started (m m' : Overlap) : Prop :=
  totalRequests (fst m') = totalRequests (fst m) + 1 /\
  ((cacheHits (fst m') = cacheHits (fst m) + 1 /\ lookups (snd m') = lookups (snd m)) \/
   (cacheHits (fst m') = cacheHits (fst m) /\ lookups (snd m') = lookups (snd m) + 1)).

(** A call that goes on counts no request, and counts a hit only as it
    stops looking. *)
Definition went_on (m m' : Overlap) : Prop :=
  totalRequests (fst m') = totalRequests (fst m) /\
  ((cacheHits (fst m') = cacheHits (fst m) /\
    lookups (snd m) - 1 <= lookups (snd m') <= lookups (snd m)) \/
   (cacheHits (fst m') = cacheHits (fst m) + 1 /\
    lookups (snd m') = lookups (snd m) - 1)).

Lemma lookups_app (l1 l2 : list Pending) : lookups (l1 ++ l2) = lookups l1 + lookups l2.
Proof. unfold lookups. rewrite filter_app, length_app. lia. Qed.

Lemma lookups_cons (p : Pending) (l : list Pending) :
  lookups (p :: l) = lookups [p] + lookups l.
Proof. apply (lookups_app [p] l). Qed.

Lemma lookups_answered (caller : Caller) (r : option ClaudeResponse) :
  lookups (answered caller r) = 0.
Proof. now destruct caller, r. Qed.

Lemma lookups_nonneg (l : list Pending) : 0 <= lookups l.
Proof. unfold lookups. lia. Qed.

Lemma checkCache_start_started (st : State) (pending : list Pending) (caller : Caller)
    (query : string) (context : option Context) :
  started (st, pending)
    (fst (checkCache_start st caller query context),
     pending ++ snd (checkCache_start st caller query context)).
Proof.
  unfold started, checkCache_start. cbn [fst snd].
  destruct (JS.map_get _ (memoryCache (count_request st))) as [entry|].
  - cbn [memory_tier fst snd cacheHits totalRequests count_request].
    rewrite lookups_app, lookups_answered. lia.
  - destruct (persistentCache (count_request st));
      cbn [fst snd cacheHits totalRequests count_request];
      rewrite lookups_app; change (lookups [_]) with 1; lia.
Qed.

Lemma resume_went_on (st : State) (p : Pending) :
  went_on (st, [p]) (resume st p).
Proof.
  unfold went_on. cbn [fst snd].
  destruct p as [caller query cacheKey [entry|]|caller [entry|]| |cacheKey messages context fetch now];
    cbn [resume semantic_answer fst snd persistent_tier cacheHits totalRequests];
    rewrite ?lookups_answered;
    change (lookups [AwaitUpdate]) with 0;
    change (lookups []) with 0;
    try change (lookups [AwaitPersistentEntry _ _ _ _]) with 1;
    try change (lookups [AwaitSimilarEntry _ _]) with 1;
    try change (lookups [AwaitFetch _ _ _ _ _]) with 0;
    try lia.
  destruct (request_counters st cacheKey messages context fetch now) as [Ht Hh].
  rewrite Ht, Hh. lia.
Qed.

Lemma resume_nth_went_on (pending : list Pending) (st : State) (k : nat) :
  went_on (st, pending) (resume_nth st pending k).
Proof.
  revert k. induction pending as [|p rest IH]; intros k.
  - unfold went_on. destruct k; cbn [resume_nth fst snd]; lia.
  - destruct k as [|k]; cbn [resume_nth].
    + pose proof (resume_went_on st p) as H. unfold went_on in *.
      destruct (resume st p) as [st' next]. cbn [fst snd] in *.
      rewrite lookups_app, (lookups_cons p rest). lia.
    + specialize (IH k). unfold went_on in *.
      destruct (resume_nth st rest k) as [st' rest']. cbn [fst snd] in *.
      rewrite (lookups_cons p rest), (lookups_cons p rest'). lia.
Qed.

(** What each event does to the counters. *)
Lemma fire_counters (m : Overlap) (e : Event) :
  match e with
  | Start (CheckCache _ _) => started m (fire m e)
  | Start (SendMessage messages _ _ _) =>
      match last_message messages with
      | Some _ => started m (fire m e)
      | None => fire m e = m
      end
  | Start GetCacheStats => fire m e = m
  | Start ClearCache =>
      totalRequests (fst (fire m e)) = 0 /\ cacheHits (fst (fire m e)) = 0 /\
      snd (fire m e) = snd m
  | Resume _ => went_on m (fire m e)
  end.
Proof.
  destruct m as [st pending].
  destruct e as [[query context|messages context fetch now| |]|k]; cbn [fire].
  - pose proof (checkCache_start_started st pending ThePage query context) as H.
    now destruct (checkCache_start st ThePage query context).
  - destruct (last_message messages) as [lastMessage|]; [|reflexivity].
    set (caller := BySendMessage _ _ _ _ _).
    pose proof (checkCache_start_started st pending caller (content lastMessage) context)
      as H.
    now destruct (checkCache_start st caller (content lastMessage) context).
  - reflexivity.
  - repeat split.
  - apply resume_nth_went_on.
Qed.

Lemma fire_in_step (m : Overlap) (e : Event) :
  in_step m ->
  match e with Start ClearCache => lookups (snd m) = 0 | _ => True end ->
  in_step (fire m e).
Proof.
  intros [H0 H] Hclear. pose proof (fire_counters m e) as Hc.
  pose proof (lookups_nonneg (snd m)) as Hl.
  unfold in_step, started, went_on in *.
  destruct e as [[query context|messages context fetch now| |]|k].
  - lia.
  - destruct (last_message messages); [lia | rewrite Hc; lia].
  - rewrite Hc. lia.
  - destruct Hc as [Ht [Hh Hp]]. rewrite Ht, Hh, Hp, Hclear. lia.
  - lia.
Qed.

Lemma overlap_in_step (events : list Event) (m : Overlap) :
  in_step m -> no_clear_during_lookup m events = true -> in_step (overlap m events).
Proof.
  revert m. induction events as [|e events IH]; intros m H Hc; [exact H|].
  cbn [overlap fold_left]. cbn [no_clear_during_lookup] in Hc.
  apply andb_prop in Hc. destruct Hc as [Hhere Hrest].
  apply IH; [|exact Hrest].
  apply fire_in_step; [exact H|].
  destruct e as [[| | |]|]; try exact I. now apply Z.eqb_eq.
Qed.

(** C9, as amended.  Each [checkCache] call adds one to [totalRequests]
    and at most one to [cacheHits]; [clearCache] resets both;
    [cacheResponse] leaves them alone, and [sendMessage] changes them only
    through its one [checkCache] call.  So after any sequence of calls on a
    fresh instance, each completed before the next starts,
    [cacheHits <= totalRequests], and the hit rate that [getCacheStats]
    reports lies between 0 and 100.

    When calls overlap, the start of a look-up, by the page or by
    [sendMessage], counts one request; a call that goes on counts no
    request, and a hit only as it stops looking.  So the same bounds hold
    in whatever order the calls start and go on, as long as no
    [clearCache] is called while a [checkCache] call has counted its
    request and still waits to look at the persistent or the semantic
    tier. *)
Theorem counters_stay_sane :
  (forall st query context,
      let st' := fst (checkCache st query context) in
      totalRequests st' = totalRequests st + 1 /\
      (cacheHits st' = cacheHits st \/ cacheHits st' = cacheHits st + 1)) /\
  (forall st, totalRequests (clearCache st) = 0 /\ cacheHits (clearCache st) = 0) /\
  (forall st k r now,
      totalRequests (cacheResponse st k r now) = totalRequests st /\
      cacheHits (cacheResponse st k r now) = cacheHits st) /\
  (forall st messages context fetch now,
      let st' := fst (sendMessage st messages context fetch now) in
      (totalRequests st' = totalRequests st /\ cacheHits st' = cacheHits st) \/
      (exists query,
          totalRequests st' = totalRequests (fst (checkCache st query context)) /\
          cacheHits st' = cacheHits (fst (checkCache st query context)))) /\
  (forall db calls,
      let st := run (create db) calls in
      0 <= cacheHits st <= totalRequests st /\
      0 <= hitRate (getCacheStats st) <= 100) /\
  (forall m e,
      match e with
      | Start (CheckCache _ _) => started m (fire m e)
      | Start (SendMessage messages _ _ _) =>
          match last_message messages with
          | Some _ => started m (fire m e)
          | None => fire m e = m
          end
      | Start GetCacheStats => fire m e = m
      | Start ClearCache =>
          totalRequests (fst (fire m e)) = 0 /\ cacheHits (fst (fire m e)) = 0 /\
          snd (fire m e) = snd m
      | Resume _ => went_on m (fire m e)
      end) /\
  (forall db events,
      no_clear_during_lookup (create db, []) events = true ->
      let (st, pending) := overlap (create db, []) events in
      0 <= cacheHits st /\
      cacheHits st + lookups pending <= totalRequests st /\
      cacheHits st <= totalRequests st /\
      0 <= hitRate (getCacheStats st) <= 100).
Proof.
  split; [exact checkCache_counters|].
  split; [intros st; split; reflexivity|].
  split; [exact cacheResponse_counters|].
  split; [exact sendMessage_counters|].
  split.
  { intros db calls st.
    assert (sane st) as H by (apply run_sane, create_sane).
    split; [exact H | apply hitRate_percentage, H]. }
  split; [exact fire_counters|].
  intros db events Hc.
  assert (in_step (create db, [])) as H.
  { pose proof (create_sane db) as Hs. unfold sane in Hs. unfold in_step.
    cbn [fst snd]. change (lookups []) with 0. lia. }
  pose proof (overlap_in_step events _ H Hc) as Hin.
  destruct (overlap (create db, []) events) as [st pending].
  unfold in_step in Hin. cbn [fst snd] in Hin. destruct Hin as [H0 H1].
  pose proof (lookups_nonneg pending) as Hl.
  split; [exact H0|]. split; [exact H1|]. split; [lia|].
  apply hitRate_percentage. unfold sane. lia.
Qed.

(** Four calls at once, on an instance over a cache database of 22
    answers, of which it has loaded 20: two look-ups and two messages, of
    which one each finds its answer in the persistent tier.  The calls go
    on out of turn; the cache is cleared when every look-up is over, while
    one message still waits for the network. *)
Definition calls_at_once : list Event :=
  [ Start (CheckCache (question 20) None);
    Start (CheckCache (question 30) None);
    Start (SendMessage (ask (question 21)) None online 7);
    Start (SendMessage (ask (question 31)) None online 8);
    Resume 1; Resume 0; Resume 3; Resume 1;
    Start GetCacheStats;
    Resume 2; Resume 1;
    Start ClearCache;
    Resume 2; Resume 0; Resume 0;
    Start (CheckCache (question 31) None) ].

Lemma counters_stay_sane_calls_at_once :
  let (st, pending) := overlap (create (persistentCache (asked 22)), []) calls_at_once in
  0 <= cacheHits st /\
  cacheHits st + lookups pending <= totalRequests st /\
  cacheHits st <= totalRequests st /\
  0 <= hitRate (getCacheStats st) <= 100.
Proof.
  apply (proj2 (proj2 (proj2 (proj2 (proj2 (proj2 counters_stay_sane)))))
           (persistentCache (asked 22)) calls_at_once).
  vm_compute. reflexivity.
Defined.

(** C9, as stated, fails when calls overlap.  Let [clearCache] run while a
    [checkCache] call waits for the persistent tier, and let the read hit:
    the call goes on with zeroed counters and counts a hit without a
    request, so [cacheHits] exceeds [totalRequests].  The next memory hit
    then reports a hit rate of 200. *)
Lemma clearCache_during_checkCache :
  let events :=
    [ Start (CheckCache (question 0) None);
      Start ClearCache;
      Resume 0; Resume 0;
      Start (CheckCache (question 0) None) ] in
  let m3 := overlap (asked 101, []) (firstn 3 events) in
  let m5 := overlap (asked 101, []) events in
  snd (fire (asked 101, []) (Start (CheckCache (question 0) None)))
    = [AwaitPersistentEntry ThePage (question 0)
         (generateCacheKey (ask (question 0)) None)
         (getPersistentCacheEntry (asked 101) (generateCacheKey (ask (question 0)) None))] /\
  getPersistentCacheEntry (asked 101) (generateCacheKey (ask (question 0)) None) <> None /\
  totalRequests (fst m3) = 0 /\ cacheHits (fst m3) = 1 /\
  snd m5 = [] /\
  totalRequests (fst m5) = 1 /\ cacheHits (fst m5) = 2 /\
  ~ cacheHits (fst m5) <= totalRequests (fst m5) /\
  hitRate (getCacheStats (fst m5)) = 200.
Proof.
  vm_compute.
  split; [reflexivity|]. split; [discriminate|].
  split; [reflexivity|]. split; [reflexivity|]. split; [reflexivity|].
  split; [reflexivity|]. split; [reflexivity|].
  split; [intros H; apply H; reflexivity | reflexivity].
Qed.

(** ** The memory tier *)

(** The memory tier after [cacheResponse], in terms of the tier before. *)
Lemma cacheResponse_memory (st : State) (k : string) (r : ClaudeResponse) (now : Z) :
  let memory := JS.map_set k (mkEntry k r now 0) (memoryCache st) in
  memoryCache (cacheResponse st k r now)
  = if JS.map_size memory >? maxMemoryCacheSize then tl memory else memory.
Proof.
  unfold cacheResponse. simpl.
  destruct (JS.map_size _ >? maxMemoryCacheSize); [|reflexivity].
  destruct (JS.map_set k (mkEntry k r now 0) (memoryCache st)) as [|[k' v'] m] eqn:E;
    [reflexivity|].
  simpl. now rewrite String.eqb_refl.
Qed.

(** X3.  [cacheResponse] never leaves the memory tier above its bound when
    it found it within. *)
Theorem cacheResponse_within_bound (st : State) (k : string) (r : ClaudeResponse)
    (now : Z) :
  JS.map_size (memoryCache st) <= maxMemoryCacheSize ->
  JS.map_size (memoryCache (cacheResponse st k r now)) <= maxMemoryCacheSize.
Proof.
  intros H. rewrite cacheResponse_memory. cbv zeta.
  pose proof (JSFacts.map_set_length k (mkEntry k r now 0) (memoryCache st)) as Hlen.
  unfold JS.map_size, maxMemoryCacheSize in *.
  destruct (Z.of_nat (List.length (JS.map_set k _ (memoryCache st))) >? 100) eqn:E.
  - destruct (JS.map_set k (mkEntry k r now 0) (memoryCache st)); simpl in *; lia.
  - rewrite Z.gtb_ltb in E. apply Z.ltb_ge in E. exact E.
Qed.

Lemma cacheResponse_within_bound_fresh :
  JS.map_size
    (memoryCache (cacheResponse (create None) "claude_dh1yp8"
                    (mkResponse "Sure." None (Some false) None) 0))
  <= maxMemoryCacheSize.
Proof.
  apply (cacheResponse_within_bound (create None) "claude_dh1yp8"
           (mkResponse "Sure." None (Some false) None) 0).
  discriminate.
Defined.

Lemma insert_all_below_capacity (keys : list string) (st : State)
    (r : ClaudeResponse) (now : Z) :
  NoDup (map fst (memoryCache st) ++ keys) ->
  (List.length (memoryCache st) + List.length keys <= 100)%nat ->
  map fst (memoryCache (insert_all st keys r now)) = map fst (memoryCache st) ++ keys.
Proof.
  revert st. induction keys as [|k keys IH]; intros st Hnd Hlen.
  - simpl. now rewrite app_nil_r.
  - assert (~ In k (map fst (memoryCache st))) as Hfresh.
    { intros Hin. apply NoDup_remove_2 in Hnd. apply Hnd. apply in_or_app. now left. }
    assert (memoryCache (cacheResponse st k r now)
            = memoryCache st ++ [(k, mkEntry k r now 0)]) as Hmem.
    { rewrite cacheResponse_memory. cbv zeta. rewrite (JSFacts.map_set_fresh _ _ _ Hfresh).
      unfold JS.map_size, maxMemoryCacheSize. rewrite length_app. simpl in *.
      destruct (Z.of_nat _ >? 100) eqn:E; [apply Z.gtb_lt in E; lia | reflexivity]. }
    change (insert_all st (k :: keys) r now)
      with (insert_all (cacheResponse st k r now) keys r now).
    rewrite IH; rewrite Hmem.
    + rewrite map_app. simpl. now rewrite <- app_assoc.
    + rewrite map_app. simpl. rewrite <- app_assoc. exact Hnd.
    + rewrite length_app. simpl in *. lia.
Qed.

(** X4.  Inserting [maxMemoryCacheSize + 1] distinct keys into an empty
    memory tier leaves all but the first, in insertion order. *)
Theorem cacheResponse_evicts_oldest (st : State) (keys : list string)
    (r : ClaudeResponse) (now : Z) :
  memoryCache st = [] ->
  NoDup keys ->
  Z.of_nat (List.length keys) = maxMemoryCacheSize + 1 ->
  map fst (memoryCache (insert_all st keys r now)) = tl keys.
Proof.
  intros Hempty Hnd Hlen. unfold maxMemoryCacheSize in Hlen.
  destruct (exists_last (l := keys)) as [front [k ->]];
    [intros ->; simpl in Hlen; lia|].
  rewrite length_app in Hlen. simpl in Hlen.
  unfold insert_all. rewrite fold_left_app. cbn [fold_left].
  pose proof (insert_all_below_capacity front st r now) as Hfront.
  rewrite Hempty in Hfront. simpl in Hfront.
  assert (NoDup front) as Hndf by (apply NoDup_remove_1 in Hnd; now rewrite app_nil_r in Hnd).
  specialize (Hfront Hndf ltac:(lia)). fold (insert_all st front r now).
  set (st1 := insert_all st front r now) in *.
  assert (~ In k (map fst (memoryCache st1))) as Hfresh.
  { rewrite Hfront. apply NoDup_remove_2 in Hnd. now rewrite app_nil_r in Hnd. }
  rewrite cacheResponse_memory. cbv zeta. rewrite (JSFacts.map_set_fresh _ _ _ Hfresh).
  assert (List.length (memoryCache st1) = List.length front) as Hl1
    by (rewrite <- Hfront; now rewrite length_map).
  unfold JS.map_size, maxMemoryCacheSize. rewrite length_app. simpl List.length.
  destruct (Z.of_nat _ >? 100) eqn:E; [|rewrite Z.gtb_ltb in E; apply Z.ltb_ge in E; lia].
  destruct (memoryCache st1) as [|e m] eqn:Hm; simpl in *.
  - destruct front; [simpl in *; lia | discriminate].
  - rewrite map_app. destruct front as [|f front']; [discriminate|].
    injection Hfront as _ Hrest. simpl. now rewrite Hrest.
Qed.

Lemma cacheResponse_evicts_oldest_question :
  map fst
    (memoryCache
       (insert_all (create None) (map question (seq 0 101))
          (mkResponse "Sure." None (Some false) None) 0))
  = tl (map question (seq 0 101)).
Proof.
  apply (cacheResponse_evicts_oldest (create None) (map question (seq 0 101))
           (mkResponse "Sure." None (Some false) None) 0).
  - reflexivity.
  - apply JSFacts.distinct_NoDup. vm_compute. reflexivity.
  - reflexivity.
Defined.

(** C4.  After 101 distinct questions the memory tier holds 100 entries
    and the first question's entry only lives in the database.  Asking the
    first question again promotes that entry without evicting anything:
    the memory tier then holds 101 entries, and a later insertion leaves
    it at 101. *)
Theorem promotion_exceeds_memory_bound :
  let st := asked 101 in
  let first := generateCacheKey (ask (question 0)) None in
  let (st', r) := checkCache st (question 0) None in
  let st'' := fst (sendMessage st' (ask (question 101)) None online 101) in
  maxMemoryCacheSize = 100 /\
  JS.map_size (memoryCache st) = 100 /\
  JS.map_has first (memoryCache st) = false /\
  r <> None /\
  JS.map_has first (memoryCache st') = true /\
  JS.map_size (memoryCache st') = 101 /\
  JS.map_size (memoryCache st'') = 101.
Proof.
  vm_compute.
  split; [reflexivity|]. split; [reflexivity|]. split; [reflexivity|].
  split; [discriminate|]. split; [reflexivity|]. split; reflexivity.
Qed.

(** ** The fuzzy tier *)

Lemma to_int32_range (z : Z) : int32 (to_int32 z).
Proof.
  unfold int32, to_int32.
  pose proof (Z.mod_pos_bound (z + 2 ^ 31) (2 ^ 32) ltac:(lia)). lia.
Qed.

Lemma hash_range (codes : list Z) (h : Z) :
  int32 h -> int32 (fold_left hash_step codes h).
Proof.
  revert h. induction codes as [|c codes IH]; intros h H; simpl; [exact H|].
  apply IH. unfold hash_step, band. apply to_int32_range.
Qed.

Lemma digits36_length (k fuel : nat) (n : Z) (acc : string) :
  (1 <= k)%nat -> 0 <= n < 36 ^ Z.of_nat k ->
  (String.length (digits36 fuel n acc) <= k + String.length acc)%nat.
Proof.
  revert fuel n acc. induction k as [|k IH]; intros fuel n acc Hk Hn; [lia|].
  destruct fuel as [|fuel]; simpl; [lia|].
  destruct (n / 36 =? 0) eqn:E; simpl; [lia|].
  apply Z.eqb_neq in E.
  destruct k as [|k].
  - exfalso. apply E. apply Z.div_small. simpl in Hn. lia.
  - etransitivity; [apply IH|simpl; lia]; [lia|].
    split; [apply Z.div_pos; lia|].
    apply Z.div_lt_upper_bound; [lia|].
    replace (Z.of_nat (S (S k))) with (Z.succ (Z.of_nat (S k))) in Hn by lia.
    rewrite Z.pow_succ_r in Hn by lia. lia.
Qed.

(** The text of an int32 in base 36: at most six digits, after a minus
    sign for a negative number. *)
Lemma toString36_int32 (h : Z) :
  int32 h ->
  exists text, (String.length text <= 6)%nat /\
    toString36 h = if h <? 0 then String "-" text else text.
Proof.
  intros Hh. unfold toString36.
  exists (digits36 (S (Z.to_nat (Z.log2 (Z.abs h)))) (Z.abs h) EmptyString).
  split; [|reflexivity].
  pose proof (digits36_length 6 (S (Z.to_nat (Z.log2 (Z.abs h)))) (Z.abs h) EmptyString) as H.
  simpl String.length in H. rewrite Nat.add_0_r in H. apply H; [lia|].
  unfold int32 in Hh. change (36 ^ Z.of_nat 6) with 2176782336.
  change (2 ^ 31) with 2147483648 in Hh. lia.
Qed.

(** No key that [generateCacheKey] can produce contains the name of an
    intent category. *)
Lemma int32_key_spells_no_category (h : Z) (category : string) :
  int32 h -> In category (map snd patterns) ->
  JS.includes ("claude_" ++ toString36 h)%string category = false.
Proof.
  intros Hh Hcat.
  destruct (toString36_int32 h Hh) as [text [Hlen ->]].
  apply not_true_is_false. intros Hinc.
  simpl in Hcat.
  repeat destruct Hcat as [<-|Hcat]; try contradiction;
    cbn in Hinc;
    (destruct (h <? 0);
     [ cbn in Hinc | ];
     apply JSFacts.includes_length in Hinc; simpl in Hinc; lia).
Qed.

Lemma generateCacheKey_spells_no_category (messages : list ClaudeMessage)
    (context : option Context) (category : string) :
  In category (map snd patterns) ->
  JS.includes (generateCacheKey messages context) category = false.
Proof.
  intros H. unfold generateCacheKey.
  apply int32_key_spells_no_category; [|exact H].
  apply hash_range. unfold int32. lia.
Qed.

Lemma first_including_generated (category : string)
    (entries : list (string * CacheEntry)) :
  In category (map snd patterns) ->
  (forall k e, In (k, e) entries -> generated k) ->
  first_including category entries = None.
Proof.
  intros Hcat. induction entries as [|[k e] entries IH]; intros Hgen; simpl; [reflexivity|].
  destruct (Hgen k e (or_introl eq_refl)) as [messages [context ->]].
  rewrite (generateCacheKey_spells_no_category messages context category Hcat).
  apply IH. intros k' e' H. apply (Hgen k' e'). now right.
Qed.

Lemma classify_in_category (ps : list ((string -> bool) * string)) (query category : string) :
  classify_in ps query = Some category -> In category (map snd ps).
Proof.
  induction ps as [|[test cat] ps IH]; simpl; [discriminate|].
  destruct (test query); [intros [= ->]; now left | intros H; right; now apply IH].
Qed.

Lemma findSimilarCacheEntry_generated (st : State) (query : string) :
  keys_generated st -> findSimilarCacheEntry st query = None.
Proof.
  intros [Hmem _]. unfold findSimilarCacheEntry.
  destruct (classify query) as [category|] eqn:E; [|reflexivity].
  apply first_including_generated; [|exact Hmem].
  now apply (classify_in_category patterns query).
Qed.

Lemma cacheResponse_generated (st : State) (messages : list ClaudeMessage)
    (context : option Context) (r : ClaudeResponse) (now : Z) :
  keys_generated st ->
  keys_generated (cacheResponse st (generateCacheKey messages context) r now).
Proof.
  intros [Hmem Hdb]. unfold cacheResponse.
  set (k := generateCacheKey messages context).
  set (entry := mkEntry k r now 0).
  assert (forall k' e', In (k', e') (JS.map_set k entry (memoryCache st)) -> generated k')
    as Hset.
  { intros k' e' H. apply JSFacts.map_set_In in H. destruct H as [[= -> _]|H].
    - now exists messages, context.
    - now apply (Hmem k' e'). }
  split; simpl.
  - intros k' e' H.
    destruct (JS.map_size _ >? maxMemoryCacheSize); [|now apply (Hset k' e')].
    destruct (JS.map_first_key _); [|now apply (Hset k' e')].
    apply JSFacts.map_delete_In in H. now apply (Hset k' e').
  - intros store e Hs Hin. destruct (persistentCache st) as [store0|]; [|discriminate].
    simpl in Hs. injection Hs as <-. apply IDBFacts.insert_In_inv in Hin.
    destruct Hin as [->|Hin]; [now exists messages, context | now apply (Hdb store0)].
Qed.

Lemma count_request_generated (st : State) :
  keys_generated st -> keys_generated (count_request st).
Proof. intros H. exact H. Qed.

Lemma memory_set_generated (st : State) (k : string) (entry : CacheEntry)
    (db : option (IDB.objectStore CacheEntry)) (t h : Z) :
  generated k ->
  keys_generated st ->
  (forall store e, db = Some store -> In e store -> generated (key e)) ->
  keys_generated (mkState (JS.map_set k entry (memoryCache st)) db t h).
Proof.
  intros Hk [Hmem _] Hdb. split; simpl; [|exact Hdb].
  intros k' e' H. apply JSFacts.map_set_In in H.
  destruct H as [[= -> _]|H]; [exact Hk | now apply (Hmem k' e')].
Qed.

Lemma semantic_tier_generated (st : State) (query : string) :
  keys_generated st -> keys_generated (fst (semantic_tier st query)).
Proof.
  intros H. unfold semantic_tier.
  destruct (findSimilarCacheEntry st query); simpl; exact H.
Qed.

Lemma checkCache_generated (st : State) (query : string) (context : option Context) :
  keys_generated st -> keys_generated (fst (checkCache st query context)).
Proof.
  intros H. apply count_request_generated in H. unfold checkCache.
  set (k := generateCacheKey [mkMessage user query] context).
  assert (generated k) as Hk by now exists [mkMessage user query], context.
  set (st1 := count_request st) in *.
  destruct (JS.map_get k (memoryCache st1)) as [entry|] eqn:Eget.
  - apply memory_set_generated; [exact Hk | exact H | apply H].
  - destruct (getPersistentCacheEntry st1 k) as [entry|] eqn:Eg.
    + apply memory_set_generated; [exact Hk | exact H |].
      unfold getPersistentCacheEntry in Eg. destruct H as [_ Hdb].
      destruct (persistentCache st1) as [store|]; [|discriminate].
      intros store' e [= <-] Hin. unfold updatePersistentCacheHits in Hin.
      rewrite Eg in Hin. apply IDBFacts.insert_In_inv in Hin.
      destruct Hin as [->|Hin]; [|now apply (Hdb store)].
      simpl. apply (Hdb store entry eq_refl).
      now apply (IDBFacts.get_Some_In key k store).
    + now apply semantic_tier_generated.
Qed.

Lemma request_generated (st : State) (messages : list ClaudeMessage)
    (context : option Context) (fetch : Network) (now : Z) :
  keys_generated st ->
  keys_generated
    (fst (request st (generateCacheKey messages context) messages context fetch now)).
Proof.
  intros H. unfold request.
  repeat match goal with
         | |- context [match ?x with _ => _ end] => destruct x; simpl
         | |- context [if ?b then _ else _] => destruct b; simpl
         end; try exact H; now apply cacheResponse_generated.
Qed.

Lemma sendMessage_generated (st : State) (messages : list ClaudeMessage)
    (context : option Context) (fetch : Network) (now : Z) :
  keys_generated st -> keys_generated (fst (sendMessage st messages context fetch now)).
Proof.
  intros H. unfold sendMessage.
  destruct (last_message messages) as [lastMessage|]; simpl; [|exact H].
  pose proof (checkCache_generated st (content lastMessage) context H) as H1.
  destruct (checkCache st (content lastMessage) context) as [st1 [r|]]; simpl in *;
    [exact H1|].
  pose proof (request_generated st1 messages context fetch now H1) as H2.
  destruct (request st1 _ messages context fetch now) as [st2 [result|e]]; exact H2.
Qed.

Lemma step_generated (st : State) (c : Call) :
  keys_generated st -> keys_generated (step st c).
Proof.
  intros H. destruct c as [query context|messages context fetch now| |]; simpl.
  - now apply checkCache_generated.
  - now apply sendMessage_generated.
  - exact H.
  - split; simpl; [intros k e [] |].
    intros store e Hs Hin. destruct (persistentCache st); [|discriminate].
    simpl in Hs. injection Hs as <-. destruct Hin.
Qed.

Lemma run_generated (calls : list Call) (st : State) :
  keys_generated st -> keys_generated (run st calls).
Proof.
  revert st. induction calls as [|c calls IH]; intros st H; simpl; [exact H|].
  apply IH, step_generated, H.
Qed.

(** X5.  On an instance that starts over an empty cache database, or
    without one, the fuzzy tier never returns an entry, whatever calls came
    before and whatever the query. *)
Theorem fuzzy_tier_never_hits (available : bool) (calls : list Call) (query : string) :
  findSimilarCacheEntry
    (run (create (if available then Some [] else None)) calls) query = None.
Proof.
  apply findSimilarCacheEntry_generated, run_generated.
  destruct available; split; simpl.
  - intros k e [].
  - intros store e [= <-] [].
  - intros k e [].
  - intros store e H. discriminate H.
Qed.

(** C5.  With the answer to one error-fixing question cached, a second
    question of the same intent category gets nothing from the fuzzy tier:
    the cached key is a hash and does not spell the category. *)
Theorem fuzzy_tier_misses_same_intent :
  let st := fst (sendMessage (create (Some [])) (ask "fix the error in my code")
                   None online 1) in
  classify "fix the error in my code" = Some "error-fix" /\
  classify "please fix this error" = Some "error-fix" /\
  map fst (memoryCache st) = ["claude_-76n5n0"] /\
  findSimilarCacheEntry st "please fix this error" = None /\
  snd (checkCache st "please fix this error" None) = None.
Proof. vm_compute. repeat split. Qed.

(** ** sendMessage *)

Lemma last_message_nonempty (messages : list ClaudeMessage) :
  messages <> [] -> exists m, last_message messages = Some m.
Proof.
  unfold last_message.
  induction messages as [|m [|m' rest] IH]; intros H.
  - contradiction.
  - now exists m.
  - destruct IH as [x Hx]; [discriminate|]. exists x. exact Hx.
Qed.

Lemma request_failure (st : State) (k : string) (messages : list ClaudeMessage)
    (context : option Context) (fetch : Network) (now : Z) :
  no_reply (fetch (request_body (with_system_message context messages))) = true ->
  exists e, request st k messages context fetch now = (st, JS.Throw e).
Proof.
  unfold request, no_reply.
  destruct (fetch _) as [|ok status body]; [eauto|].
  destruct ok; simpl; [|eauto].
  destruct body as [data|]; [|eauto].
  destruct (JSON.prop data "error") as [err|e]; [|eauto].
  destruct (JSON.truthy err); [eauto|discriminate].
Qed.

(** C10, as amended.  On a message list that is not empty, and a context
    of JSON values, [sendMessage] resolves with a response, whatever the
    cache holds and whatever the network does.  When the cache hits, the
    response is the cached one, as [checkCache] answers it.  When the
    cache misses and the fetch throws, the response is not ok, its body is
    not JSON, or the reply carries a truthy [error], the response is the
    fallback derived from the last message's content.  On the empty list
    the call throws a [TypeError] and leaves the instance as it was. *)
Theorem sendMessage_resolves (st : State) (messages : list ClaudeMessage)
    (context : option Context) (fetch : Network) (now : Z) :
  (messages <> [] ->
   exists st' r,
     sendMessage st messages context fetch now = (st', JS.Normal r) /\
     match snd (checkCache st (last_content messages) context) with
     | Some cachedResponse =>
         r = cachedResponse /\ st' = fst (checkCache st (last_content messages) context)
     | None =>
         no_reply (fetch (request_body (with_system_message context messages))) = true ->
         r = getFallbackResponse (last_content messages)
     end) /\
  (messages = [] ->
   exists message,
     sendMessage st messages context fetch now = (st, JS.Throw (JS.TypeError message))).
Proof.
  split.
  - intros Hne. destruct (last_message_nonempty messages Hne) as [m Hm].
    unfold sendMessage, last_content. rewrite Hm.
    destruct (checkCache st (content m) context) as [st1 [cachedResponse|]] eqn:Hc;
      cbn [fst snd].
    + exists st1, cachedResponse. repeat split.
    + destruct (request st1 (generateCacheKey messages context) messages context fetch now)
        as [st2 [result|e]] eqn:Hr.
      * exists st2, result. split; [reflexivity|].
        intros Hfail.
        destruct (request_failure st1 (generateCacheKey messages context)
                    messages context fetch now Hfail) as [e He].
        congruence.
      * exists st2, (getFallbackResponse (content m)). split; reflexivity.
  - intros ->. eexists. reflexivity.
Qed.

Lemma sendMessage_resolves_offline :
  exists st' r,
    sendMessage (create None) (ask "cannot find module react") None offline 0
      = (st', JS.Normal r) /\
    match snd (checkCache (create None) (last_content (ask "cannot find module react")) None)
    with
    | Some cachedResponse =>
        r = cachedResponse /\
        st' = fst (checkCache (create None)
                     (last_content (ask "cannot find module react")) None)
    | None =>
        no_reply (offline (request_body (with_system_message None
                                           (ask "cannot find module react")))) = true ->
        r = getFallbackResponse (last_content (ask "cannot find module react"))
    end.
Proof.
  apply (proj1 (sendMessage_resolves (create None) (ask "cannot find module react")
                  None offline 0)).
  discriminate.
Defined.

(** C10, as stated, fails on the empty message list: the last message is
    read before the [try] block is entered, so the call throws, whatever
    the network does. *)
Lemma sendMessage_rejects_empty_list :
  sendMessage (create None) [] None offline 0 =
    (create None,
     JS.Throw (JS.TypeError "Cannot read properties of undefined (reading 'content')")) /\
  ~ (exists st' r, sendMessage (create None) [] None offline 0 = (st', JS.Normal r)).
Proof.
  split; [reflexivity|].
  intros [st' [r H]]. discriminate H.
Qed.

End CacheProperties.

(* ================================================================= *)
(** * Properties of the offline queue *)
(* ================================================================= *)

Module QueueProperties.

Import ServiceWorker.

(** ** Scenarios *)

(** The descriptor of the [i]-th chat request that failed while offline. *)
Definition descriptor (i : nat) : RequestData :=
  mkRequestData "https://editor.example/api/claude" "POST"
    [("content-type", "application/json")]
    (JSON.JObject
       [("messages",
         JSON.JArray
           [JSON.JObject
              [("role", JSON.JString "user");
               ("content", JSON.JString ("message " ++ JSON.decimal (Z.of_nat i))%string)]])])
    "2023-11-14T22:13:20.000Z".

(** One call of [addToOfflineQueue]: the descriptor and what [Date.now()]
    returns. *)
Definition Enqueue : Type := (RequestData * Z)%type.

(** A sequence of [addToOfflineQueue] calls, each awaited before the next. *)
Definition enqueue_each (store : Store) (calls : list Enqueue) : Store :=
  fold_left (fun s call => fst (addToOfflineQueue s (fst call) (snd call))) calls store.

(** [n] requests, one per millisecond. *)
Definition burst (n : nat) : list Enqueue :=
  map (fun i => (descriptor i, 1700000000000 + Z.of_nat i)) (seq 1 n).

Definition always_ok : QueueItem -> Replay := fun _ => Responded true.

(** The item a call admits. *)
Definition admitted_item (requestData : RequestData) (now : Z) : QueueItem :=
  mkItem (JSON.decimal now) requestData.

(** ** Admission *)

(** X6.  [addToOfflineQueue] never takes an item out of the store, whatever
    its size: every stored item stays, and when the new identifier is free
    the store grows by one. *)
Theorem addToOfflineQueue_never_drops (store : Store) (requestData : RequestData)
    (now : Z) :
  let store' := fst (addToOfflineQueue store requestData now) in
  incl store store' /\
  (IDB.get id (JSON.decimal now) store = None ->
   Permutation store' (admitted_item requestData now :: store)).
Proof.
  unfold addToOfflineQueue, addToOfflineQueue_from, admitted_item. simpl.
  unfold IDB.add. simpl.
  destruct (IDB.get id (JSON.decimal now) store) eqn:E; simpl.
  - split; [apply incl_refl | discriminate].
  - split.
    + intros item Hin. apply IDBFacts.insert_keeps; [exact Hin|].
      now apply (IDBFacts.get_None_key id _ _ item E).
    + intros _. now apply IDBFacts.insert_fresh_Permutation.
Qed.

(** Were [queue] bound to the array of the stored items, as with a store
    whose calls return promises, the admission would keep a queue of at
    most [MAX_QUEUE_SIZE] items within that size, and at capacity would
    drop the first stored item for the new one. *)
Lemma admission_from_an_array (store : Store) (requestData : RequestData) (now : Z) :
  JS.array_length store <= MAX_QUEUE_SIZE ->
  let store' :=
    fst (addToOfflineQueue_from (Array (IDB.getAll store)) store requestData now) in
  JS.array_length store' <= MAX_QUEUE_SIZE /\
  (JS.array_length store = MAX_QUEUE_SIZE ->
   IDB.get id (JSON.decimal now) (tl store) = None ->
   Permutation store' (admitted_item requestData now :: tl store)).
Proof.
  unfold addToOfflineQueue_from, admitted_item, IDB.getAll, JS.array_length, MAX_QUEUE_SIZE.
  intros Hlen. cbn [length_of ge].
  unfold JS.array_length.
  destruct (Z.of_nat (List.length store) >=? 10) eqn:E.
  - apply Z.geb_le in E.
    destruct store as [|oldest rest]; [simpl in E; lia|].
    cbn [IDB.delete]. rewrite String.eqb_refl. cbn [fst tl].
    destruct (IDB.add id (mkItem (JSON.decimal now) requestData) rest) as [added|] eqn:Hadd;
      cbn [fst].
    + pose proof (IDBFacts.add_Permutation _ _ _ _ Hadd) as Hperm.
      split; [|intros _ _; exact Hperm].
      rewrite (Permutation_length Hperm). simpl List.length in *. lia.
    + split; [exact Hlen|]. intros _ Hfree.
      unfold IDB.add in Hadd. cbn [id] in Hadd. rewrite Hfree in Hadd. discriminate.
  - rewrite Z.geb_leb in E. apply Z.leb_gt in E.
    split; [|lia].
    destruct (IDB.add id (mkItem (JSON.decimal now) requestData) store) as [added|] eqn:Hadd;
      cbn [fst]; [|lia].
    rewrite (Permutation_length (IDBFacts.add_Permutation _ _ _ _ Hadd)).
    simpl List.length. lia.
Qed.

(** C6.  Eleven requests queued one per millisecond into an empty store
    leave eleven items, the first among them: [queue] is bound to the
    request object, whose [length] is [undefined], so the capacity test is
    false and nothing is deleted. *)
Theorem queue_grows_past_capacity :
  let store := enqueue_each [] (burst 11) in
  MAX_QUEUE_SIZE = 10 /\
  length_of (await (getAll store)) = Undefined /\
  ge (length_of (await (getAll store))) (Number MAX_QUEUE_SIZE) = false /\
  JS.array_length store = 11 /\
  option_map data (IDB.get id "1700000000001" store) = Some (descriptor 1).
Proof. vm_compute. repeat split. Qed.

(** C7.  [processOfflineQueue] replays nothing: iterating the request
    object [queue] is bound to throws before the first pass of the loop,
    so no item is fetched, none is deleted and no client is told, whatever
    the store holds and whatever the network would answer. *)
Theorem processOfflineQueue_replays_nothing :
  forall (store : Store) (fetch : QueueItem -> Replay),
    let r := processOfflineQueue store fetch in
    attempted r = [] /\ store_after r = store /\ posted r = [].
Proof. intros store fetch. repeat split. Qed.

End QueueProperties.

(* ================================================================= *)
(** * More facts about sorted arrays, maps and object stores *)
(* ================================================================= *)

Module SortedFacts.

Lemma In_firstn {A : Type} (n : nat) (l : list A) (x : A) : In x (firstn n l) -> In x l.
Proof.
  revert l. induction n as [|n IH]; intros l H; [contradiction|].
  destruct l as [|y l]; [exact H|]. destruct H as [H|H]; [now left | right; now apply IH].
Qed.

Lemma NoDup_map_firstn {A B : Type} (f : A -> B) (n : nat) (xs : list A) :
  NoDup (map f xs) -> NoDup (map f (firstn n xs)).
Proof.
  revert xs. induction n as [|n IH]; intros xs H; [constructor|].
  destruct xs as [|x xs]; [constructor|]. simpl in *.
  inversion H as [|? ? Hnotin Hnd]; subst. constructor; [|now apply IH].
  intros Hin. apply Hnotin. apply in_map_iff in Hin. destruct Hin as [y [Hy Hin]].
  apply in_map_iff. exists y. split; [exact Hy|]. now apply (In_firstn n).
Qed.

Section ByKey.
Context {A : Type} (key : A -> Z).

Let desc (a b : A) : Z := key b - key a.

(** In an array sorted greatest first, what comes later is no greater. *)
Lemma descending_app (l1 l2 : list A) :
  JSFacts.descending key (l1 ++ l2) ->
  forall a b, In a l1 -> In b l2 -> key b <= key a.
Proof.
  unfold JSFacts.descending.
  induction l1 as [|x l1 IH]; simpl; intros Hs a b Ha Hb; [contradiction|].
  inversion Hs as [|? ? Hl Hx]; subst. destruct Ha as [<-|Ha].
  - rewrite Forall_forall in Hx. apply Hx. apply in_or_app. now right.
  - now apply IH.
Qed.

Lemma descending_filter (p : A -> bool) (l : list A) :
  JSFacts.descending key l -> JSFacts.descending key (filter p l).
Proof.
  unfold JSFacts.descending. induction l as [|x l IH]; simpl; intros Hs; [constructor|].
  inversion Hs as [|? ? Hl Hx]; subst.
  destruct (p x); [|now apply IH]. constructor; [now apply IH|].
  rewrite Forall_forall in *. intros y Hy. apply filter_In in Hy. now apply Hx.
Qed.

Lemma sort_insert_front (x : A) (l : list A) :
  (forall y, In y l -> key y <= key x) -> JS.sort_insert desc x l = x :: l.
Proof.
  destruct l as [|y l]; simpl; intros H; [reflexivity|].
  unfold desc. specialize (H y (or_introl eq_refl)).
  destruct (key y - key x <=? 0) eqn:E; [reflexivity|]. apply Z.leb_gt in E. lia.
Qed.

Lemma filter_sort_insert (p : A -> bool) (x : A) (l : list A) :
  JSFacts.descending key l ->
  filter p (JS.sort_insert desc x l)
  = if p x then JS.sort_insert desc x (filter p l) else filter p l.
Proof.
  unfold JSFacts.descending.
  induction l as [|y l IH]; intros Hs; simpl.
  - now destruct (p x).
  - inversion Hs as [|? ? Hl Hy]; subst. rewrite Forall_forall in Hy.
    unfold desc at 1. destruct (key y - key x <=? 0) eqn:E.
    + apply Z.leb_le in E. simpl. destruct (p x) eqn:Px; [|reflexivity].
      rewrite sort_insert_front; [reflexivity|].
      intros z Hz. destruct (p y) eqn:Py.
      * destruct Hz as [<-|Hz]; [lia|].
        apply filter_In in Hz. specialize (Hy z (proj1 Hz)). lia.
      * apply filter_In in Hz. specialize (Hy z (proj1 Hz)). lia.
    + apply Z.leb_gt in E. simpl. rewrite (IH Hl).
      destruct (p y) eqn:Py; destruct (p x) eqn:Px; try reflexivity.
      simpl. unfold desc at 2.
      destruct (key y - key x <=? 0) eqn:E'; [apply Z.leb_le in E'; lia | reflexivity].
Qed.

(** Sorting and selecting commute: the sort is stable. *)
Lemma filter_sort (p : A -> bool) (l : list A) :
  filter p (JS.sort desc l) = JS.sort desc (filter p l).
Proof.
  induction l as [|x l IH]; simpl; [reflexivity|].
  rewrite filter_sort_insert by apply (JSFacts.sort_descending key).
  destruct (p x); simpl; now rewrite IH.
Qed.

End ByKey.

(** The sum of a numeric property over an array. *)
Definition total {A : Type} (f : A -> Z) (l : list A) : Z :=
  fold_right (fun s acc => f s + acc) 0 l.

Lemma fold_left_total {A : Type} (f : A -> Z) (l : list A) (acc : Z) :
  fold_left (fun sum s => sum + f s) l acc = acc + total f l.
Proof.
  revert acc. induction l as [|x l IH]; intros acc; simpl; [lia|]. rewrite IH. lia.
Qed.

Lemma total_Permutation {A : Type} (f : A -> Z) (l l' : list A) :
  Permutation l l' -> total f l = total f l'.
Proof. induction 1; simpl; lia. Qed.

Lemma total_map {A B : Type} (g : A -> B) (f : B -> Z) (l : list A) :
  total f (map g l) = total (fun x => f (g x)) l.
Proof. induction l as [|x l IH]; simpl; [reflexivity | now rewrite IH]. Qed.

Lemma fold_min_least (l : list Z) (t : Z) :
  let m := fold_left Z.min l t in
  (m <= t /\ forall x, In x l -> m <= x) /\ (m = t \/ In m l).
Proof.
  revert t. induction l as [|y l IH]; intros t; simpl.
  - split; [split; [lia | tauto] | now left].
  - destruct (IH (Z.min t y)) as [[H1 H2] H3]. split; [split|].
    + lia.
    + intros x [<-|Hx]; [lia | now apply H2].
    + destruct H3 as [H3|H3]; [|right; now right].
      destruct (Z.min_spec t y) as [[_ E]|[_ E]]; [left | right; left]; congruence.
Qed.

Lemma fold_max_greatest (l : list Z) (t : Z) :
  let m := fold_left Z.max l t in
  (t <= m /\ forall x, In x l -> x <= m) /\ (m = t \/ In m l).
Proof.
  revert t. induction l as [|y l IH]; intros t; simpl.
  - split; [split; [lia | tauto] | now left].
  - destruct (IH (Z.max t y)) as [[H1 H2] H3]. split; [split|].
    + lia.
    + intros x [<-|Hx]; [lia | now apply H2].
    + destruct H3 as [H3|H3]; [|right; now right].
      destruct (Z.max_spec t y) as [[_ E]|[_ E]]; [right; left | left]; congruence.
Qed.

End SortedFacts.

Module MapLookups.

Section Lookups.
Context {V : Type}.

Lemma map_get_set_same (k : string) (v : V) (m : JS.Map V) :
  JS.map_get k (JS.map_set k v m) = Some v.
Proof.
  induction m as [|[k' v'] m IH]; simpl.
  - now rewrite String.eqb_refl.
  - destruct (k' =? k)%string eqn:E; simpl; [now rewrite String.eqb_refl|].
    now rewrite E.
Qed.

Lemma map_get_set_other (k k' : string) (v : V) (m : JS.Map V) :
  k' <> k -> JS.map_get k' (JS.map_set k v m) = JS.map_get k' m.
Proof.
  intros Hne. induction m as [|[k0 v0] m IH]; simpl.
  - destruct (k =? k')%string eqn:E; [apply String.eqb_eq in E; congruence | reflexivity].
  - destruct (k0 =? k)%string eqn:E; simpl.
    + apply String.eqb_eq in E. subst k0.
      destruct (k =? k')%string eqn:E'; [apply String.eqb_eq in E'; congruence | reflexivity].
    + destruct (k0 =? k')%string; [reflexivity | exact IH].
Qed.

Lemma map_get_None (k : string) (m : JS.Map V) :
  JS.map_get k m = None <-> ~ In k (map fst m).
Proof.
  induction m as [|[k' v'] m IH]; simpl; [tauto|].
  destruct (k' =? k)%string eqn:E.
  - apply String.eqb_eq in E. split; [discriminate | intros H; exfalso; apply H; now left].
  - apply String.eqb_neq in E. rewrite IH. tauto.
Qed.


Lemma map_delete_length (k : string) (m : JS.Map V) :
  (List.length (JS.map_delete k m) <= List.length m)%nat.
Proof.
  induction m as [|[k' v'] m IH]; simpl; [lia|].
  destruct (k' =? k)%string; simpl; lia.
Qed.

(** [set] and [delete] keep the keys of a [Map] distinct. *)
Lemma map_set_keys (k : string) (v : V) (m : JS.Map V) :
  NoDup (map fst m) -> NoDup (map fst (JS.map_set k v m)).
Proof.
  induction m as [|[k' v'] m IH]; simpl; intros H.
  - constructor; [tauto | constructor].
  - inversion H as [|? ? Hnotin Hnd]; subst.
    destruct (k' =? k)%string eqn:E; simpl.
    + apply String.eqb_eq in E. subst k'. now constructor.
    + constructor; [|now apply IH].
      intros Hin. apply in_map_iff in Hin. destruct Hin as [[k0 v0] [Hk Hin]].
      simpl in Hk. subst k0.
      apply JSFacts.map_set_In in Hin. destruct Hin as [[= -> _]|Hin].
      * rewrite String.eqb_refl in E. discriminate.
      * apply Hnotin. apply in_map_iff. now exists (k', v0).
Qed.

Lemma map_delete_keys (k : string) (m : JS.Map V) :
  NoDup (map fst m) -> NoDup (map fst (JS.map_delete k m)).
Proof.
  induction m as [|[k' v'] m IH]; simpl; intros H; [constructor|].
  inversion H as [|? ? Hnotin Hnd]; subst.
  destruct (k' =? k)%string; simpl; [exact Hnd|].
  constructor; [|now apply IH].
  intros Hin. apply Hnotin. apply in_map_iff in Hin. destruct Hin as [[k0 v0] [Hk Hin]].
  apply in_map_iff. exists (k0, v0). split; [exact Hk|]. now apply (JSFacts.map_delete_In k).
Qed.

Lemma map_get_delete_same (k : string) (m : JS.Map V) :
  NoDup (map fst m) -> JS.map_get k (JS.map_delete k m) = None.
Proof.
  induction m as [|[k' v'] m IH]; simpl; intros H; [reflexivity|].
  inversion H as [|? ? Hnotin Hnd]; subst.
  destruct (k' =? k)%string eqn:E.
  - apply String.eqb_eq in E. subst k'. now apply map_get_None.
  - simpl. rewrite E. now apply IH.
Qed.

Lemma map_get_delete_other (k k' : string) (m : JS.Map V) :
  k' <> k -> JS.map_get k' (JS.map_delete k m) = JS.map_get k' m.
Proof.
  intros Hne. induction m as [|[k0 v0] m IH]; simpl; [reflexivity|].
  destruct (k0 =? k)%string eqn:E.
  - apply String.eqb_eq in E. subst k0.
    destruct (k =? k')%string eqn:E'; [apply String.eqb_eq in E'; congruence | reflexivity].
  - simpl. destruct (k0 =? k')%string; [reflexivity | exact IH].
Qed.

End Lookups.

End MapLookups.

Module StoreLookups.

Section Lookups.
Context {R : Type} (keyPath : R -> string).

Lemma get_delete_same (k : string) (s : IDB.objectStore R) :
  IDBFacts.unique_keys keyPath s -> IDB.get keyPath k (IDB.delete keyPath k s) = None.
Proof.
  unfold IDBFacts.unique_keys. induction s as [|r s IH]; simpl; intros H; [reflexivity|].
  inversion H as [|? ? Hnotin Hnd]; subst.
  destruct (keyPath r =? k)%string eqn:E.
  - apply String.eqb_eq in E. subst k.
    destruct (IDB.get keyPath (keyPath r) s) as [x|] eqn:G; [|reflexivity].
    apply IDBFacts.get_Some_In in G. destruct G as [Hin Hk].
    exfalso. apply Hnotin. rewrite <- Hk. now apply in_map.
  - simpl. rewrite E. now apply IH.
Qed.

Lemma get_delete_other (k k' : string) (s : IDB.objectStore R) :
  k' <> k -> IDB.get keyPath k' (IDB.delete keyPath k s) = IDB.get keyPath k' s.
Proof.
  intros Hne. induction s as [|r s IH]; simpl; [reflexivity|].
  destruct (keyPath r =? k)%string eqn:E.
  - apply String.eqb_eq in E.
    destruct (keyPath r =? k')%string eqn:E'; [|reflexivity].
    apply String.eqb_eq in E'. congruence.
  - simpl. destruct (keyPath r =? k')%string; [reflexivity | exact IH].
Qed.

Lemma delete_absent (k : string) (s : IDB.objectStore R) :
  IDB.get keyPath k s = None -> IDB.delete keyPath k s = s.
Proof.
  induction s as [|r s IH]; simpl; [reflexivity|].
  destruct (keyPath r =? k)%string; [discriminate|]. intros H. now rewrite IH.
Qed.

Lemma get_of_absent_key (k : string) (s : IDB.objectStore R) :
  (forall x, In x s -> keyPath x <> k) -> IDB.get keyPath k s = None.
Proof.
  induction s as [|r s IH]; intros H; simpl; [reflexivity|].
  destruct (keyPath r =? k)%string eqn:E.
  - apply String.eqb_eq in E. exfalso. apply (H r); [now left | exact E].
  - apply IH. intros x Hx. apply H. now right.
Qed.

Lemma get_In_unique (s : IDB.objectStore R) (x : R) :
  IDBFacts.unique_keys keyPath s -> In x s -> IDB.get keyPath (keyPath x) s = Some x.
Proof.
  unfold IDBFacts.unique_keys.
  induction s as [|r s IH]; simpl; intros H Hin; [contradiction|].
  inversion H as [|? ? Hnotin Hnd]; subst.
  destruct Hin as [->|Hin]; [now rewrite String.eqb_refl|].
  destruct (keyPath r =? keyPath x)%string eqn:E; [|now apply IH].
  apply String.eqb_eq in E. exfalso. apply Hnotin. rewrite E. now apply in_map.
Qed.

(** Two records of a store with the same key are one record. *)
Lemma unique_keys_inj (s : IDB.objectStore R) (x y : R) :
  IDBFacts.unique_keys keyPath s -> In x s -> In y s -> keyPath x = keyPath y -> x = y.
Proof.
  intros Hu Hx Hy E.
  pose proof (get_In_unique s x Hu Hx) as Gx.
  pose proof (get_In_unique s y Hu Hy) as Gy.
  rewrite E in Gx. congruence.
Qed.

Lemma delete_gone (k : string) (s : IDB.objectStore R) (x : R) :
  IDBFacts.unique_keys keyPath s -> In x (IDB.delete keyPath k s) -> keyPath x <> k.
Proof.
  intros Hu Hin E.
  pose proof (get_delete_same k s Hu) as G.
  apply (IDBFacts.get_None_key keyPath _ _ x G Hin). exact E.
Qed.

End Lookups.

End StoreLookups.

(* ================================================================= *)
(** * The snapshot store through its life: reads, deletion, retention *)
(* ================================================================= *)

Module SnapshotLifecycle.

Import SnapshotManager SnapshotProperties.

(** ** Scenarios *)

(** A store of 51 plain snapshots, taken at times 1 to 51. *)
Definition plain_51 : Store := fst (save_each [] (ticks (quick_save None None) 1 51)).

(** The oldest of them. *)
Definition first_plain : Snapshot := with_id "snap_1" (quick_save None None 1).

(** A milestone, stored. *)
Definition milestone_b : Snapshot := with_id "snap_b" (quick_save (Some true) None 2000).

(** ** Reads *)

Lemma getMilestones_filter (db : Store) :
  getMilestones db = filter (fun s => JS.truthy (isMilestone s)) (getAllSnapshots db).
Proof.
  unfold getMilestones, getAllSnapshots, IDB.getAll.
  rewrite (SortedFacts.filter_sort (@timestamp string) (fun s => JS.truthy (isMilestone s))).
  f_equal. induction db as [|s db IH]; simpl; [reflexivity|].
  change (JS.truthy (isMilestone (revive s))) with (JS.truthy (isMilestone s)).
  unfold JS.truthy at 1 3.
  destruct (isMilestone s) as [[|]|]; simpl; now rewrite IH.
Qed.

(** X8.  [getAllSnapshots] answers with every stored snapshot, each once,
    its files read back into a [Map], and no snapshot before a newer one;
    [getMilestones] answers with the milestones among them, in the same
    order. *)
Theorem getAllSnapshots_newest_first (db : Store) :
  Permutation (getAllSnapshots db) (map revive db) /\
  JSFacts.descending (@timestamp string) (getAllSnapshots db) /\
  getMilestones db = filter (fun s => JS.truthy (isMilestone s)) (getAllSnapshots db).
Proof.
  split; [|split].
  - apply JSFacts.sort_Permutation.
  - apply (JSFacts.sort_descending (@timestamp string)).
  - apply getMilestones_filter.
Qed.

(** X9.  A snapshot that [saveSnapshot] resolved with is what
    [getSnapshot] answers under its identifier, which is [snap_] and the
    value [nanoid] drew. *)
Theorem saveSnapshot_then_getSnapshot (db db' : Store) (snapshot : Draft) (nano : string)
    (saved : Snapshot) :
  files_of_a_Map snapshot ->
  saveSnapshot db snapshot nano = (db', JS.Normal saved) ->
  saved = with_id ("snap_" ++ nano)%string snapshot /\
  getSnapshot db' (id saved) = Some saved.
Proof.
  intros Hfiles. unfold saveSnapshot.
  match goal with |- context [IDB.add _ ?r ?d] => set (stored := r); set (db2 := d) end.
  unfold IDB.add. destruct (IDB.get (@id string) (id stored) db2) eqn:E; [discriminate|].
  intros [= <- <-]. split; [reflexivity|].
  unfold getSnapshot.
  match goal with |- context [IDB.get _ ?k _] => change k with (id stored) end.
  rewrite (IDBFacts.get_insert (@id string) stored db2).
  f_equal. unfold stored, JS.map_entries. rewrite with_files_same.
  apply revive_same. exact Hfiles.
Qed.

Lemma saveSnapshot_then_getSnapshot_v1 :
  with_id "snap_a" v1 = with_id ("snap_" ++ "a")%string v1 /\
  getSnapshot [with_id "snap_a" v1] (id (with_id "snap_a" v1)) = Some (with_id "snap_a" v1).
Proof.
  apply (saveSnapshot_then_getSnapshot [] [with_id "snap_a" v1] v1 "a" (with_id "snap_a" v1)).
  - unfold files_of_a_Map. simpl. constructor; [intros [] | constructor].
  - reflexivity.
Defined.

(** X10.  After [deleteSnapshot] the identifier is not found and every
    other identifier is found as before; deleting an identifier that is
    not stored leaves the store as it was. *)
Theorem deleteSnapshot_removes (db : Store) (snapshotId : string) :
  unique_ids db ->
  let db' := deleteSnapshot db snapshotId in
  getSnapshot db' snapshotId = None /\
  (forall other, other <> snapshotId -> getSnapshot db' other = getSnapshot db other) /\
  (getSnapshot db snapshotId = None -> db' = db).
Proof.
  intros Hu. unfold deleteSnapshot, getSnapshot. repeat split.
  - now rewrite (StoreLookups.get_delete_same (@id string) snapshotId db Hu).
  - intros other Hne.
    now rewrite (StoreLookups.get_delete_other (@id string) snapshotId other db Hne).
  - intros H. apply StoreLookups.delete_absent.
    destruct (IDB.get (@id string) snapshotId db); [discriminate | reflexivity].
Qed.

Lemma two_snapshots_unique : unique_ids two_snapshots.
Proof.
  unfold unique_ids, IDBFacts.unique_keys. apply JSFacts.distinct_NoDup. reflexivity.
Qed.

Lemma deleteSnapshot_removes_snap_a :
  let db' := deleteSnapshot two_snapshots "snap_a" in
  getSnapshot db' "snap_a" = None /\
  (forall other, other <> "snap_a" -> getSnapshot db' other = getSnapshot two_snapshots other) /\
  (getSnapshot two_snapshots "snap_a" = None -> db' = two_snapshots).
Proof.
  apply (deleteSnapshot_removes two_snapshots "snap_a"). exact two_snapshots_unique.
Defined.

(** ** Retention *)

Lemma delete_each_subset (l : list Snapshot) (db : Store) (y : Snapshot) :
  In y (delete_each l db) -> In y db.
Proof.
  revert db. induction l as [|x l IH]; intros db H; simpl in H; [exact H|].
  apply IH in H. now apply (IDBFacts.delete_subset (@id string) (id x)).
Qed.

Lemma delete_each_kept (l : list Snapshot) (db : Store) (y : Snapshot) :
  In y db -> ~ In (id y) (map (@id string) l) -> In y (delete_each l db).
Proof.
  revert db. induction l as [|x l IH]; intros db Hin Hid; simpl; [exact Hin|].
  apply IH.
  - apply IDBFacts.delete_other; [exact Hin|]. intros E. apply Hid. left. now symmetry.
  - intros H. apply Hid. now right.
Qed.

Lemma delete_each_gone (l : list Snapshot) (db : Store) (y : Snapshot) :
  unique_ids db -> In y (delete_each l db) -> ~ In (id y) (map (@id string) l).
Proof.
  revert db. induction l as [|x l IH]; intros db Hu Hin; simpl; [tauto|].
  simpl in Hin. intros [E|H].
  - apply delete_each_subset in Hin.
    apply (StoreLookups.delete_gone (@id string) (id x) db y Hu Hin). now symmetry.
  - apply (IH (deleteSnapshot db (id x))); try assumption.
    now apply IDBFacts.delete_unique.
Qed.

Lemma cleanup_subset (p : Snapshot -> bool) (cap : Z) (db : Store) (y : Snapshot) :
  In y (cleanup p cap db) -> In y db.
Proof.
  unfold cleanup. destruct (_ >? cap); [apply delete_each_subset | tauto].
Qed.

Section Selection.
Context (p : Snapshot -> bool) (cap : Z).
Hypothesis p_revive : forall s, p (revive s) = p s.

(** A clean-up keeps every snapshot its filter does not select. *)
Lemma cleanup_keeps (db : Store) (m : Snapshot) :
  unique_ids db -> In m db -> p m = false -> In m (cleanup p cap db).
Proof.
  intros Hu Hin Hp. unfold cleanup.
  destruct (_ >? cap); [|exact Hin].
  apply delete_each_kept; [exact Hin|].
  intros H. apply in_map_iff in H. destruct H as [x [Hid Hx]].
  apply In_skipn in Hx.
  destruct (selected_stored p p_revive db x Hx) as [x0 [Hin0 [Hid0 Hp0]]].
  assert (x0 = m) as ->
    by (apply (StoreLookups.unique_keys_inj (@id string) db); try assumption; congruence).
  congruence.
Qed.

(** What it deletes was selected, and is no newer than any selected
    snapshot that it keeps. *)
Lemma cleanup_drops_the_oldest (db : Store) (x : Snapshot) :
  unique_ids db -> In x db -> ~ In x (cleanup p cap db) ->
  p x = true /\
  forall y, In y (cleanup p cap db) -> p y = true -> timestamp x <= timestamp y.
Proof.
  intros Hu Hin Hout.
  destruct (p x) eqn:Px; [|exfalso; apply Hout; now apply cleanup_keeps].
  split; [reflexivity|]. intros y Hy Py.
  pose proof (cleanup_subset p cap db y Hy) as Hydb.
  unfold cleanup in *. unfold JS.slice_from in *.
  set (selected := filter p (getAllSnapshots db)) in *.
  destruct (_ >? cap); [|contradiction].
  assert (JSFacts.descending (@timestamp string) selected) as Hs.
  { apply SortedFacts.descending_filter. apply (JSFacts.sort_descending (@timestamp string)). }
  assert (forall s, In s db -> p s = true -> In (revive s) selected) as Hsel.
  { intros s Hs' Ps. apply filter_In. split; [|now rewrite p_revive].
    apply (JSFacts.sort_In newest_first). unfold IDB.getAll. now apply in_map. }
  assert (forall s, In s db ->
                    In (id s) (map (@id string) (skipn (Z.to_nat cap) selected)) ->
                    In (revive s) (skipn (Z.to_nat cap) selected)) as Hback.
  { intros s Hs' H. apply in_map_iff in H. destruct H as [s' [Hid Hs'']].
    pose proof (In_skipn _ _ _ Hs'') as Hsel'. apply filter_In in Hsel'.
    destruct Hsel' as [Hall _]. apply (proj1 (JSFacts.sort_In newest_first _ _)) in Hall.
    unfold IDB.getAll in Hall. apply in_map_iff in Hall. destruct Hall as [s0 [<- Hs0]].
    assert (s0 = s) as -> by (apply (StoreLookups.unique_keys_inj (@id string) db); assumption).
    exact Hs''. }
  assert (In (revive x) (skipn (Z.to_nat cap) selected)) as Hx.
  { apply Hback; [exact Hin|].
    destruct (in_dec string_dec (id x) (map (@id string) (skipn (Z.to_nat cap) selected)))
      as [H|H]; [exact H|].
    exfalso. apply Hout. now apply delete_each_kept. }
  assert (In (revive y) (firstn (Z.to_nat cap) selected)) as Hyf.
  { pose proof (Hsel y Hydb Py) as H. rewrite <- (firstn_skipn (Z.to_nat cap) selected) in H.
    apply in_app_or in H. destruct H as [H|H]; [exact H|].
    exfalso. apply (delete_each_gone _ db y Hu Hy).
    apply in_map_iff. exists (revive y). split; [reflexivity | exact H]. }
  rewrite <- (firstn_skipn (Z.to_nat cap) selected) in Hs.
  apply (SortedFacts.descending_app (@timestamp string) _ _ Hs (revive y) (revive x) Hyf Hx).
Qed.

End Selection.

(** A save spares every milestone that is no auto-save, and every
    milestone when the snapshot saved is no auto-save. *)
Lemma saveSnapshot_spares (db : Store) (snapshot : Draft) (nano : string) (m : Snapshot) :
  unique_ids db ->
  In m db ->
  JS.truthy (isMilestone m) = true ->
  JS.truthy (autoSave m) = false \/ JS.truthy (autoSave snapshot) = false ->
  In m (fst (saveSnapshot db snapshot nano)).
Proof.
  intros Hu Hin Hm Hauto. unfold saveSnapshot.
  rewrite cleanupOldSnapshots_cleanup.
  change (JS.truthy (autoSave (with_id ("snap_" ++ nano)%string snapshot)))
    with (JS.truthy (autoSave snapshot)).
  set (db1 := if JS.truthy (autoSave snapshot) then cleanupAutoSaves db else db).
  assert (unique_ids db1 /\ In m db1) as [Hu1 Hin1].
  { unfold db1. destruct (JS.truthy (autoSave snapshot)) eqn:E; [|now split].
    rewrite cleanupAutoSaves_cleanup. split; [now apply cleanup_unique|].
    apply cleanup_keeps; try assumption; [reflexivity|].
    destruct Hauto as [H|H]; [exact H | discriminate]. }
  assert (In m (cleanup is_plain maxSnapshots db1)) as Hin2.
  { apply cleanup_keeps; try assumption; [reflexivity|].
    unfold is_plain. now rewrite Hm. }
  match goal with |- context [IDB.add _ ?r ?d] =>
    destruct (IDB.add (@id string) r d) eqn:Hadd end;
    simpl; [|exact Hin2].
  now apply (IDBFacts.add_keeps (@id string) _ m _ _ Hadd).
Qed.

(** X11.  [saveSnapshot] never deletes a milestone that is not an
    auto-save, and deletes no milestone at all when the snapshot it saves
    is not an auto-save. *)
Theorem saveSnapshot_keeps_milestones (db : Store) (snapshot : Draft) (nano : string)
    (m : Snapshot) :
  unique_ids db ->
  In m db ->
  JS.truthy (isMilestone m) = true ->
  JS.truthy (autoSave m) = false \/ JS.truthy (autoSave snapshot) = false ->
  In m (fst (saveSnapshot db snapshot nano)).
Proof. apply saveSnapshot_spares. Qed.

Lemma saveSnapshot_keeps_milestone_b :
  In milestone_b (fst (saveSnapshot two_snapshots (quick_save None (Some true) 3000) "c")).
Proof.
  apply (saveSnapshot_keeps_milestones two_snapshots (quick_save None (Some true) 3000) "c"
           milestone_b).
  - exact two_snapshots_unique.
  - right. left. reflexivity.
  - reflexivity.
  - left. reflexivity.
Defined.

(** X12.  A stored snapshot that [saveSnapshot] deletes is an auto-save no
    newer than any auto-save it keeps, or no milestone and no newer than
    any such snapshot it keeps: each clean-up takes from the old end. *)
Theorem saveSnapshot_drops_the_oldest (db : Store) (snapshot : Draft) (nano : string)
    (x : Snapshot) :
  unique_ids db ->
  IDB.get (@id string) ("snap_" ++ nano)%string db = None ->
  let db' := fst (saveSnapshot db snapshot nano) in
  In x db -> ~ In x db' ->
  (is_autoSave x = true /\
   forall y, In y db -> In y db' -> is_autoSave y = true -> timestamp x <= timestamp y) \/
  (is_plain x = true /\
   forall y, In y db -> In y db' -> is_plain y = true -> timestamp x <= timestamp y).
Proof.
  intros Hu Hfresh db' Hin Hout. subst db'. unfold saveSnapshot in *.
  rewrite cleanupOldSnapshots_cleanup in *.
  change (JS.truthy (autoSave (with_id ("snap_" ++ nano)%string snapshot)))
    with (JS.truthy (autoSave snapshot)) in *.
  set (db1 := if JS.truthy (autoSave snapshot) then cleanupAutoSaves db else db) in *.
  set (db2 := cleanup is_plain maxSnapshots db1) in *.
  assert (forall y, In y db1 -> In y db) as Hsub1.
  { unfold db1. destruct (JS.truthy (autoSave snapshot)); [|tauto].
    rewrite cleanupAutoSaves_cleanup. apply cleanup_subset. }
  assert (unique_ids db1) as Hu1.
  { unfold db1. destruct (JS.truthy (autoSave snapshot)); [|exact Hu].
    rewrite cleanupAutoSaves_cleanup. now apply cleanup_unique. }
  assert (forall y, In y db2 -> In y db1) as Hsub2 by apply cleanup_subset.
  match type of Hout with context [IDB.add _ ?r ?d] => set (stored := r) in * end.
  assert (forall y, In y db -> id y <> id stored) as Hother.
  { intros y Hy. apply (IDBFacts.get_None_key (@id string) _ _ y Hfresh Hy). }
  assert (IDB.get (@id string) (id stored) db2 = None) as Hfresh2.
  { apply get_absent. intros s Hs. apply Hother. auto. }
  unfold IDB.add in *. rewrite Hfresh2 in *. simpl in *.
  assert (~ In x db2) as Hout2.
  { intros H. apply Hout. apply IDBFacts.insert_keeps; [exact H | now apply Hother]. }
  assert (forall y, In y db -> In y (IDB.insert (@id string) stored db2) -> In y db2) as Hkept.
  { intros y Hy H. apply IDBFacts.insert_In_inv in H. destruct H as [->|H]; [|exact H].
    exfalso. now apply (Hother stored). }
  assert (In x db1 \/ ~ In x db1) as [H1|H1].
  { destruct (in_dec string_dec (id x) (map (@id string) db1)) as [H|H].
    - left. apply in_map_iff in H. destruct H as [y [Hid Hy]].
      assert (y = x) as <-
        by (apply (StoreLookups.unique_keys_inj (@id string) db); auto).
      exact Hy.
    - right. intros Hx. apply H. now apply in_map. }
  - right.
    destruct (cleanup_drops_the_oldest is_plain maxSnapshots (fun _ => eq_refl) db1 x
                Hu1 H1 Hout2) as [Px Hold].
    split; [exact Px|]. intros y Hy Hy' Py. apply Hold; [|exact Py]. now apply Hkept.
  - left. unfold db1 in H1, Hsub2.
    destruct (JS.truthy (autoSave snapshot)); [|contradiction].
    rewrite cleanupAutoSaves_cleanup in *.
    destruct (cleanup_drops_the_oldest is_autoSave maxAutoSaves (fun _ => eq_refl) db x
                Hu Hin H1) as [Px Hold].
    split; [exact Px|]. intros y Hy Hy' Py. apply Hold; [|exact Py].
    apply Hsub2. now apply Hkept.
Qed.

Lemma plain_51_unique : unique_ids plain_51.
Proof.
  unfold unique_ids, IDBFacts.unique_keys. apply JSFacts.distinct_NoDup.
  vm_compute. reflexivity.
Qed.

Lemma saveSnapshot_drops_first_plain :
  let db' := fst (saveSnapshot plain_51 (quick_save None None 52) "52") in
  (is_autoSave first_plain = true /\
   forall y, In y plain_51 -> In y db' -> is_autoSave y = true ->
             timestamp first_plain <= timestamp y) \/
  (is_plain first_plain = true /\
   forall y, In y plain_51 -> In y db' -> is_plain y = true ->
             timestamp first_plain <= timestamp y).
Proof.
  apply (saveSnapshot_drops_the_oldest plain_51 (quick_save None None 52) "52" first_plain).
  - exact plain_51_unique.
  - vm_compute. reflexivity.
  - vm_compute. left. reflexivity.
  - intros H. vm_compute in H.
    repeat (destruct H as [H|H]; [discriminate H|]). exact H.
Defined.

(** ** Restore *)

(** X13.  [restoreSnapshot] of an identifier that is not stored rejects
    with [Snapshot not found] and leaves the store as it was; of one that
    is stored, it leaves every milestone in the store. *)
Theorem restoreSnapshot_unknown_or_keeps_milestones (db : Store) (snapshotId : string)
    (now : Z) (nano : string) :
  unique_ids db ->
  match getSnapshot db snapshotId with
  | None =>
      restoreSnapshot db snapshotId now nano
      = (db, JS.Throw (JS.ErrorObj "Snapshot not found"))
  | Some _ =>
      forall m, In m db -> JS.truthy (isMilestone m) = true ->
                In m (fst (restoreSnapshot db snapshotId now nano))
  end.
Proof.
  intros Hu. unfold restoreSnapshot.
  destruct (getSnapshot db snapshotId) as [target|]; [|reflexivity].
  intros m Hin Hm.
  match goal with |- context [saveSnapshot db ?b nano] => set (backup := b) end.
  pose proof (saveSnapshot_spares db backup nano m Hu Hin Hm (or_intror eq_refl)) as H.
  destruct (saveSnapshot db backup nano) as [db' [r|e]]; exact H.
Qed.

Lemma restoreSnapshot_unknown_in_two_snapshots :
  match getSnapshot two_snapshots "snap_z" with
  | None =>
      restoreSnapshot two_snapshots "snap_z" 3000 "c"
      = (two_snapshots, JS.Throw (JS.ErrorObj "Snapshot not found"))
  | Some _ =>
      forall m, In m two_snapshots -> JS.truthy (isMilestone m) = true ->
                In m (fst (restoreSnapshot two_snapshots "snap_z" 3000 "c"))
  end.
Proof.
  apply (restoreSnapshot_unknown_or_keeps_milestones two_snapshots "snap_z" 3000 "c").
  exact two_snapshots_unique.
Defined.

(** ** Import *)

(** The identifiers a store holds after a save: those it held, and the
    new one. *)
Lemma saveSnapshot_ids (db : Store) (snapshot : Draft) (nano : string) (s : Snapshot) :
  In s (fst (saveSnapshot db snapshot nano)) ->
  id s = ("snap_" ++ nano)%string \/ exists s0, In s0 db /\ id s0 = id s.
Proof.
  unfold saveSnapshot. rewrite cleanupOldSnapshots_cleanup.
  set (db1 := if JS.truthy _ then cleanupAutoSaves db else db).
  assert (forall y, In y db1 -> In y db) as Hsub1.
  { unfold db1. destruct (JS.truthy _); [|tauto].
    rewrite cleanupAutoSaves_cleanup. apply cleanup_subset. }
  match goal with |- context [IDB.add _ ?r ?d] =>
    destruct (IDB.add (@id string) r d) eqn:Hadd end;
    simpl; intros Hin.
  - apply (Permutation_in _ (IDBFacts.add_Permutation _ _ _ _ Hadd)) in Hin.
    destruct Hin as [<-|Hin]; [now left|].
    right. exists s. split; [|reflexivity].
    apply Hsub1. now apply (cleanup_subset is_plain maxSnapshots).
  - right. exists s. split; [|reflexivity].
    apply Hsub1. now apply (cleanup_subset is_plain maxSnapshots).
Qed.

(** A save under an identifier the store does not hold resolves. *)
Lemma saveSnapshot_fresh (db : Store) (snapshot : Draft) (nano : string) :
  IDB.get (@id string) ("snap_" ++ nano)%string db = None ->
  snd (saveSnapshot db snapshot nano)
  = JS.Normal (with_id ("snap_" ++ nano)%string snapshot).
Proof.
  intros Hfresh. unfold saveSnapshot. rewrite cleanupOldSnapshots_cleanup.
  set (db1 := if JS.truthy _ then cleanupAutoSaves db else db).
  assert (forall y, In y db1 -> In y db) as Hsub1.
  { unfold db1. destruct (JS.truthy _); [|tauto].
    rewrite cleanupAutoSaves_cleanup. apply cleanup_subset. }
  unfold IDB.add.
  match goal with |- context [IDB.get _ ?k ?d] =>
    assert (IDB.get (@id string) k d = None) as ->; [|reflexivity] end.
  apply get_absent. intros s Hs.
  apply (IDBFacts.get_None_key (@id string) _ _ s Hfresh).
  apply Hsub1. now apply (cleanup_subset is_plain maxSnapshots).
Qed.

Lemma import_loop_counts (nanoid : nat -> string) (rest : list Snapshot) :
  forall (cur : Store) (k : nat) (imported : Z),
    (forall j, (k <= j < k + List.length rest)%nat ->
               IDB.get (@id string) ("snap_" ++ nanoid j)%string cur = None) ->
    (forall i j, (k <= i < k + List.length rest)%nat ->
                 (k <= j < k + List.length rest)%nat ->
                 nanoid i = nanoid j -> i = j) ->
    snd (import_loop cur rest nanoid k imported)
    = JS.Normal (imported + Z.of_nat (List.length rest)).
Proof.
  induction rest as [|e rest IH]; intros cur k imported Hfresh Hinj.
  - simpl. now rewrite Z.add_0_r.
  - cbn [import_loop].
    set (draft := with_id tt (with_files (JS.map_from_entries (files e)) e)).
    pose proof (saveSnapshot_fresh cur draft (nanoid k)
                  (Hfresh k ltac:(simpl; lia))) as Hres.
    pose proof (saveSnapshot_ids cur draft (nanoid k)) as Hids.
    destruct (saveSnapshot cur draft (nanoid k)) as [db' r]. simpl in Hres, Hids. subst r.
    rewrite IH.
    + f_equal. simpl List.length. lia.
    + intros j Hj. apply get_absent. intros s Hs E.
      destruct (Hids s Hs) as [Hid|[s0 [Hin0 Hid0]]].
      * rewrite Hid in E. apply snap_inj in E. apply Hinj in E; simpl; lia.
      * apply (IDBFacts.get_None_key (@id string) _ _ s0
                 (Hfresh j ltac:(simpl; lia)) Hin0). congruence.
    + intros i j Hi Hj. apply Hinj; simpl; lia.
Qed.

(** X14.  When every element of the array is a snapshot record and
    [nanoid] draws identifiers that are distinct and not in the store,
    [importSnapshots] resolves with the number of elements, whatever the
    clean-ups deleted on the way.  When such records are followed by an
    element that is [null], or whose [files] cannot be iterated, it
    rejects with a [TypeError], and the records before that element stay
    imported. *)
Theorem importSnapshots_counts_entries (db : Store) (entries : list Snapshot)
    (nanoid : nat -> string) :
  (forall j, (j < List.length entries)%nat ->
             IDB.get (@id string) ("snap_" ++ nanoid j)%string db = None) ->
  (forall i j, (i < List.length entries)%nat -> (j < List.length entries)%nat ->
               nanoid i = nanoid j -> i = j) ->
  snd (importSnapshots db (Parsed (AnArray entries)) nanoid)
  = JS.Normal (JS.array_length entries) /\
  forall unusable, exists message,
    importSnapshots db (Parsed (AnArrayUpTo entries unusable)) nanoid
    = (fst (importSnapshots db (Parsed (AnArray entries)) nanoid),
       JS.Throw (JS.TypeError message)).
Proof.
  intros Hfresh Hinj. unfold importSnapshots.
  assert (snd (import_loop db entries nanoid 0 0)
          = JS.Normal (JS.array_length entries)) as Hcount.
  { rewrite import_loop_counts.
    - reflexivity.
    - intros j Hj. apply Hfresh. lia.
    - intros i j Hi Hj. apply Hinj; lia. }
  split; [exact Hcount|].
  intros unusable. exists (unusable_message unusable).
  destruct (import_loop db entries nanoid 0 0) as [db' r].
  cbn [fst snd] in *. now subst r.
Qed.

Lemma importSnapshots_counts_two_snapshots :
  snd (importSnapshots [] (Parsed (AnArray two_snapshots)) decimal_ids)
  = JS.Normal (JS.array_length two_snapshots) /\
  forall unusable, exists message,
    importSnapshots [] (Parsed (AnArrayUpTo two_snapshots unusable)) decimal_ids
    = (fst (importSnapshots [] (Parsed (AnArray two_snapshots)) decimal_ids),
       JS.Throw (JS.TypeError message)).
Proof.
  apply (importSnapshots_counts_entries [] two_snapshots decimal_ids).
  - intros j Hj. reflexivity.
  - intros i j Hi Hj. simpl in Hi, Hj.
    destruct i as [|[|i]]; destruct j as [|[|j]]; try lia;
      vm_compute; intros H; try reflexivity; discriminate H.
Defined.

(** ** Statistics *)

Lemma In_timestamps (db : Store) (t : Z) :
  In t (map (@timestamp string) (getAllSnapshots db)) <->
  exists s, In s db /\ timestamp s = t.
Proof.
  unfold getAllSnapshots, IDB.getAll. rewrite in_map_iff. split.
  - intros [x [<- Hx]]. apply (proj1 (JSFacts.sort_In newest_first _ _)) in Hx.
    apply in_map_iff in Hx. destruct Hx as [s [<- Hs]]. now exists s.
  - intros [s [Hs <-]]. exists (revive s). split; [reflexivity|].
    apply (JSFacts.sort_In newest_first). now apply in_map.
Qed.

(** X15.  [getStorageStats] counts the store: the total is the number of
    stored snapshots, of which [milestones] are milestones; [totalSize] is
    the sum of their original sizes; the two dates are the least and the
    greatest timestamp in the store, and [null] exactly when it is
    empty. *)
Theorem getStorageStats_counts_the_store (db : Store) :
  let stats := getStorageStats db in
  totalSnapshots stats = JS.array_length db /\
  milestones stats + nonMilestoneCount db = JS.array_length db /\
  autoSaves stats = autoSaveCount db /\
  totalSize stats = SortedFacts.total (@originalSize string) db /\
  match oldestSnapshot stats, newestSnapshot stats with
  | Some oldest, Some newest =>
      (forall s, In s db -> oldest <= timestamp s <= newest) /\
      (exists s, In s db /\ timestamp s = oldest) /\
      (exists s, In s db /\ timestamp s = newest)
  | None, None => db = []
  | _, _ => False
  end.
Proof.
  cbv zeta. unfold getStorageStats.
  cbn [totalSnapshots milestones autoSaves totalSize oldestSnapshot newestSnapshot].
  unfold nonMilestoneCount, autoSaveCount, JS.array_length.
  split; [|split; [|split; [|split]]].
  - unfold getAllSnapshots, IDB.getAll. now rewrite JSFacts.sort_length, length_map.
  - rewrite (selected_length (fun s => JS.truthy (isMilestone s)) (fun _ => eq_refl) db).
    unfold is_plain. rewrite <- Nat2Z.inj_add. f_equal.
    induction db as [|s db IH]; simpl; [reflexivity|].
    destruct (JS.truthy (isMilestone s)); simpl; lia.
  - now rewrite (selected_length (fun s => JS.truthy (autoSave s)) (fun _ => eq_refl) db).
  - rewrite SortedFacts.fold_left_total. simpl.
    unfold getAllSnapshots, IDB.getAll.
    rewrite (SortedFacts.total_Permutation _ _ _
               (JSFacts.sort_Permutation newest_first (map revive db))).
    now rewrite SortedFacts.total_map.
  - pose proof (In_timestamps db) as Hin.
    destruct (map (@timestamp string) (getAllSnapshots db)) as [|t ts] eqn:E.
    + simpl. destruct db as [|s db]; [reflexivity|].
      exfalso. apply (proj2 (Hin (timestamp s))). exists s. split; [now left | reflexivity].
    + cbn [extreme].
      pose proof (SortedFacts.fold_min_least ts t) as [[Hm1 Hm2] Hm3].
      pose proof (SortedFacts.fold_max_greatest ts t) as [[HM1 HM2] HM3].
      cbv zeta in *. split; [|split].
      * intros s Hs.
        assert (In (timestamp s) (t :: ts)) as [<-|H] by (apply Hin; now exists s).
        -- lia.
        -- split; [now apply Hm2 | now apply HM2].
      * apply Hin. destruct Hm3 as [->|H]; [now left | now right].
      * apply Hin. destruct HM3 as [->|H]; [now left | now right].
Qed.

End SnapshotLifecycle.

(* ================================================================= *)
(** * The response cache through its life: load, look-up, failure, clear *)
(* ================================================================= *)

Module CacheLifecycle.

Import ClaudeAPI CacheProperties.

(** ** Scenarios *)

(** Three entries of the cache database, the second the most used. *)
Definition three_entries : IDB.objectStore CacheEntry :=
  [ mkEntry "claude_a" (mkResponse "A" None (Some false) None) 1 2;
    mkEntry "claude_b" (mkResponse "B" None (Some false) None) 2 7;
    mkEntry "claude_c" (mkResponse "C" None (Some false) None) 3 0 ].

(** ** Loading *)

(** The walk of the index [hits] backwards yields no entry of fewer hits
    before one of more. *)
Lemma sort_insert_by_hits (x : CacheEntry) (l : list CacheEntry) :
  JSFacts.descending hits l -> JSFacts.descending hits (JS.sort_insert by_hits_prev x l).
Proof.
  unfold JSFacts.descending.
  induction l as [|y l IH]; simpl; intros Hs; [repeat constructor|].
  inversion Hs as [|? ? Hl Hy]; subst. rewrite Forall_forall in Hy.
  destruct (by_hits_prev x y <=? 0) eqn:E.
  - constructor; [exact Hs|]. rewrite Forall_forall.
    assert (hits y <= hits x) as Hxy.
    { apply Z.leb_le in E. unfold by_hits_prev in E.
      destruct (hits x =? hits y) eqn:Eh; [apply Z.eqb_eq in Eh|]; lia. }
    intros z [<-|Hz]; [exact Hxy | specialize (Hy z Hz); lia].
  - constructor; [now apply IH|]. rewrite Forall_forall. intros z Hz.
    apply JSFacts.sort_insert_In in Hz. destruct Hz as [->|Hz]; [|now apply Hy].
    apply Z.leb_gt in E. unfold by_hits_prev in E.
    destruct (hits x =? hits y) eqn:Eh; [apply Z.eqb_eq in Eh|]; lia.
Qed.

Lemma sort_by_hits (l : list CacheEntry) :
  JSFacts.descending hits (JS.sort by_hits_prev l).
Proof.
  induction l as [|x l IH]; simpl; [constructor | now apply sort_insert_by_hits].
Qed.

(** Setting entries with distinct keys into an empty [Map] lists them in
    order. *)
Lemma load_entries (top : list CacheEntry) :
  NoDup (map key top) ->
  fold_left (fun m entry => JS.map_set (key entry) entry m) top []
  = map (fun e => (key e, e)) top.
Proof.
  intros Hnd.
  pose proof (JSFacts.map_from_entries_unique (map (fun e => (key e, e)) top)) as H.
  unfold JS.map_from_entries in H. rewrite map_map in H. simpl in H.
  rewrite <- H by exact Hnd. clear H Hnd.
  generalize (@nil (string * CacheEntry)).
  induction top as [|e top IH]; intros m; simpl; [reflexivity | apply IH].
Qed.

(** X16.  A new instance over a cache database starts with the
    [topCacheEntries] most used entries of the database in its memory
    tier, or all of them when there are fewer: no entry left out has more
    hits than one loaded.  Its counters are zero. *)
Theorem create_loads_the_most_used (store : IDB.objectStore CacheEntry) :
  IDBFacts.unique_keys key store ->
  let st := create (Some store) in
  JS.map_size (memoryCache st) = Z.min topCacheEntries (JS.array_length store) /\
  (forall k e, In (k, e) (memoryCache st) -> In e store /\ k = key e) /\
  (forall e e', In (key e, e) (memoryCache st) -> In e' store ->
                ~ In (key e', e') (memoryCache st) -> hits e' <= hits e) /\
  persistentCache st = Some store /\ totalRequests st = 0 /\ cacheHits st = 0.
Proof.
  intros Hu. unfold create, loadCacheToMemory.
  cbn [persistentCache memoryCache totalRequests cacheHits].
  set (sorted := JS.sort by_hits_prev store).
  set (n := Z.to_nat topCacheEntries).
  pose proof (JSFacts.sort_Permutation by_hits_prev store) as Hperm. fold sorted in Hperm.
  assert (NoDup (map key sorted)) as Hnd.
  { apply (Permutation_NoDup (l := map key store)); [|exact Hu].
    apply Permutation_map. now symmetry. }
  rewrite (load_entries (firstn n sorted) (SortedFacts.NoDup_map_firstn key n sorted Hnd)).
  split; [|split; [|split; [|repeat split]]].
  - unfold JS.map_size, JS.array_length. rewrite length_map, length_firstn.
    rewrite (Permutation_length Hperm). unfold n, topCacheEntries. lia.
  - intros k e Hin. apply in_map_iff in Hin. destruct Hin as [e0 [[= <- <-] Hin]].
    split; [|reflexivity]. apply (Permutation_in _ Hperm). now apply (SortedFacts.In_firstn n).
  - intros e e' Hin Hin' Hout.
    apply in_map_iff in Hin. destruct Hin as [e0 [[= _ ->] Hin]].
    assert (In e' (skipn n sorted)) as Hskip.
    { apply (Permutation_in _ (Permutation_sym Hperm)) in Hin'.
      rewrite <- (firstn_skipn n sorted) in Hin'. apply in_app_or in Hin'.
      destruct Hin' as [H|H]; [|exact H].
      exfalso. apply Hout. apply in_map_iff. now exists e'. }
    pose proof (sort_by_hits store) as Hs. fold sorted in Hs.
    rewrite <- (firstn_skipn n sorted) in Hs.
    apply (SortedFacts.descending_app hits _ _ Hs e e' Hin Hskip).
Qed.

Lemma create_loads_three_entries :
  let st := create (Some three_entries) in
  JS.map_size (memoryCache st) = Z.min topCacheEntries (JS.array_length three_entries) /\
  (forall k e, In (k, e) (memoryCache st) -> In e three_entries /\ k = key e) /\
  (forall e e', In (key e, e) (memoryCache st) -> In e' three_entries ->
                ~ In (key e', e') (memoryCache st) -> hits e' <= hits e) /\
  persistentCache st = Some three_entries /\ totalRequests st = 0 /\ cacheHits st = 0.
Proof.
  apply (create_loads_the_most_used three_entries).
  unfold IDBFacts.unique_keys. apply JSFacts.distinct_NoDup. reflexivity.
Defined.

(** ** Look-up after a reply *)

(** A look-up that misses has counted the request and changed nothing
    else; the key it looked for is not in the memory tier. *)
Lemma checkCache_miss (st : State) (query : string) (context : option Context) :
  snd (checkCache st query context) = None ->
  fst (checkCache st query context) = count_request st /\
  JS.map_get (generateCacheKey [mkMessage user query] context) (memoryCache st) = None.
Proof.
  unfold checkCache.
  change (memoryCache (count_request st)) with (memoryCache st).
  destruct (JS.map_get _ (memoryCache st)); [discriminate|].
  destruct (getPersistentCacheEntry (count_request st) _); [discriminate|].
  unfold semantic_tier. destruct (findSimilarCacheEntry (count_request st) query);
    [discriminate|]. now split.
Qed.





(** ** Clearing and failing *)

(** X18.  After [clearCache] a look-up of any query misses in all three
    tiers: it answers [null], leaves the memory tier and the cache
    database empty, and the counters read one request and no hit. *)
Theorem clearCache_forgets (st : State) (query : string) (context : option Context) :
  let (st', r) := checkCache (clearCache st) query context in
  r = None /\ memoryCache st' = [] /\ totalRequests st' = 1 /\ cacheHits st' = 0 /\
  forall k, getPersistentCacheEntry st' k = None.
Proof.
  unfold checkCache, clearCache, getPersistentCacheEntry, semantic_tier, findSimilarCacheEntry.
  simpl. destruct (persistentCache st); simpl; destruct (classify query); simpl;
    repeat split; reflexivity.
Qed.

(** X19.  A request that gets no usable reply leaves no trace in the
    cache: the instance is as the look-up alone leaves it, so a fallback
    response is never stored in either tier. *)
Theorem sendMessage_failure_caches_nothing (st : State) (messages : list ClaudeMessage)
    (context : option Context) (fetch : Network) (now : Z) :
  messages <> [] ->
  no_reply (fetch (request_body (with_system_message context messages))) = true ->
  fst (sendMessage st messages context fetch now)
  = fst (checkCache st (last_content messages) context).
Proof.
  intros Hne Hfail. destruct (last_message_nonempty messages Hne) as [m Hm].
  unfold sendMessage, last_content. rewrite Hm.
  destruct (checkCache st (content m) context) as [st1 [r|]]; [reflexivity|].
  destruct (request_failure st1 (generateCacheKey messages context) messages context
              fetch now Hfail) as [e ->].
  reflexivity.
Qed.

Lemma sendMessage_failure_caches_nothing_offline :
  fst (sendMessage (create None) (ask "hello") None offline 0)
  = fst (checkCache (create None) (last_content (ask "hello")) None).
Proof.
  apply (sendMessage_failure_caches_nothing (create None) (ask "hello") None offline 0).
  - discriminate.
  - reflexivity.
Defined.

(** ** The code block of a reply *)

Lemma append_assoc (a b c : string) : ((a ++ b) ++ c = a ++ (b ++ c))%string.
Proof. induction a as [|x a IH]; simpl; [reflexivity | now rewrite IH]. Qed.

Lemma prefix_empty (s : string) : String.prefix EmptyString s = true.
Proof. now destruct s. Qed.

Lemma prefix_append (a s : string) : String.prefix a (a ++ s) = true.
Proof.
  induction a as [|c a IH]; cbn [append String.prefix]; [now destruct s|].
  destruct (ascii_dec c c); [exact IH | contradiction].
Qed.

Lemma drop_append (a s : string) : drop (String.length a) (a ++ s) = s.
Proof. induction a as [|c a IH]; simpl; [now destruct s | exact IH]. Qed.

(** Whether a fence starts at the head of [s ++ t] is settled by [s] and
    the first two characters of [t], when [s] is not empty. *)
Lemma fence_at_head (s rest : string) :
  s <> EmptyString ->
  String.prefix fence (s ++ "``") = String.prefix fence (s ++ fence ++ rest).
Proof.
  intros Hs. unfold fence.
  destruct s as [|c1 [|c2 [|c3 s]]]; [contradiction| | |]; cbn [append String.prefix];
    repeat match goal with |- context [ascii_dec ?a ?b] => destruct (ascii_dec a b) end;
    rewrite ?prefix_empty; reflexivity.
Qed.

Lemma until_fence_body (body rest : string) :
  JS.includes (body ++ "``") fence = false ->
  until_fence (body ++ fence ++ rest) = Some body.
Proof.
  induction body as [|c body IH]; intros H.
  - now destruct rest.
  - cbn [JS.includes append] in H. apply orb_false_iff in H. destruct H as [Hp Hi].
    change (String c body ++ fence ++ rest)%string with (String c (body ++ fence ++ rest)).
    cbn [until_fence].
    change (String c (body ++ fence ++ rest)) with (String c body ++ fence ++ rest)%string.
    rewrite <- (fence_at_head (String c body) rest) by discriminate.
    change (String c body ++ "``")%string with (String c (body ++ "``")).
    rewrite Hp. now rewrite (IH Hi).
Qed.

Lemma code_block_at_fenced (lang body rest : string) :
  In lang ["typescript"; "javascript"; "tsx"; "jsx"; EmptyString] ->
  JS.includes (body ++ "``") fence = false ->
  code_block_at (fence ++ lang ++ JS.str1 JS.newline ++ body ++ fence ++ rest) = Some body.
Proof.
  intros Hlang Hbody. unfold code_block_at.
  rewrite prefix_append.
  change 3%nat with (String.length fence). rewrite drop_append.
  pose proof (until_fence_body body rest Hbody) as Hu.
  assert (forall l, String.prefix (l ++ JS.str1 JS.newline)
                      (l ++ JS.str1 JS.newline ++ body ++ fence ++ rest) = true) as Hpre.
  { intros l. rewrite <- append_assoc. apply prefix_append. }
  assert (forall l, drop (String.length (l ++ JS.str1 JS.newline))
                      (l ++ JS.str1 JS.newline ++ body ++ fence ++ rest)
                    = (body ++ fence ++ rest)%string) as Hdrop.
  { intros l. rewrite <- append_assoc. apply drop_append. }
  simpl in Hlang.
  destruct Hlang as [<-|[<-|[<-|[<-|[<-|[]]]]]]; cbn [first_some];
    repeat match goal with
           | |- context [String.prefix (?l ++ JS.str1 JS.newline) (?l ++ _)] =>
               rewrite (Hpre l), (Hdrop l), Hu
           | |- context [String.prefix (?l ++ JS.str1 JS.newline) ?s] =>
               replace (String.prefix (l ++ JS.str1 JS.newline) s) with false by reflexivity
           end;
    reflexivity.
Qed.

Lemma code_block_skips (pre s : string) :
  JS.includes pre "`" = false -> code_block (pre ++ s) = code_block s.
Proof.
  induction pre as [|c pre IH]; intros H; [reflexivity|].
  cbn [JS.includes] in H. apply orb_false_iff in H. destruct H as [Hc Hrest].
  change (String c pre ++ s)%string with (String c (pre ++ s)).
  cbn [code_block].
  assert (code_block_at (String c (pre ++ s)) = None) as ->.
  { unfold code_block_at, fence. cbn [String.prefix] in Hc |- *.
    destruct (ascii_dec "`" c); [|reflexivity]. destruct pre; discriminate Hc. }
  now apply IH.
Qed.

(** X20.  From a reply that holds, after text without a backtick, a fence
    with one of the four language names or none, a line feed, a body and a
    closing fence, the code pattern of [sendMessage] extracts the body,
    provided no fence starts in the body or across its end. *)
Theorem code_block_of_fenced (pre lang body rest : string) :
  JS.includes pre "`" = false ->
  In lang ["typescript"; "javascript"; "tsx"; "jsx"; EmptyString] ->
  JS.includes (body ++ "``") fence = false ->
  code_block (pre ++ fence ++ lang ++ JS.str1 JS.newline ++ body ++ fence ++ rest)
  = Some body.
Proof.
  intros Hpre Hlang Hbody. rewrite (code_block_skips _ _ Hpre).
  pose proof (code_block_at_fenced lang body rest Hlang Hbody) as H.
  destruct (fence ++ lang ++ JS.str1 JS.newline ++ body ++ fence ++ rest)%string eqn:E;
    cbn [code_block]; now rewrite H.
Qed.

Lemma code_block_of_fenced_tsx :
  code_block
    ("Here it is:" ++ fence ++ "tsx" ++ JS.str1 JS.newline ++ "const a = 1;" ++ fence
     ++ " Done.")
  = Some "const a = 1;".
Proof.
  apply (code_block_of_fenced "Here it is:" "tsx" "const a = 1;" " Done.").
  - reflexivity.
  - right. right. left. reflexivity.
  - reflexivity.
Defined.

End CacheLifecycle.

(* ================================================================= *)
(** * The service worker and the page that listens to it *)
(* ================================================================= *)

Module WorkerProperties.

Import ServiceWorker OfflineDetection.

(** ** Scenarios *)

(** A chat request that cannot reach the network. *)
Definition chat_request : ApiRequest :=
  mkApiRequest "https://editor.example/api/claude" "POST"
    [("content-type", "application/json")]
    (Some (JSON.JObject [("messages", JSON.JArray [])])).

(** A sequence of events, each handled before the next: the store it
    leaves and the queued items the worker tried to send again. *)
Definition run (store : Store) (events : list Event) : Store * list QueueItem :=
  fold_left
    (fun acc event =>
       let '(s, sent) := acc in
       let '(s', more) := dispatch s event in
       (s', sent ++ more))
    events (store, []).

(** The page takes the messages of the worker in the order posted: the
    status it ends with and the toasts it showed. *)
Definition tell (status : OfflineStatus) (messages : list ClientMessage)
    : OfflineStatus * list string :=
  fold_left
    (fun acc message =>
       let '(st, toasts) := acc in
       let '(st', toast) := handleMessage st message in
       (st', toasts ++ [toast]))
    messages (status, []).

(** ** The queue only grows *)

Lemma addToOfflineQueue_keeps (store : Store) (requestData : RequestData) (now : Z) :
  incl store (fst (addToOfflineQueue store requestData now)).
Proof.
  unfold addToOfflineQueue, addToOfflineQueue_from. simpl.
  unfold IDB.add. simpl.
  destruct (IDB.get id (JSON.decimal now) store) eqn:E; simpl; [apply incl_refl|].
  intros item Hin. apply IDBFacts.insert_keeps; [exact Hin|].
  now apply (IDBFacts.get_None_key id _ _ item E).
Qed.

Lemma dispatch_keeps (store : Store) (event : Event) :
  incl store (fst (dispatch store event)) /\ snd (dispatch store event) = [].
Proof.
  destruct event as [request fetched replay queuedAt repliedAt now|tag replay|type];
    cbn [dispatch].
  - destruct (JS.includes (request_url request) "/api/claude");
      [|split; [apply incl_refl | reflexivity]].
    unfold handleApiRequest.
    destruct fetched as [|response].
    + destruct (json_body request) as [body|]; [|split; [apply incl_refl | reflexivity]].
      match goal with |- context [addToOfflineQueue store ?d now] =>
        pose proof (addToOfflineQueue_keeps store d now) as H;
        destruct (addToOfflineQueue store d now) as [store' messages] end.
      split; [exact H | reflexivity].
    + destruct (ok response); split; try apply incl_refl; reflexivity.
  - destruct (tag =? "sync-offline-queue")%string; split; try apply incl_refl; reflexivity.
  - split; [apply incl_refl | reflexivity].
Qed.

(** X21.  Whatever fetch, sync and message events the worker handles,
    every item of the queue stays in the queue and no queued request is
    sent again. *)
Theorem worker_never_drains_the_queue (events : list Event) (store : Store) :
  let (store', sent) := run store events in
  incl store store' /\ sent = [].
Proof.
  unfold run.
  assert (forall s sent0,
            incl store s ->
            let (store', sent) :=
              fold_left
                (fun acc event =>
                   let '(s, sent) := acc in
                   let '(s', more) := dispatch s event in
                   (s', sent ++ more))
                events (s, sent0) in
            incl store store' /\ sent = sent0) as H.
  { induction events as [|e events IH]; intros s sent0 Hs; simpl; [now split|].
    destruct (dispatch_keeps s e) as [Hk Hn].
    destruct (dispatch s e) as [s' more]. simpl in Hk, Hn. subst more.
    rewrite app_nil_r. apply IH. eapply incl_tran; eassumption. }
  apply (H store []). apply incl_refl.
Qed.

(** ** The reply to a request that could not be sent *)

(** X22.  When the network call fails and the body of the request is JSON,
    [handleApiRequest] answers with status 200 and the offline reply that
    says the message was saved.  The request is in the queue afterwards
    when the identifier made from the clock was free; when it was taken,
    the queue is as before and the reply is the same. *)
Theorem handleApiRequest_offline_reply (store : Store) (request : ApiRequest)
    (body : JSON.json) (replay : QueueItem -> Replay) (queuedAt repliedAt : string)
    (now : Z) :
  json_body request = Some body ->
  let h := handleApiRequest store request Failed replay queuedAt repliedAt now in
  settled h = JS.Normal (offline_reply repliedAt) /\
  ok (offline_reply repliedAt) = true /\
  resent h = [] /\
  match IDB.get id (JSON.decimal now) store with
  | None =>
      Permutation (queue_after h)
        (mkItem (JSON.decimal now)
           (mkRequestData (request_url request) (request_method request)
              (request_headers request) body queuedAt) :: store)
  | Some _ => queue_after h = store
  end.
Proof.
  intros Hbody. cbv zeta. unfold handleApiRequest. rewrite Hbody.
  unfold addToOfflineQueue, addToOfflineQueue_from. simpl.
  unfold IDB.add. simpl.
  destruct (IDB.get id (JSON.decimal now) store) eqn:E; simpl.
  - repeat split.
  - repeat split. now apply IDBFacts.insert_fresh_Permutation.
Qed.

Lemma handleApiRequest_offline_reply_chat :
  let h :=
    handleApiRequest [] chat_request Failed (fun _ => Rejected)
      "2023-11-14T22:13:20.000Z" "2023-11-14T22:13:20.001Z" 1700000000000 in
  settled h = JS.Normal (offline_reply "2023-11-14T22:13:20.001Z") /\
  ok (offline_reply "2023-11-14T22:13:20.001Z") = true /\
  resent h = [] /\
  match IDB.get id (JSON.decimal 1700000000000) [] with
  | None =>
      Permutation (queue_after h)
        [mkItem (JSON.decimal 1700000000000)
           (mkRequestData (request_url chat_request) (request_method chat_request)
              (request_headers chat_request)
              (JSON.JObject [("messages", JSON.JArray [])])
              "2023-11-14T22:13:20.000Z")]
  | Some _ => queue_after h = []
  end.
Proof.
  apply (handleApiRequest_offline_reply [] chat_request
           (JSON.JObject [("messages", JSON.JArray [])]) (fun _ => Rejected)
           "2023-11-14T22:13:20.000Z" "2023-11-14T22:13:20.001Z" 1700000000000).
  reflexivity.
Defined.

(** ** What the page shows *)

(** X23.  Whatever the queue holds, the message the worker posts after
    queueing a request carries the size [NaN]; the page then holds [NaN]
    as the queue size, announces [Message queued (NaN/10)], and its
    indicator shows no number of queued messages. *)
Theorem queued_request_shows_NaN (status : OfflineStatus) (store : Store)
    (requestData : RequestData) (now : Z) :
  let messages := snd (addToOfflineQueue store requestData now) in
  let (status', toasts) := tell status messages in
  messages = [OFFLINE_QUEUE_UPDATED NaN] /\
  queueSize status' = NaN /\
  toasts = ["Message queued (NaN/10)"] /\
  indicator_shown status' = true /\
  count_shown status' = false.
Proof.
  cbv zeta. unfold addToOfflineQueue, addToOfflineQueue_from. simpl.
  repeat split.
  - unfold indicator_shown. simpl. now rewrite andb_false_r.
  - unfold count_shown. simpl. apply andb_false_r.
Qed.

End WorkerProperties.

(* ================================================================= *)
(** * The editor store and the editor's callbacks *)
(* ================================================================= *)

Module EditorProperties.

Import SnapshotManager SnapshotProperties.

(** ** Scenarios *)

(** A store with two files, the second of them empty. *)
Definition two_files : EditorStore.State Snapshot :=
  EditorStore.mkStore "main.tsx" [("main.tsx", "export {}"); ("notes.md", EmptyString)]
    [] None 0 0.

(** The editor with some text typed. *)
Definition typing : CodeEditor.Editor :=
  CodeEditor.mkEditor "const a = 2;" "const a=2;" CodeEditor.unsaved false.

(** What the user does with snapshots, apart from importing a file. *)
Inductive Action : Type :=
| QuickSave (editor : CodeEditor.Editor) (now : Z) (nano : string)
| MilestoneSave (editor : CodeEditor.Editor) (label : option string) (now : Z)
    (nano : string)
| Restore (snapshotId : string) (now : Z) (nano : string)
| Delete (snapshotId : string).

Definition act (state : CodeEditor.Zustand * Store) (action : Action)
    : CodeEditor.Zustand * Store :=
  let (zustand, db) := state in
  match action with
  | QuickSave editor now nano =>
      let '(_, zustand', db') := CodeEditor.handleQuickSave editor zustand db now nano in
      (zustand', db')
  | MilestoneSave editor label now nano =>
      let '(_, zustand', db') :=
        CodeEditor.handleMilestoneSave editor zustand db label now nano in
      (zustand', db')
  | Restore snapshotId now nano => SnapshotPanel.handleRestore zustand db snapshotId now nano
  | Delete snapshotId => (zustand, SnapshotPanel.handleDelete db snapshotId)
  end.

(** ** The editor store *)

Section Store.
Context {S : Type} (id : S -> string) (code : S -> string)
  (snapshot_files : S -> JS.Map string).

Lemma find_after_filter (snapshotId other : string) (l : list S) :
  find (fun s => (id s =? other)%string)
    (filter (fun s => negb (id s =? snapshotId)%string) l)
  = if (other =? snapshotId)%string then None
    else find (fun s => (id s =? other)%string) l.
Proof.
  induction l as [|s l IH]; simpl; [now destruct (other =? snapshotId)%string|].
  destruct (id s =? snapshotId)%string eqn:E; simpl.
  - rewrite IH. apply String.eqb_eq in E.
    destruct (other =? snapshotId)%string eqn:E'; [reflexivity|].
    destruct (id s =? other)%string eqn:E''; [|reflexivity].
    apply String.eqb_eq in E''. apply String.eqb_neq in E'. congruence.
  - destruct (id s =? other)%string eqn:E''; [|exact IH].
    destruct (other =? snapshotId)%string eqn:E'; [|reflexivity].
    apply String.eqb_eq in E'', E'. apply String.eqb_neq in E. congruence.
Qed.

(** X24.  After [addSnapshot] the list holds at most [MAX_SNAPSHOTS]
    snapshots, the new one first and after it the first 49 of the old
    list; [loadSnapshot] of its identifier then answers with its code and
    makes its files and its identifier current.  After [removeSnapshot]
    the identifier is no longer found by [loadSnapshot], which then changes
    nothing, and it is not the current one; every other identifier loads
    as before. *)
Theorem snapshot_list_add_remove_load (state : EditorStore.State S) (snapshot : S)
    (snapshotId : string) :
  (let state1 := EditorStore.addSnapshot state snapshot in
   JS.array_length (EditorStore.snapshots state1) <= EditorStore.MAX_SNAPSHOTS /\
   EditorStore.snapshots state1 = snapshot :: firstn 49 (EditorStore.snapshots state) /\
   EditorStore.loadSnapshot id code snapshot_files state1 (id snapshot)
   = (EditorStore.mkStore (EditorStore.currentFile state) (snapshot_files snapshot)
        (EditorStore.snapshots state1) (Some (id snapshot))
        (EditorStore.totalTokensUsed state) (EditorStore.monthlyTokensUsed state),
      Some (code snapshot))) /\
  (let state1 := EditorStore.removeSnapshot id state snapshotId in
   EditorStore.loadSnapshot id code snapshot_files state1 snapshotId = (state1, None) /\
   EditorStore.currentSnapshotId state1 <> Some snapshotId /\
   (forall other, other <> snapshotId ->
      snd (EditorStore.loadSnapshot id code snapshot_files state1 other)
      = snd (EditorStore.loadSnapshot id code snapshot_files state other))).
Proof.
  split; cbv zeta.
  - unfold EditorStore.addSnapshot, EditorStore.loadSnapshot, EditorStore.MAX_SNAPSHOTS,
      JS.array_length.
    cbn [EditorStore.snapshots EditorStore.currentFile EditorStore.files
         EditorStore.currentSnapshotId EditorStore.totalTokensUsed
         EditorStore.monthlyTokensUsed].
    change (Z.to_nat 50) with 50%nat. rewrite (firstn_cons 49). cbn [find].
    rewrite String.eqb_refl.
    split; [|split; reflexivity].
    pose proof (firstn_le_length 49 (EditorStore.snapshots state)) as Hlen.
    cbn [List.length]. lia.
  - unfold EditorStore.removeSnapshot, EditorStore.loadSnapshot.
    cbn [EditorStore.snapshots EditorStore.currentFile EditorStore.files
         EditorStore.currentSnapshotId EditorStore.totalTokensUsed
         EditorStore.monthlyTokensUsed].
    split; [|split].
    + rewrite find_after_filter. now rewrite String.eqb_refl.
    + destruct (EditorStore.currentSnapshotId state) as [current|]; [|discriminate].
      destruct (current =? snapshotId)%string eqn:E; [discriminate|].
      apply String.eqb_neq in E. congruence.
    + intros other Hne. rewrite find_after_filter.
      apply String.eqb_neq in Hne. rewrite Hne.
      now destruct (find _ (EditorStore.snapshots state)).
Qed.

(** X25.  [renameFile] moves the content of a file that is not empty to
    the new path: the old path is gone, every other file is as before and
    the current file follows the rename.  A file that is missing or empty
    is not renamed: the state is returned as it is. *)
Theorem renameFile_moves_the_content (state : EditorStore.State S)
    (oldPath newPath : string) :
  NoDup (map fst (EditorStore.files state)) ->
  oldPath <> newPath ->
  let state1 := EditorStore.renameFile state oldPath newPath in
  match JS.map_get oldPath (EditorStore.files state) with
  | None => state1 = state
  | Some content =>
      if (content =? "")%string then state1 = state
      else
        JS.map_get newPath (EditorStore.files state1) = Some content /\
        JS.map_get oldPath (EditorStore.files state1) = None /\
        (forall other, other <> oldPath -> other <> newPath ->
           JS.map_get other (EditorStore.files state1)
           = JS.map_get other (EditorStore.files state)) /\
        EditorStore.currentFile state1
        = (if (EditorStore.currentFile state =? oldPath)%string
           then newPath else EditorStore.currentFile state)
  end.
Proof.
  intros Hnd Hdiff. cbv zeta. unfold EditorStore.renameFile.
  destruct (JS.map_get oldPath (EditorStore.files state)) as [content|]; [|reflexivity].
  destruct (content =? "")%string; [reflexivity|].
  cbn [EditorStore.files EditorStore.currentFile]. repeat split.
  - apply MapLookups.map_get_set_same.
  - rewrite MapLookups.map_get_set_other by exact Hdiff.
    now apply MapLookups.map_get_delete_same.
  - intros other H1 H2. rewrite MapLookups.map_get_set_other by exact H2.
    now apply MapLookups.map_get_delete_other.
Qed.

End Store.

Lemma renameFile_moves_main :
  let state1 := EditorStore.renameFile two_files "main.tsx" "app.tsx" in
  match JS.map_get "main.tsx" (EditorStore.files two_files) with
  | None => state1 = two_files
  | Some content =>
      if (content =? "")%string then state1 = two_files
      else
        JS.map_get "app.tsx" (EditorStore.files state1) = Some content /\
        JS.map_get "main.tsx" (EditorStore.files state1) = None /\
        (forall other, other <> "main.tsx" -> other <> "app.tsx" ->
           JS.map_get other (EditorStore.files state1)
           = JS.map_get other (EditorStore.files two_files)) /\
        EditorStore.currentFile state1
        = (if (EditorStore.currentFile two_files =? "main.tsx")%string
           then "app.tsx" else EditorStore.currentFile two_files)
  end.
Proof.
  apply (renameFile_moves_the_content two_files "main.tsx" "app.tsx").
  - apply JSFacts.distinct_NoDup. reflexivity.
  - discriminate.
Defined.

(** ** Saving and the panic button *)

(** The store after a save holds the new snapshot, when its identifier
    was free, and apart from it only what it held before. *)
Lemma saveSnapshot_members (db : Store) (snapshot : Draft) (nano : string) (s : Snapshot) :
  In s (fst (saveSnapshot db snapshot nano)) ->
  s = with_id ("snap_" ++ nano)%string snapshot \/ In s db.
Proof.
  unfold saveSnapshot. rewrite cleanupOldSnapshots_cleanup.
  set (db1 := if JS.truthy _ then cleanupAutoSaves db else db).
  assert (forall y, In y db1 -> In y db) as Hsub1.
  { unfold db1. destruct (JS.truthy _); [|tauto].
    rewrite cleanupAutoSaves_cleanup. apply SnapshotLifecycle.cleanup_subset. }
  unfold JS.map_entries. rewrite with_files_same.
  match goal with |- context [IDB.add _ ?r ?d] =>
    destruct (IDB.add (@id string) r d) eqn:Hadd end;
    simpl; intros Hin.
  - apply (Permutation_in _ (IDBFacts.add_Permutation _ _ _ _ Hadd)) in Hin.
    destruct Hin as [<-|Hin]; [now left|].
    right. apply Hsub1. now apply (SnapshotLifecycle.cleanup_subset is_plain maxSnapshots).
  - right. apply Hsub1. now apply (SnapshotLifecycle.cleanup_subset is_plain maxSnapshots).
Qed.

Lemma saveSnapshot_stored (db : Store) (snapshot : Draft) (nano : string) :
  IDB.get (@id string) ("snap_" ++ nano)%string db = None ->
  In (with_id ("snap_" ++ nano)%string snapshot) (fst (saveSnapshot db snapshot nano)).
Proof.
  intros Hfresh.
  pose proof (SnapshotLifecycle.saveSnapshot_fresh db snapshot nano Hfresh) as Hres.
  unfold saveSnapshot in *. unfold JS.map_entries in *. rewrite with_files_same in *.
  match goal with |- context [IDB.add _ ?r ?d] =>
    destruct (IDB.add (@id string) r d) eqn:Hadd end;
    simpl in *; [|discriminate].
  apply (Permutation_in _ (Permutation_sym (IDBFacts.add_Permutation _ _ _ _ Hadd))).
  now left.
Qed.

(** X26.  After a quick save at a time later than every working snapshot
    of the store, under an identifier that was free, the editor reads
    [saved], the new snapshot heads the list of the editor store and is
    the last working snapshot of the database; on the database as the
    save left it, whatever is typed afterwards, the panic button sets the
    code of the editor back to the code that was saved, and leaves the
    rest of the editor but the panic flag, which it raises. *)
Theorem panic_restore_after_quick_save (editor : CodeEditor.Editor)
    (zustand : CodeEditor.Zustand) (db : Store) (now : Z) (nano : string) :
  (forall s, In s db -> status s = working -> timestamp s < now) ->
  IDB.get (@id string) ("snap_" ++ nano)%string db = None ->
  let '(editor1, zustand1, db1) := CodeEditor.handleQuickSave editor zustand db now nano in
  CodeEditor.savedStatus editor1 = CodeEditor.saved /\
  option_map (@id string) (hd_error (EditorStore.snapshots zustand1))
    = Some ("snap_" ++ nano)%string /\
  option_map (@id string) (getLastWorkingSnapshot db1) = Some ("snap_" ++ nano)%string /\
  forall later : CodeEditor.Editor,
    CodeEditor.handlePanicRestore later db1
    = CodeEditor.mkEditor (CodeEditor.editor_code editor) (CodeEditor.compressedCode later)
        (CodeEditor.savedStatus later) true.
Proof.
  intros Hold Hfresh. unfold CodeEditor.handleQuickSave.
  set (d := CodeEditor.draft _ _ _ _ _).
  pose proof (SnapshotLifecycle.saveSnapshot_fresh db d nano Hfresh) as Hres.
  pose proof (saveSnapshot_stored db d nano Hfresh) as Hin.
  pose proof (saveSnapshot_members db d nano) as Hmem.
  destruct (saveSnapshot db d nano) as [db1 r]. simpl in Hres, Hin, Hmem. subst r.
  set (new := with_id ("snap_" ++ nano)%string d) in *.
  split; [reflexivity|]. split; [reflexivity|].
  assert (getLastWorkingSnapshot db1 = Some (revive new)) as Hlast.
  { unfold getLastWorkingSnapshot, IDB.index_getAll, JS.array_length.
    set (ws := filter (fun s => Status_eqb (status s) working) db1).
    assert (In new ws) as Hnew by (apply filter_In; split; [exact Hin | reflexivity]).
    destruct ws as [|w ws'] eqn:Hws; [contradiction|]. rewrite <- Hws in *.
    replace (Z.of_nat (List.length ws) >? 0) with true
      by (symmetry; apply Z.gtb_lt; rewrite Hws; simpl List.length; lia).
    destruct (JS.sort newest_first ws) as [|latest rest] eqn:Hsort.
    - pose proof (JSFacts.sort_length newest_first ws) as Hl.
      rewrite Hsort, Hws in Hl. discriminate Hl.
    - destruct (JSFacts.sort_head_greatest (@timestamp string) ws _ _ Hsort) as [Hl Hmax].
      assert (latest = new) as ->; [|reflexivity].
      unfold ws in Hl. apply filter_In in Hl. destruct Hl as [Hl Hst].
      apply Status_eqb_eq in Hst.
      destruct (Hmem latest Hl) as [E|Hdb]; [exact E|].
      specialize (Hold latest Hdb Hst). specialize (Hmax new Hnew).
      change (timestamp new) with now in Hmax. lia. }
  split; [now rewrite Hlast|].
  intros later. unfold CodeEditor.handlePanicRestore. rewrite Hlast. reflexivity.
Qed.

Lemma panic_restore_after_quick_save_typing :
  let '(editor1, zustand1, db1) :=
    CodeEditor.handleQuickSave typing two_files two_snapshots 3000 "c" in
  CodeEditor.savedStatus editor1 = CodeEditor.saved /\
  option_map (@id string) (hd_error (EditorStore.snapshots zustand1))
    = Some ("snap_" ++ "c")%string /\
  option_map (@id string) (getLastWorkingSnapshot db1) = Some ("snap_" ++ "c")%string /\
  forall later : CodeEditor.Editor,
    CodeEditor.handlePanicRestore later db1
    = CodeEditor.mkEditor (CodeEditor.editor_code typing) (CodeEditor.compressedCode later)
        (CodeEditor.savedStatus later) true.
Proof.
  apply (panic_restore_after_quick_save typing two_files two_snapshots 3000 "c").
  - intros s [<-|[<-|[]]] _; reflexivity.
  - reflexivity.
Defined.

(** No stored snapshot is marked as an auto-save. *)
Definition unmarked (db : Store) : Prop := forall s, In s db -> autoSave s = None.

Lemma saveSnapshot_unmarked (db : Store) (snapshot : Draft) (nano : string) :
  autoSave snapshot = None -> unmarked db -> unmarked (fst (saveSnapshot db snapshot nano)).
Proof.
  intros Hd Hdb s Hs. destruct (saveSnapshot_members db snapshot nano s Hs) as [->|H];
    [exact Hd | now apply Hdb].
Qed.

Lemma act_unmarked (state : CodeEditor.Zustand * Store) (action : Action) :
  unmarked (snd state) -> unmarked (snd (act state action)).
Proof.
  destruct state as [zustand db]. cbn [snd]. intros H.
  destruct action as [editor now nano|editor label now nano|snapshotId now nano|snapshotId];
    cbn [act].
  - unfold CodeEditor.handleQuickSave.
    match goal with |- context [saveSnapshot db ?d nano] =>
      pose proof (saveSnapshot_unmarked db d nano eq_refl H) as H';
      destruct (saveSnapshot db d nano) as [db' [r|e]] end; exact H'.
  - unfold CodeEditor.handleMilestoneSave.
    destruct label as [text|]; [|exact H].
    destruct (text =? "")%string; [exact H|].
    match goal with |- context [saveSnapshot db ?d nano] =>
      pose proof (saveSnapshot_unmarked db d nano eq_refl H) as H';
      destruct (saveSnapshot db d nano) as [db' [r|e]] end; exact H'.
  - unfold SnapshotPanel.handleRestore, restoreSnapshot.
    destruct (getSnapshot db snapshotId) as [target|]; [|exact H].
    match goal with |- context [saveSnapshot db ?d nano] =>
      pose proof (saveSnapshot_unmarked db d nano eq_refl H) as H';
      destruct (saveSnapshot db d nano) as [db' [r|e]] end; exact H'.
  - unfold SnapshotPanel.handleDelete, deleteSnapshot. intros s Hs. apply H.
    now apply (IDBFacts.delete_subset (@id string) snapshotId).
Qed.

(** X27.  Whatever the user saves, restores and deletes, starting from an
    empty store, no stored snapshot is marked as an auto-save: the quick
    save does not set the flag, so the store counts no auto-save and the
    clean-up of auto-saves has nothing to delete. *)
Theorem editor_never_marks_an_auto_save (actions : list Action)
    (zustand : CodeEditor.Zustand) :
  let db := snd (fold_left act actions (zustand, [])) in
  (forall s, In s db -> autoSave s = None) /\
  autoSaveCount db = 0 /\
  cleanupAutoSaves db = db.
Proof.
  cbv zeta.
  assert (forall state, unmarked (snd state) -> unmarked (snd (fold_left act actions state)))
    as Hrun.
  { induction actions as [|a actions IH]; intros state H; simpl; [exact H|].
    apply IH. now apply act_unmarked. }
  pose proof (Hrun (zustand, []) (fun s (H : In s []) => match H with end)) as H.
  set (db := snd (fold_left act actions (zustand, []))) in *.
  assert (filter is_autoSave db = []) as Hnone.
  { clearbody db. induction db as [|s db IH]; simpl; [reflexivity|].
    unfold is_autoSave at 1. rewrite (H s (or_introl eq_refl)). simpl.
    apply IH. intros x Hx. apply H. now right. }
  split; [exact H|]. split.
  - unfold autoSaveCount. now rewrite Hnone.
  - rewrite cleanupAutoSaves_cleanup. apply cleanup_idle; [reflexivity|].
    rewrite Hnone. discriminate.
Qed.

End EditorProperties.

(* ================================================================= *)
(** * The memory cache manager and the pattern compressor *)
(* ================================================================= *)

Module CacheManagerProperties.

Import MemoryCacheManager.

Section Calls.
Context {D : Type}.

(** The calls on a manager, each with the reading of the clock it
    takes. *)
Inductive Call : Type :=
| CallSet (key : string) (d : D) (now : Z)
| CallGet (key : string) (now : Z)
| CallClear.

Definition step (m : Manager D) (c : Call) : Manager D :=
  match c with
  | CallSet key d now => set m key d now
  | CallGet key now => fst (get m key now)
  | CallClear => clear m
  end.

Lemma set_within (m : Manager D) (key : string) (d : D) (now : Z) :
  1 <= maxSize m -> size m <= maxSize m -> size (set m key d now) <= maxSize m.
Proof.
  unfold size, set, JS.map_size. cbn [cache maxSize]. intros Hpos Hle.
  destruct (Z.of_nat (List.length (cache m)) >=? maxSize m) eqn:E.
  - apply Z.geb_le in E.
    destruct (cache m) as [|[k0 v0] rest] eqn:Hc; cbn [JS.map_first_key].
    + simpl in *. lia.
    + cbn [JS.map_delete]. rewrite String.eqb_refl.
      pose proof (JSFacts.map_set_length key (mkItem d now) rest).
      simpl List.length in *. lia.
  - rewrite Z.geb_leb in E. apply Z.leb_gt in E.
    pose proof (JSFacts.map_set_length key (mkItem d now) (cache m)). lia.
Qed.

Lemma step_within (m : Manager D) (c : Call) :
  1 <= maxSize m -> size m <= maxSize m ->
  maxSize (step m c) = maxSize m /\ size (step m c) <= maxSize m.
Proof.
  intros Hpos Hle. destruct c as [key d now|key now|]; cbn [step].
  - split; [reflexivity | now apply set_within].
  - unfold get. destruct (JS.map_get key (cache m)) as [item|]; [|now split].
    destruct (now - timestamp item >? ttl m); [|now split].
    split; [reflexivity|]. unfold size, JS.map_size in *. cbn [cache maxSize fst].
    pose proof (MapLookups.map_delete_length key (cache m)). lia.
  - split; [reflexivity|]. unfold size, clear, JS.map_size. simpl. lia.
Qed.

Lemma run_within (capacity lifetime : Z) (calls : list Call) :
  1 <= capacity ->
  size (fold_left step calls (create capacity lifetime)) <= capacity.
Proof.
  intros Hpos.
  assert (forall m, maxSize m = capacity -> size m <= capacity ->
                    size (fold_left step calls m) <= capacity) as H.
  { induction calls as [|c calls IH]; intros m Hm Hs; simpl; [exact Hs|].
    destruct (step_within m c) as [Hm' Hs']; try lia.
    apply IH; lia. }
  apply H; [reflexivity|]. unfold size, JS.map_size. simpl. lia.
Qed.

(** X28.  A manager made for at least one entry never holds more entries
    than it was made for, whatever is set, read and cleared.  What was
    set under a key is what [get] answers for the key while no more than
    [ttl] milliseconds have passed; after that [get] answers [null] and
    deletes the entry. *)
Theorem cache_manager_bounded_and_expiring (capacity lifetime : Z) (calls : list Call) :
  1 <= capacity ->
  size (fold_left step calls (create capacity lifetime)) <= capacity /\
  forall (m : Manager D) (key : string) (d : D) (t t' : Z),
    let m1 := set m key d t in
    get m1 key t'
    = if t' - t >? ttl m
      then (mkManager (JS.map_delete key (cache m1)) (maxSize m) (ttl m), None)
      else (m1, Some d).
Proof.
  intros Hpos. split; [now apply run_within|].
  intros m key d t t'. cbv zeta. unfold get. unfold set at 1. cbn [cache ttl maxSize].
  rewrite MapLookups.map_get_set_same. cbn [timestamp data]. reflexivity.
Qed.

End Calls.

(** A manager with the default size and time to live, after a few calls. *)
Lemma cache_manager_bounded_by_default :
  size (fold_left step
          [CallSet "a" 1 0; CallSet "b" 2 5; CallGet "a" 400000; CallClear; CallSet "c" 3 7]
          (create 50 (5 * 60 * 1000))) <= 50 /\
  forall (m : Manager Z) (key : string) (d : Z) (t t' : Z),
    let m1 := set m key d t in
    get m1 key t'
    = if t' - t >? ttl m
      then (mkManager (JS.map_delete key (cache m1)) (maxSize m) (ttl m), None)
      else (m1, Some d).
Proof.
  apply (cache_manager_bounded_and_expiring 50 (5 * 60 * 1000)
           [CallSet "a" 1 0; CallSet "b" 2 5; CallGet "a" 400000; CallClear; CallSet "c" 3 7]).
  lia.
Defined.

End CacheManagerProperties.

Module CompressorProperties.

Import PatternCompressor.

(** X29.  [compress] and [decompress] return for no input: the ninth
    pattern of the table, [useState(], and its abbreviation [us(] open a
    group that is never closed, so building the expression throws a
    SyntaxError once the first eight patterns have been applied. *)
Theorem compress_throws (code : string) :
  compress code = JS.Throw (JS.SyntaxError "Unterminated group") /\
  decompress code = JS.Throw (JS.SyntaxError "Unterminated group") /\
  nth_error patterns 8 = Some ("useState(", "us(") /\
  (forall source replacement, In (source, replacement) (firstn 8 patterns) ->
     JS.is_normal (RegExp source) = true /\ JS.is_normal (RegExp replacement) = true).
Proof.
  split; [reflexivity|]. split; [reflexivity|]. split; [reflexivity|].
  intros source replacement H. simpl in H.
  repeat (destruct H as [[= <- <-]|H]; [split; reflexivity|]). contradiction.
Qed.

End CompressorProperties.

(* ================================================================= *)
(** * The chat panel *)
(* ================================================================= *)

Module ChatProperties.

Import ChatPanel.

(** ** Scenarios *)

(** The panel as it is first shown, with the greeting of the assistant,
    and [typed] in the input. *)
Definition greeting : Message :=
  mkChatMessage "1" ClaudeAPI.assistant
    "Hi! I'm Claude, your AI coding assistant. I'm here to help you write safe, stable code. I'll never suggest experimental features or risky dependencies. How can I help you today?"
    0 None None.

Definition first_shown (typed : string) : Panel :=
  mkPanel [greeting] typed false true true 0 EmptyString.

(** The render with other text in the input. *)
Definition typing (panel : Panel) (typed : string) : Panel :=
  mkPanel (messages panel) typed (isLoading panel) (autoMode panel) (safeMode panel)
    (cacheHits panel) (compressedCode panel).

(** The content of the answer, the last message of the next render. *)
Definition answer_of (sent : Sent) : option string :=
  option_map m_content (List.last (map Some (messages (panel_after sent))) None).

Lemma last_of_two {A : Type} (l : list A) (x y d : A) : List.last (l ++ [x; y]) d = y.
Proof.
  induction l as [|z l IH]; [reflexivity|].
  simpl app. change (List.last (z :: l ++ [x; y]) d)
    with (match l ++ [x; y] with [] => z | _ :: _ => List.last (l ++ [x; y]) d end).
  destruct (l ++ [x; y]) eqn:E; [now destruct l | exact IH].
Qed.

(** X30.  When the look-up of the typed text misses, nothing of what
    [sendMessage] asks of the API depends on the text: for two inputs that
    both miss, the panel is answered with the same content, makes the same
    calls and leaves the API instance in the same state.  The
    conversation it hands to the API is the one shown before the text was
    sent. *)
Theorem answer_does_not_depend_on_the_input (panel : Panel) (api : ClaudeAPI.State)
    (a b : string) (fetch : ClaudeAPI.Network) (clock : Clock) (now : Z) (mark : string) :
  blank a = false -> blank b = false -> isLoading panel = false ->
  snd (ClaudeAPI.checkCache api a (Some (context_of panel))) = None ->
  snd (ClaudeAPI.checkCache api b (Some (context_of panel))) = None ->
  let sent_a := sendMessage (typing panel a) api fetch clock now mark in
  let sent_b := sendMessage (typing panel b) api fetch clock now mark in
  answer_of sent_a = answer_of sent_b /\
  effects sent_a = effects sent_b /\
  api_after sent_a = api_after sent_b /\
  api_after sent_a
  = fst (ClaudeAPI.sendMessage (ClaudeAPI.count_request api)
           (conversation (messages panel)) (Some (context_of panel)) fetch now).
Proof.
  intros Ha Hb Hload Hma Hmb. cbv zeta.
  destruct (CacheLifecycle.checkCache_miss api a _ Hma) as [Hsa _].
  destruct (CacheLifecycle.checkCache_miss api b _ Hmb) as [Hsb _].
  unfold sendMessage.
  cbn [typing input isLoading messages autoMode safeMode cacheHits compressedCode].
  rewrite Ha, Hb, Hload. cbn [orb].
  change (context_of (typing panel a)) with (context_of panel).
  change (context_of (typing panel b)) with (context_of panel).
  destruct (ClaudeAPI.checkCache api a (Some (context_of panel))) as [sa ra].
  destruct (ClaudeAPI.checkCache api b (Some (context_of panel))) as [sb rb].
  simpl in Hma, Hmb, Hsa, Hsb. subst ra rb sa sb.
  destruct (ClaudeAPI.sendMessage (ClaudeAPI.count_request api)
              (conversation (messages panel)) (Some (context_of panel)) fetch now)
    as [api2 [response|e]];
    unfold answer_of, settled; cbn [panel_after messages effects api_after];
    rewrite !map_app; cbn [map]; rewrite !last_of_two; repeat split.
Qed.

Lemma answer_does_not_depend_on_what_is_asked :
  let sent_a :=
    sendMessage (typing (first_shown EmptyString) "hello") (ClaudeAPI.create None)
      CacheProperties.offline (mkClock 1 1 2 2) 2 "x" in
  let sent_b :=
    sendMessage (typing (first_shown EmptyString) "cannot find module react")
      (ClaudeAPI.create None) CacheProperties.offline (mkClock 1 1 2 2) 2 "x" in
  answer_of sent_a = answer_of sent_b /\
  effects sent_a = effects sent_b /\
  api_after sent_a = api_after sent_b /\
  api_after sent_a
  = fst (ClaudeAPI.sendMessage (ClaudeAPI.count_request (ClaudeAPI.create None))
           (conversation (messages (first_shown EmptyString)))
           (Some (context_of (first_shown EmptyString))) CacheProperties.offline 2).
Proof.
  apply (answer_does_not_depend_on_the_input (first_shown EmptyString)
           (ClaudeAPI.create None) "hello" "cannot find module react"
           CacheProperties.offline (mkClock 1 1 2 2) 2 "x");
    reflexivity.
Defined.

End ChatProperties.
